(** * Civitai Collection Downloader: the download queue manager

    A shallow embedding of [src/utils/download.js] (class [DownloadManager])
    and the properties of its queue discipline.

    Conventions of the embedding.
    - JavaScript strings are [string]; the text operations work on their
      character lists ([list ascii]).
    - Items are mutable objects shared by reference between the four
      collections and the running [processItem] invocations: the state
      holds a heap of item records, and the collections hold references
      (indices into the heap).
    - The manager runs on a single cooperative scheduler.  One step of the
      model is the code executed between two suspension points ([await]);
      the environment chooses which continuation runs next (a timer that
      is due, the outcome of a platform download, a call of the public
      API).
    - Configuration counts ([maxConcurrent], [retryAttempts]) are natural
      numbers and times are milliseconds in [N]. *)

From Stdlib Require Import List String Ascii Bool Arith NArith ZArith Lia.
From Stdlib Require Import Permutation DecimalString DecimalN.
From stdpp Require Import base list.

Import ListNotations.
Local Open Scope list_scope.
Local Open Scope nat_scope.

(* ===================================================================== *)
(** * Text: the string primitives the manager uses *)
(* ===================================================================== *)

Module Text.

Definition chars := list ascii.

(** A string literal as a character list. *)
Definition lit (s : string) : chars := list_ascii_of_string s.

Definition str (l : chars) : string := string_of_list_ascii l.

(** Decimal rendering of a number inside a template literal. *)
Definition dec (n : N) : chars := lit (NilEmpty.string_of_uint (N.to_uint n)).

Definition chars_eqb (a b : chars) : bool :=
  if List.list_eq_dec Ascii.ascii_dec a b then true else false.

(** Case folding of the [i] flag, on the ASCII letters. *)
Definition lower (c : ascii) : ascii :=
  let n := nat_of_ascii c in
  if (65 <=? n) && (n <=? 90) then ascii_of_nat (n + 32) else c.

Fixpoint starts_with_ci (p s : chars) : bool :=
  match p, s with
  | [], _ => true
  | _ :: _, [] => false
  | a :: p', b :: s' => Ascii.eqb (lower a) (lower b) && starts_with_ci p' s'
  end.

Definition ends_with_ci (p s : chars) : bool :=
  (length p <=? length s)
  && chars_eqb (map lower (skipn (length s - length p) s)) (map lower p).

(** [s.includes(c)] for a one-character needle. *)
Definition includes (c : ascii) (s : chars) : bool :=
  existsb (Ascii.eqb c) s.

(** [s.split(sep)] for a one-character separator. *)
Fixpoint split_on (sep : ascii) (s : chars) : list chars :=
  match s with
  | [] => [[]]
  | c :: t =>
      if Ascii.eqb c sep then [] :: split_on sep t
      else match split_on sep t with
           | [] => [[c]]
           | w :: ws => (c :: w) :: ws
           end
  end.

Definition nonempty (s : chars) : bool :=
  match s with [] => false | _ :: _ => true end.

(** [s.slice(0, e)]: a negative end counts from the end of the string. *)
Definition slice0 (s : chars) (e : Z) : chars :=
  if (e <? 0)%Z
  then firstn (Z.to_nat (Z.max 0 (Z.of_nat (length s) + e))) s
  else firstn (Z.to_nat e) s.

End Text.

Import Text.

(* ===================================================================== *)
(** * The platform URL parser, as far as [extractFilename] uses it *)
(* ===================================================================== *)

Module Url.

(** Position-independent search for the scheme separator [://]; the
    result is what follows it. *)
Fixpoint after_scheme (s : chars) : option chars :=
  match s with
  | [] => None
  | c :: t =>
      if starts_with_ci (lit "://") s then Some (skipn 3 s)
      else after_scheme t
  end.

Definition is_path_start (c : ascii) : bool :=
  Ascii.eqb c "/" || Ascii.eqb c "?" || Ascii.eqb c "#".

Definition is_path_end (c : ascii) : bool :=
  Ascii.eqb c "?" || Ascii.eqb c "#".

Fixpoint drop_until (p : ascii -> bool) (s : chars) : chars :=
  match s with
  | [] => []
  | c :: t => if p c then s else drop_until p t
  end.

Fixpoint take_until (p : ascii -> bool) (s : chars) : chars :=
  match s with
  | [] => []
  | c :: t => if p c then [] else c :: take_until p t
  end.

(** [new URL(url).pathname] for a URL of the shape
    [scheme://authority/path?query#fragment] whose path needs no
    normalisation; [None] stands for the constructor throwing.  The
    parser belongs to the platform, not to the repository: the general
    results below take its answer as a parameter and only the worked
    examples use this model. *)
Definition pathname (url : string) : option chars :=
  match after_scheme (lit url) with
  | None => None
  | Some rest =>
      let p := take_until is_path_end (drop_until is_path_start rest) in
      Some (match p with [] => lit "/" | _ :: _ => p end)
  end.

End Url.

(* ===================================================================== *)
(** * Filename derivation ([extractFilename], [buildFilePath]) *)
(* ===================================================================== *)

(** The alternatives of [/\.(jpg|jpeg|png|webp|gif|mp4|webm|mov|avi|mkv)$/i]. *)
Definition media_exts : list chars :=
  map lit ["jpg"; "jpeg"; "png"; "webp"; "gif"; "mp4"; "webm"; "mov"; "avi"; "mkv"]%string.

(** The alternatives of [/\.(mp4|webm|mov|avi|mkv)(\?|$)/i]. *)
Definition video_exts : list chars :=
  map lit ["mp4"; "webm"; "mov"; "avi"; "mkv"]%string.

(** [filename.match(/\.(jpg|...|mkv)$/i)] as a truth value. *)
Definition has_media_ext (filename : chars) : bool :=
  existsb (fun e => ends_with_ci ("."%char :: e) filename) media_exts.

(** Does [/\.(mp4|webm|mov|avi|mkv)(\?|$)/i] match at the start of [s]? *)
Definition video_here (s : chars) : bool :=
  existsb (fun e =>
             starts_with_ci ("."%char :: e) s
             && match skipn (S (length e)) s with
                | [] => true
                | c :: _ => Ascii.eqb c "?"
                end) video_exts.

(** [url.match(/\.(mp4|webm|mov|avi|mkv)(\?|$)/i)] as a truth value: the
    pattern is tried at every position of the URL. *)
Fixpoint isVideo (url : chars) : bool :=
  match url with
  | [] => false
  | _ :: t => video_here url || isVideo t
  end.

(** The double quote, character 34. *)
Definition dquote : ascii := ascii_of_nat 34.

(** The character class of the sanitising pattern: the characters
    [< > : / \ | ? *] and the double quote. *)
Definition disallowed (c : ascii) : bool :=
  existsb (Ascii.eqb c) (dquote :: lit "<>:/\|?*").

(** [filename.replace(/[...]/g, '_')]. *)
Definition sanitize (filename : chars) : chars :=
  map (fun c => if disallowed c then "_"%char else c) filename.

(** [filename.match(/\.[^.]+$/)?.[0]]: the last dot and what follows it,
    when at least one character follows. *)
Fixpoint last_ext (s : chars) : option chars :=
  match s with
  | [] => None
  | c :: t =>
      match last_ext t with
      | Some e => Some e
      | None =>
          if Ascii.eqb c "." && nonempty t && negb (includes "." t)
          then Some s else None
      end
  end.

(** [pathname.split('/').filter(Boolean)] and its last element
    ([undefined], here [None], when there is none). *)
Definition segments (pathname : chars) : list chars :=
  filter (fun w => nonempty w = true) (split_on "/" pathname).

Definition last_segment (pathname : chars) : option chars :=
  last (segments pathname).

(** The extension inferred for a name without one. *)
Definition default_ext (url : chars) : chars :=
  if isVideo url then lit ".mp4" else lit ".jpg".

(** Lines 253-259: the name after the extension check. *)
Definition with_extension (url filename : chars) : chars :=
  if has_media_ext filename then filename
  else if includes "." filename then filename
  else filename ++ default_ext url.

(** Lines 264-268: the length limit. *)
Definition limit_length (url filename : chars) : chars :=
  if 200 <? length filename then
    let ext := match last_ext filename with
               | Some e => e
               | None => default_ext url
               end in
    slice0 filename (200 - Z.of_nat (length ext)) ++ ext
  else filename.

(** The [catch] branch: [`media_${Date.now()}.jpg`]. *)
Definition fallback_name (now : N) : chars :=
  lit "media_" ++ dec now ++ lit ".jpg".

(** [extractFilename(url)], with the answer of [new URL(url).pathname]
    ([None]: the constructor threw) and the clock reading as parameters.
    A path without a non-empty segment makes [filename] undefined, the
    first [filename.match] throws and the [catch] branch answers. *)
Definition extractFilename_from (pathname : option chars) (now : N)
    (url : chars) : chars :=
  match pathname with
  | None => fallback_name now
  | Some p =>
      match last_segment p with
      | None => fallback_name now
      | Some filename =>
          limit_length url (sanitize (with_extension url filename))
      end
  end.

Definition extractFilename (now : N) (url : string) : string :=
  str (extractFilename_from (Url.pathname url) now (lit url)).

(* ===================================================================== *)
(** * Data model *)
(* ===================================================================== *)

(** A reference to an item object: its index in the heap. *)
Abbreviation ref := nat.

Inductive Status := Queued | Downloading | Completed | Failed.

(** The object built by [addToQueue] (lines 50-57), with the two
    properties that later code touches: [error], written on terminal
    failure, and [downloadId], read by [cancel] and written nowhere. *)
Record Item := mkItem {
  id : string;
  url : string;
  filename : string;
  subfolder : string;
  retries : nat;
  status : Status;
  error : option string;
  downloadId : option nat
}.

(** What a caller passes to [addToQueue]: every property but [url] may be
    missing. *)
Record RawItem := mkRaw {
  raw_id : option string;
  raw_url : string;
  raw_filename : option string;
  raw_subfolder : option string
}.

(** The argument of [init]; a callback is either supplied or not. *)
Record Options := mkOptions {
  opt_maxConcurrent : option nat;
  opt_downloadDelay : option N;
  opt_retryAttempts : option nat;
  opt_basePath : option string;
  opt_onProgress : bool;
  opt_onComplete : bool;
  opt_onError : bool;
  opt_onFileStart : bool
}.

Record Config := mkConfig {
  maxConcurrent : nat;
  downloadDelay : N;
  retryAttempts : nat;
  basePath : string;
  onProgress : bool;
  onComplete : bool;
  onError : bool;
  onFileStart : bool
}.

(** The object returned by [getProgress]. *)
Record Progress := mkProgress {
  p_total : nat;
  p_queued : nat;
  p_downloading : nat;
  p_completed : nat;
  p_failed : nat;
  p_failedItems : list string;
  p_isPaused : bool;
  p_isCancelled : bool
}.

(** Where a running [processItem] invocation is suspended. *)
Inductive Phase :=
| Starting                 (* line 123: awaiting downloadFile *)
| Waiting (handle : nat)   (* line 127: awaiting waitForDownload *)
| Delaying (until : N)     (* line 163: awaiting sleep(downloadDelay) *)
| Finished.

Record Task := mkTask { t_item : ref; t_phase : Phase }.

(** Where [start] is suspended; [Idle] when it is not running. *)
Inductive Loop :=
| Idle
| PauseWait (until : N)    (* line 81 *)
| Poll (until : N)         (* line 94 *)
| Drain (until : N).       (* line 99 *)

(** The collections and objects as they stand at one instant. *)
Record View := mkView {
  v_heap : list Item;
  v_queue : list ref;
  v_active : list ref;
  v_completed : list ref;
  v_failed : list ref;
  v_tasks : list Task;
  v_enqueued : nat
}.

(** Calls that leave the manager. *)
Inductive Out :=
| OutProgress (p : Progress) (at_call : View)   (* onProgress(getProgress()) *)
| OutComplete (p : Progress)                    (* onComplete(getProgress()) *)
| OutError (item : ref) (msg : string)          (* onError(item, error) *)
| OutFileStart (name : string)                  (* onFileStart(item.filename) *)
| OutDownload (u path : string)                 (* chrome.downloads.download *)
| OutAbort (handle : nat).                      (* chrome.downloads.cancel *)

(** The manager ([this]), the item objects, the suspended continuations,
    the clock, and two records kept for the statements: the number of
    items passed to [addToQueue] since [init] and the outbound calls, most
    recent first. *)
Record State := mkState {
  cfg : Config;
  queue : list ref;
  active : list ref;
  completed : list ref;
  failed : list ref;
  isPaused : bool;
  isCancelled : bool;
  heap : list Item;
  tasks : list Task;
  loop : Loop;
  now : N;
  enqueued : nat;
  out : list Out
}.

Definition set_cfg (c : Config) (s : State) : State :=
  mkState c (queue s) (active s) (completed s) (failed s) (isPaused s)
    (isCancelled s) (heap s) (tasks s) (loop s) (now s) (enqueued s) (out s).
Definition set_queue (q : list ref) (s : State) : State :=
  mkState (cfg s) q (active s) (completed s) (failed s) (isPaused s)
    (isCancelled s) (heap s) (tasks s) (loop s) (now s) (enqueued s) (out s).
Definition set_active (a : list ref) (s : State) : State :=
  mkState (cfg s) (queue s) a (completed s) (failed s) (isPaused s)
    (isCancelled s) (heap s) (tasks s) (loop s) (now s) (enqueued s) (out s).
Definition set_completed (c : list ref) (s : State) : State :=
  mkState (cfg s) (queue s) (active s) c (failed s) (isPaused s)
    (isCancelled s) (heap s) (tasks s) (loop s) (now s) (enqueued s) (out s).
Definition set_failed (f : list ref) (s : State) : State :=
  mkState (cfg s) (queue s) (active s) (completed s) f (isPaused s)
    (isCancelled s) (heap s) (tasks s) (loop s) (now s) (enqueued s) (out s).
Definition set_isPaused (b : bool) (s : State) : State :=
  mkState (cfg s) (queue s) (active s) (completed s) (failed s) b
    (isCancelled s) (heap s) (tasks s) (loop s) (now s) (enqueued s) (out s).
Definition set_isCancelled (b : bool) (s : State) : State :=
  mkState (cfg s) (queue s) (active s) (completed s) (failed s) (isPaused s)
    b (heap s) (tasks s) (loop s) (now s) (enqueued s) (out s).
Definition set_heap (h : list Item) (s : State) : State :=
  mkState (cfg s) (queue s) (active s) (completed s) (failed s) (isPaused s)
    (isCancelled s) h (tasks s) (loop s) (now s) (enqueued s) (out s).
Definition set_tasks (t : list Task) (s : State) : State :=
  mkState (cfg s) (queue s) (active s) (completed s) (failed s) (isPaused s)
    (isCancelled s) (heap s) t (loop s) (now s) (enqueued s) (out s).
Definition set_loop (l : Loop) (s : State) : State :=
  mkState (cfg s) (queue s) (active s) (completed s) (failed s) (isPaused s)
    (isCancelled s) (heap s) (tasks s) l (now s) (enqueued s) (out s).
Definition set_now (t : N) (s : State) : State :=
  mkState (cfg s) (queue s) (active s) (completed s) (failed s) (isPaused s)
    (isCancelled s) (heap s) (tasks s) (loop s) t (enqueued s) (out s).
Definition set_enqueued (n : nat) (s : State) : State :=
  mkState (cfg s) (queue s) (active s) (completed s) (failed s) (isPaused s)
    (isCancelled s) (heap s) (tasks s) (loop s) (now s) n (out s).
Definition emit (o : Out) (s : State) : State :=
  mkState (cfg s) (queue s) (active s) (completed s) (failed s) (isPaused s)
    (isCancelled s) (heap s) (tasks s) (loop s) (now s) (enqueued s)
    (o :: out s).

Definition view (s : State) : View :=
  mkView (heap s) (queue s) (active s) (completed s) (failed s) (tasks s)
    (enqueued s).

(** Assignment to a property of the object behind a reference. *)
Definition update (r : ref) (f : Item -> Item) (s : State) : State :=
  set_heap (alter f r (heap s)) s.

Definition with_status (st : Status) (i : Item) : Item :=
  mkItem (id i) (url i) (filename i) (subfolder i) (retries i) st (error i)
    (downloadId i).
Definition with_retries (n : nat) (i : Item) : Item :=
  mkItem (id i) (url i) (filename i) (subfolder i) n (status i) (error i)
    (downloadId i).
Definition with_error (e : string) (i : Item) : Item :=
  mkItem (id i) (url i) (filename i) (subfolder i) (retries i) (status i)
    (Some e) (downloadId i).

(** Truthiness of an optional string property. *)
Definition truthy (o : option string) : option string :=
  match o with
  | Some s => if String.eqb s EmptyString then None else Some s
  | None => None
  end.

(** [x || d] on an optional string. *)
Definition str_or (o : option string) (d : string) : string :=
  match truthy o with Some s => s | None => d end.

(** [x || d] on an optional count: zero is falsy. *)
Definition nat_or (o : option nat) (d : nat) : nat :=
  match o with
  | Some 0 | None => d
  | Some n => n
  end.

(** [x || d] on an optional duration. *)
Definition N_or (o : option N) (d : N) : N :=
  match o with
  | Some 0%N | None => d
  | Some n => n
  end.

(* ===================================================================== *)
(** * The manager's operations *)
(* ===================================================================== *)

(** The state built by the constructor (lines 7-22); nothing is running. *)
Definition new_manager : State :=
  mkState (mkConfig 3 200 3 "Civitai" false false false false)
    [] [] [] [] false false [] [] Idle 0 0 [].

(** [init(options)], lines 27-44. *)
Definition init (options : Options) (s : State) : State :=
  mkState
    (mkConfig (nat_or (opt_maxConcurrent options) 3)
       (N_or (opt_downloadDelay options) 200)
       (nat_or (opt_retryAttempts options) 3)
       (str_or (opt_basePath options) "Civitai")
       (opt_onProgress options) (opt_onComplete options)
       (opt_onError options) (opt_onFileStart options))
    [] [] [] [] false false
    (heap s) (tasks s) (loop s) (now s) 0 (out s).

(** [getProgress()], lines 312-325. *)
Definition getProgress (s : State) : Progress :=
  mkProgress
    (length (queue s) + length (active s) + length (completed s)
     + length (failed s))
    (length (queue s)) (length (active s)) (length (completed s))
    (length (failed s))
    (omap (fun r => filename <$> heap s !! r) (failed s))
    (isPaused s) (isCancelled s).

Inductive RunStatus := StCancelled | StPaused | StIdle | StDownloading.

(** [getStatus()], lines 330-335. *)
Definition getStatus (s : State) : RunStatus :=
  if isCancelled s then StCancelled
  else if isPaused s then StPaused
  else match queue s, active s with
       | [], [] => StIdle
       | _, _ => StDownloading
       end.

(** [emitProgress()], lines 340-344; the view records the instant of the
    call. *)
Definition emitProgress (s : State) : State :=
  if onProgress (cfg s) then emit (OutProgress (getProgress s) (view s)) s
  else s.

(** [emitComplete()], lines 349-353. *)
Definition emitComplete (s : State) : State :=
  if onComplete (cfg s) then emit (OutComplete (getProgress s)) s else s.

(** The generated identifier [`item_${Date.now()}_${index}`]. *)
Definition generated_id (clock : N) (index : nat) : string :=
  str (lit "item_" ++ dec clock ++ lit "_" ++ dec (N.of_nat index)).

(** The object literal of lines 50-57 for the element at [index]. *)
Definition normalize (clock : N) (index : nat) (item : RawItem) : Item :=
  mkItem
    (str_or (raw_id item) (generated_id clock index))
    (raw_url item)
    (str_or (raw_filename item) (extractFilename clock (raw_url item)))
    (str_or (raw_subfolder item) EmptyString)
    0 Queued None None.

(** [addToQueue(items)], lines 49-63: the new objects are allocated at the
    end of the heap and their references pushed onto the queue. *)
Definition addToQueue (items : list RawItem) (s : State) : State * nat :=
  let downloadItems := imap (normalize (now s)) items in
  let refs := seq (length (heap s)) (length downloadItems) in
  let s1 := set_enqueued (enqueued s + length items)
              (set_queue (queue s ++ refs)
                 (set_heap (heap s ++ downloadItems) s)) in
  (emitProgress s1, length downloadItems).

(** [buildFilePath(item)], lines 226-236. *)
Definition buildFilePath (base : string) (item : Item) : string :=
  let parts :=
    [base]
    ++ (if String.eqb (subfolder item) EmptyString then [] else [subfolder item])
    ++ [filename item] in
  String.concat "/" parts.

(** [i.id === item.id] for two references. *)
Definition same_id (h : list Item) (i item : ref) : bool :=
  match h !! i, h !! item with
  | Some a, Some b => String.eqb (id a) (id b)
  | _, _ => false
  end.

(** [this.active.findIndex(i => i.id === item.id)], [None] for [-1]. *)
Fixpoint findIndex (h : list Item) (item : ref) (l : list ref) : option nat :=
  match l with
  | [] => None
  | i :: rest =>
      if same_id h i item then Some 0
      else S <$> findIndex h item rest
  end.

(** [processItem(item)] up to its first suspension (lines 112-123): the
    invocation is recorded as a task, the status is set, progress and the
    file name are reported and the platform download is requested. *)
Definition processItem_begin (item : ref) (s : State) : State :=
  let s1 := set_tasks (tasks s ++ [mkTask item Starting]) s in
  let s2 := emitProgress (update item (with_status Downloading) s1) in
  match heap s2 !! item with
  | None => s2
  | Some it =>
      let s3 := if onFileStart (cfg s2)
                then emit (OutFileStart (filename it)) s2 else s2 in
      emit (OutDownload (url it) (buildFilePath (basePath (cfg s3)) it)) s3
  end.

(** The [catch] block, lines 136-152. *)
Definition processItem_catch (item : ref) (msg : string) (s : State) : State :=
  match heap s !! item with
  | None => s
  | Some it =>
      if retries it <? retryAttempts (cfg s) then
        set_queue (item :: queue s)
          (update item
             (fun i => with_status Queued (with_retries (S (retries i)) i)) s)
      else
        let s1 := set_failed (failed s ++ [item])
                    (update item
                       (fun i => with_error msg (with_status Failed i)) s) in
        if onError (cfg s1) then emit (OutError item msg) s1 else s1
  end.

(** The [finally] block, lines 153-164, for the invocation recorded as task
    [k]: the entry of [active] with the item's id is spliced out, progress
    is reported and the invocation sleeps for [downloadDelay]. *)
Definition processItem_finally (k : nat) (item : ref) (s : State) : State :=
  let s1 := match findIndex (heap s) item (active s) with
            | Some index => set_active (delete index (active s)) s
            | None => s
            end in
  emitProgress
    (set_tasks
       (<[k := mkTask item (Delaying (now s + downloadDelay (cfg s)))]>
          (tasks s1)) s1).

(** Lines 129-131, then [finally]. *)
Definition processItem_success (k : nat) (item : ref) (s : State) : State :=
  processItem_finally k item
    (set_completed (completed s ++ [item])
       (update item (with_status Completed) s)).

Definition processItem_failure (k : nat) (item : ref) (msg : string)
    (s : State) : State :=
  processItem_finally k item (processItem_catch item msg s).

(** What the platform passes to the callback of
    [chrome.downloads.download]. *)
Record DownloadReply := mkReply {
  lastError : option string;
  reply_id : option nat
}.

(** [downloadFile], lines 170-187: the id it resolves with, or the message
    it rejects with. *)
Definition downloadFile (r : DownloadReply) : nat + string :=
  match lastError r with
  | Some msg => inr msg
  | None =>
      match reply_id r with
      | Some (S n) => inl (S n)
      | _ => inr "Download failed to start"%string
      end
  end.

(** What [chrome.downloads.search] reports for a download. *)
Inductive SearchReply :=
| NotFound
| StateComplete
| StateInterrupted (err : option string)
| StateInProgress
| StateOther.

(** One round of [checkStatus], lines 194-217: [None] when it polls again,
    otherwise how [waitForDownload] settles ([Some None]: resolved). *)
Definition checkStatus (r : SearchReply) : option (option string) :=
  match r with
  | NotFound => Some (Some "Download not found"%string)
  | StateComplete => Some None
  | StateInterrupted err => Some (Some (str_or err "Download interrupted"))
  | StateInProgress => None
  | StateOther => None
  end.

(** Continuation of [processItem] after [await this.downloadFile(...)]. *)
Definition on_download_reply (k : nat) (item : ref) (r : DownloadReply)
    (s : State) : State :=
  match downloadFile r with
  | inl (S n) => set_tasks (<[k := mkTask item (Waiting (S n))]> (tasks s)) s
  | inl 0 => processItem_failure k item "Failed to initiate download" s
  | inr msg => processItem_failure k item msg s
  end.

(** Continuation of [processItem] after a status report for its download. *)
Definition on_search_reply (k : nat) (item : ref) (r : SearchReply)
    (s : State) : State :=
  match checkStatus r with
  | None => s
  | Some None => processItem_success k item s
  | Some (Some msg) => processItem_failure k item msg s
  end.

(** The slot-filling loop, lines 87-91, by recursion on the queue it
    consumes; it is called on the current queue. *)
Fixpoint fill_slots (q : list ref) (s : State) : State :=
  match q with
  | [] => s
  | item :: rest =>
      if length (active s) <? maxConcurrent (cfg s) then
        fill_slots rest
          (processItem_begin item
             (set_active (active s ++ [item]) (set_queue rest s)))
      else s
  end.

Definition is_nil {A} (l : list A) : bool :=
  match l with [] => true | _ :: _ => false end.

(** Lines 98-104: the wait for the active downloads and the completion
    report. *)
Definition after_loop (s : State) : State :=
  if negb (is_nil (active s)) && negb (isCancelled s)
  then set_loop (Drain (now s + 100)) s
  else set_loop Idle (if isCancelled s then s else emitComplete s).

(** Lines 80-94: the pause wait, the cancellation check, the slot filling
    and the poll. *)
Definition pause_gate (s : State) : State :=
  if isPaused s && negb (isCancelled s)
  then set_loop (PauseWait (now s + 100)) s
  else if isCancelled s then after_loop s
  else set_loop (Poll (now s + 50)) (fill_slots (queue s) s).

(** Line 78: the test of the main loop. *)
Definition loop_top (s : State) : State :=
  if negb (isCancelled s)
     && (negb (is_nil (queue s)) || negb (is_nil (active s)))
  then pause_gate s
  else after_loop s.

(** [start()], lines 68-105, up to its first suspension. *)
Definition start (s : State) : State :=
  if is_nil (queue s) && is_nil (active s) then emitComplete s
  else loop_top (set_isPaused false (set_isCancelled false s)).

(** [pause()], [resume()], lines 279-288. *)
Definition pause (s : State) : State := set_isPaused true s.
Definition resume (s : State) : State := set_isPaused false s.

(** The [forEach] of lines 298-302. *)
Definition abort_active (s : State) : State :=
  fold_left
    (fun acc item =>
       match heap acc !! item with
       | Some it =>
           match downloadId it with
           | Some (S n) => emit (OutAbort (S n)) acc
           | _ => acc
           end
       | None => acc
       end)
    (active s) s.

(** [cancel()], lines 293-307. *)
Definition cancel (s : State) : State :=
  set_active []
    (set_queue []
       (abort_active (set_isPaused false (set_isCancelled true s)))).

(* ===================================================================== *)
(** * Runs *)
(* ===================================================================== *)

(** What the environment can do next: call the public interface, let time
    pass, fire a timer that is due, or deliver a platform callback to the
    [processItem] invocation with task number [k]. *)
Inductive Event :=
| EAddToQueue (items : list RawItem)
| EStart
| EPause
| EResume
| ECancel
| ETick (ms : N)
| ELoopWake
| EDownloadReply (k : nat) (r : DownloadReply)
| ESearchReply (k : nat) (r : SearchReply)
| EDelayOver (k : nat).

(** One step: the code run between two suspension points.  [None] when
    the event is not possible in the state (a timer that is not due, a
    callback for an invocation that does not await it, [start] while
    [start] is running). *)
Definition step (e : Event) (s : State) : option State :=
  match e with
  | EAddToQueue items => Some (fst (addToQueue items s))
  | EStart =>
      match loop s with
      | Idle => Some (start s)
      | _ => None
      end
  | EPause => Some (pause s)
  | EResume => Some (resume s)
  | ECancel => Some (cancel s)
  | ETick ms => Some (set_now (now s + ms)%N s)
  | ELoopWake =>
      match loop s with
      | Idle => None
      | PauseWait t => if (t <=? now s)%N then Some (pause_gate s) else None
      | Poll t => if (t <=? now s)%N then Some (loop_top s) else None
      | Drain t => if (t <=? now s)%N then Some (after_loop s) else None
      end
  | EDownloadReply k r =>
      match tasks s !! k with
      | Some (mkTask item Starting) => Some (on_download_reply k item r s)
      | _ => None
      end
  | ESearchReply k r =>
      match tasks s !! k with
      | Some (mkTask item (Waiting _)) => Some (on_search_reply k item r s)
      | _ => None
      end
  | EDelayOver k =>
      match tasks s !! k with
      | Some (mkTask item (Delaying t)) =>
          if (t <=? now s)%N
          then Some (set_tasks (<[k := mkTask item Finished]> (tasks s)) s)
          else None
      | _ => None
      end
  end.

Fixpoint run (es : list Event) (s : State) : option State :=
  match es with
  | [] => Some s
  | e :: rest =>
      match step e s with
      | Some s' => run rest s'
      | None => None
      end
  end.

(** A run starts with [init] on a fresh manager. *)
Definition run_from (options : Options) (es : list Event) : option State :=
  run es (init options new_manager).

Definition default_options : Options :=
  mkOptions None None None None true true true true.

Definition is_cancel (e : Event) : bool :=
  match e with ECancel => true | _ => false end.

(** The references of the invocations that have not reached their [catch]
    or [finally] block yet. *)
Definition in_flight (ts : list Task) : list ref :=
  omap (fun t => match t_phase t with
                 | Starting | Waiting _ => Some (t_item t)
                 | Delaying _ | Finished => None
                 end) ts.

Definition ids_of (h : list Item) (l : list ref) : list (option string) :=
  map (fun r => id <$> h !! r) l.

(** The views reported so far, and the current one. *)
Definition reported (s : State) : list View :=
  omap (fun o => match o with
                 | OutProgress _ v => Some v
                 | _ => None
                 end) (out s).

Definition observed (s : State) : list View := view s :: reported s.

Definition raw (u : string) : RawItem := mkRaw None u None None.
Definition ok_reply (n : nat) : DownloadReply := mkReply None (Some n).

(** A task has settled when its invocation has reached [finally]. *)
Definition settled (p : Phase) : bool :=
  match p with
  | Starting | Waiting _ => false
  | Delaying _ | Finished => true
  end.

(** A run that reaches [s]; [quiet] tells that [cancel] was not called. *)
Definition reaches (options : Options) (es : list Event) (s : State) : Prop :=
  run_from options es = Some s.

Definition quiet (es : list Event) : bool := forallb (fun e => negb (is_cancel e)) es.

(** What holds of the collections at every instant.  The references that
    [cancel] discards are [dropped]; there are none in a quiet run. *)
Record Sound (q : bool) (c : Config) (v : View) : Prop := mkSound {
  sound_bound : length (v_active v) <= maxConcurrent c;
  sound_heap :
    Forall (fun it => retries it <= retryAttempts c /\ downloadId it = None)
      (v_heap v);
  sound_part :
    exists dropped,
      Permutation
        (v_queue v ++ in_flight (v_tasks v) ++ v_completed v ++ v_failed v
         ++ dropped)
        (seq 0 (length (v_heap v)))
      /\ (q = true -> dropped = []);
  sound_ids :
    q = true ->
    Permutation (ids_of (v_heap v) (v_active v))
      (ids_of (v_heap v) (in_flight (v_tasks v)));
  sound_count : v_enqueued v = length (v_heap v);
  sound_refs : Forall (fun r => r < length (v_heap v)) (v_active v)
}.

(** The invariant: the current view and every reported view are sound. *)
Definition Inv (q : bool) (s : State) : Prop :=
  Forall (Sound q (cfg s)) (observed s).

(** The sizes in a reported snapshot are those of the collections at the
    instant of the call. *)
Definition faithful (o : Out) : Prop :=
  match o with
  | OutProgress p v =>
      p_queued p = length (v_queue v)
      /\ p_downloading p = length (v_active v)
      /\ p_completed p = length (v_completed v)
      /\ p_failed p = length (v_failed v)
      /\ p_total p = p_queued p + p_downloading p + p_completed p + p_failed p
  | _ => True
  end.

(** What no code of the manager undoes after [init]: the configuration
    stays, the completed and failed lists and the outbound calls only
    grow, the clock does not go back. *)
Record Extends (s s' : State) : Prop := mkExtends {
  ext_cfg : cfg s' = cfg s;
  ext_completed : exists l, completed s' = completed s ++ l;
  ext_failed : exists l, failed s' = failed s ++ l;
  ext_out : exists l, out s' = l ++ out s /\ Forall faithful l;
  ext_now : (now s <= now s')%N
}.

(** The number of items one execution of the slot-filling loop moves. *)
Definition pulled (s : State) : nat :=
  Nat.min (length (queue s)) (maxConcurrent (cfg s) - length (active s)).

(* ===================================================================== *)
(** * Worked runs and the specification's wording *)
(* ===================================================================== *)

Definition item_A : RawItem := raw "https://cdn.example/a.jpg".
Definition item_B : RawItem := raw "https://cdn.example/b.jpg".
Definition item_C : RawItem := raw "https://cdn.example/c.jpg".

(** Two items that a caller supplies with the same id. *)
Definition twin_1 : RawItem :=
  mkRaw (Some "a"%string) "https://cdn.example/1.jpg" None None.
Definition twin_2 : RawItem :=
  mkRaw (Some "a"%string) "https://cdn.example/2.jpg" None None.

Definition failed_reply (msg : string) : DownloadReply :=
  mkReply (Some msg) None.

Definition one_slot : Options :=
  mkOptions (Some 1) None None None true true true true.

Definition one_retry : Options :=
  mkOptions None None (Some 1) None true true true true.

(** Three items, default options; the first download completes. *)
Definition plain_run : list Event :=
  [EAddToQueue [item_A; item_B; item_C]; EStart;
   EDownloadReply 0 (ok_reply 7); ESearchReply 0 StateComplete].

(** One slot; A is pulled and its download fails to start. *)
Definition retry_run : list Event :=
  [EAddToQueue [item_A; item_B; item_C]; EStart;
   EDownloadReply 0 (failed_reply "network")].


(** One item whose platform download has started, with handle 7. *)
Definition started_run : list Event :=
  [EAddToQueue [item_A]; EStart; EDownloadReply 0 (ok_reply 7)].

(** One retry allowed; A has failed once, has been pulled again, and
    [cancel] is called while its second download is starting. *)
Definition last_try_run : list Event :=
  [EAddToQueue [item_A]; EStart; EDownloadReply 0 (failed_reply "network");
   ETick 50; ELoopWake; ECancel].

(** One slot; A completes 10 ms after the start, and the poll of [start]
    is due 40 ms later. *)
Definition spacing_run : list Event :=
  [EAddToQueue [item_A; item_B]; EStart; ETick 10;
   EDownloadReply 0 (ok_reply 7); ESearchReply 0 StateComplete;
   ETick 40; ELoopWake].

(** The state that [plain_run] reaches. *)
Definition plain_state : State :=
  Eval vm_compute in
    match run_from default_options plain_run with
    | Some s => s
    | None => new_manager
    end.

(** The state that [retry_run] reaches with one slot, just before A's
    download fails to start. *)
Definition retry_state : State :=
  Eval vm_compute in
    match run_from one_slot [EAddToQueue [item_A; item_B; item_C]; EStart] with
    | Some s => s
    | None => new_manager
    end.

(** The calls of [onError] and of the platform's abort made so far. *)
Definition error_calls (s : State) : list Out :=
  List.filter (fun o => match o with OutError _ _ => true | _ => false end)
    (out s).

Definition abort_calls (s : State) : list Out :=
  List.filter (fun o => match o with OutAbort _ => true | _ => false end)
    (out s).

(** The file name as the specification words it: the disallowed
    characters are removed from the last path segment (extended by the
    inferred extension when it has none), and the length is limited. *)
Definition claimed_filename (url filename : chars) : chars :=
  limit_length url
    (filter (fun c => disallowed c = false)
       (if includes "." filename then filename
        else filename ++ default_ext url)).

(* ===================================================================== *)
(** * The moves of the collections *)
(* ===================================================================== *)

(** Lines 155-158: the splice of the first entry of [active] that has the
    item's id. *)
Definition splice_active (h : list Item) (item : ref) (a : list ref)
    : list ref :=
  match findIndex h item a with
  | Some index => delete index a
  | None => a
  end.

(** The ways in which the code changes the objects and the collections:
    [addToQueue]; one turn of the slot-filling loop with the start of
    [processItem]; an invocation that goes on without settling; the three
    settlements (lines 129-131, 140-143, 145-147, each followed by the
    [finally] block); and [cancel]. *)
Inductive Move (c : Config) (v : View) : View -> Prop :=
| MoveAdd (clock : N) (items : list RawItem) :
    Move c v
      (mkView (v_heap v ++ imap (normalize clock) items)
         (v_queue v ++ seq (length (v_heap v)) (length items))
         (v_active v) (v_completed v) (v_failed v) (v_tasks v)
         (v_enqueued v + length items))
| MovePull (item : ref) (rest : list ref) :
    v_queue v = item :: rest ->
    length (v_active v) < maxConcurrent c ->
    Move c v
      (mkView (alter (with_status Downloading) item (v_heap v)) rest
         (v_active v ++ [item]) (v_completed v) (v_failed v)
         (v_tasks v ++ [mkTask item Starting]) (v_enqueued v))
| MovePhase (k : nat) (item : ref) (p p' : Phase) :
    v_tasks v !! k = Some (mkTask item p) ->
    settled p = settled p' ->
    Move c v
      (mkView (v_heap v) (v_queue v) (v_active v) (v_completed v)
         (v_failed v) (<[k := mkTask item p']> (v_tasks v)) (v_enqueued v))
| MoveSuccess (k : nat) (item : ref) (p p' : Phase) :
    v_tasks v !! k = Some (mkTask item p) ->
    settled p = false -> settled p' = true ->
    Move c v
      (mkView (alter (with_status Completed) item (v_heap v)) (v_queue v)
         (splice_active (v_heap v) item (v_active v))
         (v_completed v ++ [item]) (v_failed v)
         (<[k := mkTask item p']> (v_tasks v)) (v_enqueued v))
| MoveRetry (k : nat) (item : ref) (p p' : Phase) (it : Item) :
    v_tasks v !! k = Some (mkTask item p) ->
    settled p = false -> settled p' = true ->
    v_heap v !! item = Some it ->
    retries it < retryAttempts c ->
    Move c v
      (mkView
         (alter (fun i => with_status Queued (with_retries (S (retries i)) i))
            item (v_heap v))
         (item :: v_queue v)
         (splice_active (v_heap v) item (v_active v))
         (v_completed v) (v_failed v)
         (<[k := mkTask item p']> (v_tasks v)) (v_enqueued v))
| MoveFail (k : nat) (item : ref) (p p' : Phase) (it : Item) (msg : string) :
    v_tasks v !! k = Some (mkTask item p) ->
    settled p = false -> settled p' = true ->
    v_heap v !! item = Some it ->
    retryAttempts c <= retries it ->
    Move c v
      (mkView
         (alter (fun i => with_error msg (with_status Failed i)) item
            (v_heap v))
         (v_queue v)
         (splice_active (v_heap v) item (v_active v))
         (v_completed v) (v_failed v ++ [item])
         (<[k := mkTask item p']> (v_tasks v)) (v_enqueued v))
| MoveCancel :
    Move c v
      (mkView (v_heap v) [] [] (v_completed v) (v_failed v) (v_tasks v)
         (v_enqueued v)).

(** Moves in a row, each from a sound view. *)
Inductive Moves (c : Config) : View -> View -> Prop :=
| Moves_refl (v : View) : Moves c v v
| Moves_step (v1 v2 v3 : View) :
    Sound false c v1 -> Move c v1 v2 -> Moves c v2 v3 -> Moves c v1 v3.

(** An item's status agrees with the collection that holds it, and a
    failed item carries its error message. *)
Definition Coherent (v : View) : Prop :=
  forall r it,
    v_heap v !! r = Some it ->
    (In r (v_queue v) -> status it = Queued)
    /\ (In r (in_flight (v_tasks v)) -> status it = Downloading)
    /\ (In r (v_completed v) -> status it = Completed)
    /\ (In r (v_failed v) -> status it = Failed /\ is_Some (error it)).

(** The number of [processItem] invocations made for an item. *)
Definition attempts (ts : list Task) (r : ref) : nat :=
  length (List.filter (fun t => Nat.eqb (t_item t) r) ts).

(** An item has been attempted at most once more than it has retries,
    and not even that while it waits in the queue. *)
Definition Rationed (v : View) : Prop :=
  forall r,
    attempts (v_tasks v) r
    + (if existsb (Nat.eqb r) (v_queue v) then 1 else 0)
    <= match v_heap v !! r with
       | Some it => S (retries it)
       | None => 0
       end.

(** A completion report of a drained run: nothing queued, nothing
    downloading. *)
Definition drained (o : Out) : Prop :=
  match o with
  | OutComplete p =>
      p_queued p = 0 /\ p_downloading p = 0
      /\ p_total p = p_completed p + p_failed p
  | _ => True
  end.

(** [start] never sleeps in the wait of lines 98-100, and it has reported
    completion for drained runs only. *)
Definition Tidy (s : State) : Prop :=
  match loop s with Drain _ => False | _ => True end
  /\ Forall drained (out s).

(** The outbound calls of one kind, oldest first: the requests made to
    [chrome.downloads.download], the names passed to [onFileStart] and
    the items passed to [onError]. *)
Definition requests (os : list Out) : list (string * string) :=
  rev (omap (fun o => match o with
                      | OutDownload u path => Some (u, path)
                      | _ => None
                      end) os).

Definition file_starts (os : list Out) : list string :=
  rev (omap (fun o => match o with
                      | OutFileStart name => Some name
                      | _ => None
                      end) os).

Definition errors (os : list Out) : list (ref * string) :=
  rev (omap (fun o => match o with
                      | OutError item msg => Some (item, msg)
                      | _ => None
                      end) os).

(** The request and the name that [processItem] derives from the item
    of an invocation, lines 114-122. *)
Definition request_for (base : string) (h : list Item) (t : Task)
    : option (string * string) :=
  (fun it => (url it, buildFilePath base it)) <$> h !! t_item t.

Definition name_for (h : list Item) (t : Task) : option string :=
  filename <$> h !! t_item t.

(** The outbound calls agree with the invocations made and with the
    failed list. *)
Record LoggedOf (c : Config) (h : list Item) (q : list ref)
    (ts : list Task) (f : list ref) (os : list Out) : Prop := mkLogged {
  lg_queue : Forall (fun r => r < length h) q;
  lg_requests :
    map Some (requests os) = map (request_for (basePath c) h) ts;
  lg_starts :
    if onFileStart c
    then map Some (file_starts os) = map (name_for h) ts
    else file_starts os = [];
  lg_errors :
    if onError c then map fst (errors os) = f else errors os = []
}.

Definition Logged (s : State) : Prop :=
  LoggedOf (cfg s) (heap s) (queue s) (tasks s) (failed s) (out s).

(* ===================================================================== *)
(** * The background worker: what it hands to the manager *)
(* ===================================================================== *)

(** The second argument of [generateFilename]: an index, a string such
    as [`video_${idx}`] or an image id, or nothing. *)
Inductive Tag := TagNum (n : N) | TagStr (s : string).

(** The tag inside a template literal. *)
Definition render (t : Tag) : chars :=
  match t with
  | TagNum n => dec n
  | TagStr s => lit s
  end.

(** [id || Date.now()] inside the template literal of the [catch]. *)
Definition tag_or_now (id : option Tag) (now : N) : chars :=
  match id with
  | Some (TagNum 0%N) | None => dec now
  | Some (TagStr s) => if String.eqb s EmptyString then dec now else lit s
  | Some t => render t
  end.

(** [generateFilename(url, id)] of the background worker, with the answer
    of [new URL(url).pathname] and the clock reading as parameters.  With
    an id the missing last segment is rendered as [undefined]; without
    one, [filename.match] throws and the [catch] branch answers. *)
Definition generateFilename_from (pathname : option chars) (now : N)
    (url : chars) (id : option Tag) : chars :=
  let caught := lit "media_" ++ tag_or_now id now ++ lit ".jpg" in
  let finish := fun filename : chars =>
    sanitize (if has_media_ext filename then filename
              else filename ++ default_ext url) in
  match pathname with
  | None => caught
  | Some path =>
      match id, last_segment path with
      | Some t, Some filename => finish (render t ++ lit "_" ++ filename)
      | Some t, None => finish (render t ++ lit "_" ++ lit "undefined")
      | None, Some filename => finish filename
      | None, None => caught
      end
  end.

Definition generateFilename (now : N) (url : string) (id : option Tag)
    : string :=
  str (generateFilename_from (Url.pathname url) now (lit url) id).

(** An entry of the list that [collectImageUrls] builds. *)
Record Found := mkFound {
  found_url : option string;
  found_filename : option string;
  found_subfolder : option string
}.

Definition is_hex (c : ascii) : bool :=
  let n := nat_of_ascii c in
  ((48 <=? n) && (n <=? 57)) || ((97 <=? n) && (n <=? 102))
  || ((65 <=? n) && (n <=? 70)).

(** [[0-9a-f]{n}] at the start of [s], case-insensitive: what follows. *)
Fixpoint hexes (n : nat) (s : chars) : option chars :=
  match n, s with
  | 0, _ => Some s
  | S m, c :: t => if is_hex c then hexes m t else None
  | S _, [] => None
  end.

Definition dash (s : chars) : option chars :=
  match s with
  | c :: t => if Ascii.eqb c "-" then Some t else None
  | [] => None
  end.

Definition slash (s : chars) : option chars :=
  match s with
  | c :: t => if Ascii.eqb c "/" then Some t else None
  | [] => None
  end.

Definition and_then {A B} (o : option A) (f : A -> option B) : option B :=
  match o with
  | Some a => f a
  | None => None
  end.

(** The pattern of [getMediaUuid] at the start of [s]: a slash, the
    groups of 8, 4, 4, 4 and 12 hexadecimal digits joined by dashes, a
    slash; the answer is the text between the slashes. *)
Definition uuid_here (s : chars) : option chars :=
  and_then (slash s) (fun s1 =>
  and_then (hexes 8 s1) (fun s2 =>
  and_then (dash s2) (fun s3 =>
  and_then (hexes 4 s3) (fun s4 =>
  and_then (dash s4) (fun s5 =>
  and_then (hexes 4 s5) (fun s6 =>
  and_then (dash s6) (fun s7 =>
  and_then (hexes 4 s7) (fun s8 =>
  and_then (dash s8) (fun s9 =>
  and_then (hexes 12 s9) (fun s10 =>
  and_then (slash s10) (fun _ => Some (firstn 36 s1)))))))))))).

(** [getMediaUuid(url)]: the first match, from left to right. *)
Fixpoint getMediaUuid (url : chars) : option chars :=
  match url with
  | [] => None
  | _ :: t =>
      match uuid_here url with
      | Some u => Some u
      | None => getMediaUuid t
      end
  end.

(** The texts that the pattern captures: five groups of 8, 4, 4, 4 and
    12 hexadecimal digits, joined by dashes. *)
Definition uuid_shaped (u : chars) : Prop :=
  exists a b c d e,
    u = a ++ "-"%char :: b ++ "-"%char :: c ++ "-"%char :: d
          ++ "-"%char :: e
    /\ length a = 8 /\ length b = 4 /\ length c = 4 /\ length d = 4
    /\ length e = 12
    /\ Forall (fun x => is_hex x = true) (a ++ b ++ c ++ d ++ e).

(** [map.has(key)] and [map.set(key, value)] on a [Map] kept in
    insertion order: an existing key keeps its place. *)
Definition map_has {V} (key : string) (m : list (string * V)) : bool :=
  existsb (fun kv => String.eqb (fst kv) key) m.

Fixpoint map_set {V} (key : string) (value : V) (m : list (string * V))
    : list (string * V) :=
  match m with
  | [] => [(key, value)]
  | (k, v) :: rest =>
      if String.eqb k key then (k, value) :: rest
      else (k, v) :: map_set key value rest
  end.

(** [uniqueUrls] and [seenUuids]. *)
Record Seen := mkSeen {
  uniqueUrls : list (string * Found);
  seenUuids : list chars
}.

Definition set_has (u : chars) (l : list chars) : bool :=
  existsb (chars_eqb u) l.

(** The body of the [forEach] that removes duplicates. *)
Definition dedupe_step (acc : Seen) (img : Found) : Seen :=
  match truthy (found_url img) with
  | None => acc
  | Some u =>
      match getMediaUuid (lit u) with
      | Some uuid =>
          if set_has uuid (seenUuids acc) then acc
          else mkSeen (map_set u img (uniqueUrls acc))
                 (seenUuids acc ++ [uuid])
      | None =>
          if map_has u (uniqueUrls acc) then acc
          else mkSeen (map_set u img (uniqueUrls acc)) (seenUuids acc)
      end
  end.

(** The end of [collectImageUrls]: the entries without duplicates. *)
Definition dedupe (images : list Found) : list Found :=
  map snd (uniqueUrls (fold_left dedupe_step images (mkSeen [] []))).

(** The object that [startDownload] builds for the entry at [index].  The
    entries come out of [dedupe], which keeps those with a non-empty url
    only; for them [url.url || url] is [url.url]. *)
Definition prepare (now : N) (index : nat) (e : Found) : RawItem :=
  let u := str_or (found_url e) EmptyString in
  mkRaw
    (Some (str (lit "img_" ++ dec (N.of_nat index))))
    u
    (Some (str_or (found_filename e)
             (generateFilename now u (Some (TagNum (N.of_nat index))))))
    (Some (str_or (found_subfolder e) EmptyString)).

(** The items that [startDownload] passes to [addToQueue]. *)
Definition downloadItems (now : N) (images : list Found) : list RawItem :=
  imap (prepare now) (dedupe images).


(** What the [forEach] keeps true of [uniqueUrls] and [seenUuids] once
    the entries [done] have been visited. *)
Record Deduped (done : list Found) (acc : Seen) : Prop := mkDeduped {
  dd_sub : sublist (map snd (uniqueUrls acc)) done;
  dd_key :
    Forall (fun kv => truthy (found_url (snd kv)) = Some (fst kv))
      (uniqueUrls acc);
  dd_seen :
    seenUuids acc
    = omap (fun kv => getMediaUuid (lit (fst kv))) (uniqueUrls acc);
  dd_keys : NoDup (map fst (uniqueUrls acc));
  dd_uuids : NoDup (seenUuids acc);
  dd_cover :
    forall img u,
      In img done -> truthy (found_url img) = Some u ->
      In u (map fst (uniqueUrls acc))
      \/ exists uuid, getMediaUuid (lit u) = Some uuid
                      /\ In uuid (seenUuids acc)
}.



(** A page with one picture in two renditions, an entry without url and
    one picture listed twice; the run of the worker on it. *)
Definition shot (u : string) : Found := mkFound (Some u) None None.

Definition worker_images : list Found :=
  [shot "https://image.civitai.com/k/0123abcd-0123-4567-89ab-0123456789ab/width=450/a.jpeg";
   mkFound None None None;
   shot "https://image.civitai.com/k/0123abcd-0123-4567-89ab-0123456789ab/original=true/a.jpeg";
   shot "https://cdn.example/b.png";
   shot "https://cdn.example/b.png"].



(* ===================================================================== *)
(** * Results *)
(* ===================================================================== *)
(** ** Lists of references and tasks *)

Lemma in_flight_app (ts us : list Task) :
  in_flight (ts ++ us) = in_flight ts ++ in_flight us.
Proof. unfold in_flight. apply omap_app. Qed.

(** Replacing a task by one of the same kind leaves the invocations in
    flight as they are. *)
Lemma in_flight_insert_same (ts : list Task) k item p p' :
  ts !! k = Some (mkTask item p) ->
  settled p = settled p' ->
  in_flight (<[k := mkTask item p']> ts) = in_flight ts.
Proof.
  revert k. induction ts as [|t ts IH]; intros [|k] Hk Hs; simpl in *;
    try discriminate.
  - injection Hk as ->. unfold in_flight. simpl.
    destruct p, p'; simpl in *; congruence.
  - unfold in_flight in *. simpl. rewrite (IH k Hk Hs). reflexivity.
Qed.

(** An invocation that reaches its [catch] or [finally] block leaves the
    invocations in flight. *)
Lemma in_flight_insert_settle (ts : list Task) k item p p' :
  ts !! k = Some (mkTask item p) ->
  settled p = false -> settled p' = true ->
  Permutation (in_flight ts) (item :: in_flight (<[k := mkTask item p']> ts)).
Proof.
  revert k. induction ts as [|t ts IH]; intros [|k] Hk Hs Hs'; simpl in *;
    try discriminate.
  - injection Hk as ->. unfold in_flight. simpl.
    destruct p, p'; simpl in *; try discriminate; reflexivity.
  - specialize (IH k Hk Hs Hs'). unfold in_flight in *. simpl.
    destruct (t_phase t); simpl; rewrite IH; solve_Permutation.
Qed.

Lemma findIndex_Some h item (l : list ref) i :
  findIndex h item l = Some i ->
  exists r, l !! i = Some r /\ same_id h r item = true.
Proof.
  revert i. induction l as [|a l IH]; intros i H; simpl in *; [discriminate|].
  destruct (same_id h a item) eqn:E.
  - injection H as <-. exists a. auto.
  - destruct (findIndex h item l) as [j|]; simpl in H; [|discriminate].
    injection H as <-. destruct (IH j eq_refl) as (r & ? & ?). exists r. auto.
Qed.

Lemma findIndex_None h item (l : list ref) :
  findIndex h item l = None -> Forall (fun r => same_id h r item = false) l.
Proof.
  induction l as [|a l IH]; simpl; intros H; [constructor|].
  destruct (same_id h a item) eqn:E; [discriminate|].
  destruct (findIndex h item l); simpl in H; [discriminate|].
  constructor; auto.
Qed.

Lemma delete_Permutation {A} (l : list A) i x :
  l !! i = Some x -> Permutation l (x :: delete i l).
Proof.
  revert i. induction l as [|a l IH]; intros [|i] H; simpl in *;
    try discriminate.
  - injection H as ->. reflexivity.
  - rewrite (IH i H) at 1. apply perm_swap.
Qed.

Lemma same_id_spec (h : list Item) (r item : ref) :
  same_id h r item = true <->
  (id <$> h !! r) = (id <$> h !! item) /\ is_Some (h !! r).
Proof.
  unfold same_id. destruct (h !! r) as [a|], (h !! item) as [b|]; simpl.
  - rewrite String.eqb_eq. split.
    + intros ->. split; eauto.
    + intros [H _]. congruence.
  - split; [discriminate | intros [H _]; discriminate].
  - split; [discriminate | intros [_ [x H]]; discriminate].
  - split; [discriminate | intros [_ [x H]]; discriminate].
Qed.

Lemma ids_of_app h (l1 l2 : list ref) :
  ids_of h (l1 ++ l2) = ids_of h l1 ++ ids_of h l2.
Proof. unfold ids_of. apply map_app. Qed.

Lemma lookup_id_alter (h : list Item) (f : Item -> Item) (r x : ref) :
  (forall i, id (f i) = id i) ->
  id <$> alter f r h !! x = id <$> h !! x.
Proof.
  intros Hf. destruct (decide (r = x)) as [E|Hne].
  - subst x. rewrite list_lookup_alter_eq.
    destruct (h !! r) as [it|] eqn:Hit; simpl; [|reflexivity].
    rewrite Hf. reflexivity.
  - rewrite list_lookup_alter_ne by assumption. reflexivity.
Qed.

(** Writing a property other than [id] leaves the ids as they are. *)
Lemma ids_of_alter (h : list Item) (f : Item -> Item) (r : ref) (l : list ref) :
  (forall i, id (f i) = id i) ->
  ids_of (alter f r h) l = ids_of h l.
Proof.
  intros Hf. unfold ids_of. apply map_ext. intros a.
  apply lookup_id_alter. assumption.
Qed.

Lemma same_id_alter (h : list Item) (f : Item -> Item) (r a b : ref) :
  (forall i, id (f i) = id i) ->
  same_id (alter f r h) a b = same_id h a b.
Proof.
  intros Hf. unfold same_id.
  pose proof (lookup_id_alter h f r a Hf) as Ea.
  pose proof (lookup_id_alter h f r b Hf) as Eb.
  destruct (alter f r h !! a), (h !! a), (alter f r h !! b), (h !! b);
    simpl in *; try discriminate; try reflexivity.
  injection Ea as ->. injection Eb as ->. reflexivity.
Qed.

Lemma findIndex_alter (h : list Item) (f : Item -> Item) (r item : ref) (l : list ref) :
  (forall i, id (f i) = id i) ->
  findIndex (alter f r h) item l = findIndex h item l.
Proof.
  intros Hf. induction l as [|a l IH]; simpl; [reflexivity|].
  rewrite same_id_alter by assumption. rewrite IH. reflexivity.
Qed.

(** Allocation leaves the ids of the existing objects as they are. *)
Lemma ids_of_extend h h' (l : list ref) :
  Forall (fun r => r < length h) l ->
  ids_of (h ++ h') l = ids_of h l.
Proof.
  intros Hl. unfold ids_of. apply map_ext_in. intros a Ha.
  rewrite List.Forall_forall in Hl. specialize (Hl a Ha).
  rewrite lookup_app_l by assumption. reflexivity.
Qed.

(** Splicing out the entry found by id removes one occurrence of the id. *)
Lemma ids_of_delete (h : list Item) (item : ref) (l : list ref) (i : nat) :
  findIndex h item l = Some i ->
  Permutation (ids_of h l) ((id <$> h !! item) :: ids_of h (delete i l)).
Proof.
  intros H. destruct (findIndex_Some _ _ _ _ H) as (r & Hr & Hid).
  apply same_id_spec in Hid as [Hid _].
  unfold ids_of.
  etransitivity; [apply Permutation_map, (delete_Permutation l i r Hr)|].
  simpl. rewrite Hid. reflexivity.
Qed.

Lemma Forall_delete {A} (P : A -> Prop) (l : list A) i :
  Forall P l -> Forall P (delete i l).
Proof.
  intros H. rewrite List.Forall_forall in *. intros x Hx. apply H.
  apply list_elem_of_In. eapply list_elem_of_delete_inv. apply list_elem_of_In. exact Hx.
Qed.

Lemma length_delete_le {A} (l : list A) i : length (delete i l) <= length l.
Proof.
  revert i. induction l as [|a l IH]; intros [|i]; simpl; auto.
  specialize (IH i). lia.
Qed.
(** ** Preservation of the invariant *)

Ltac unfold_setters :=
  unfold set_cfg, set_queue, set_active, set_completed, set_failed,
    set_isPaused, set_isCancelled, set_heap, set_tasks, set_loop, set_now,
    set_enqueued, emit, update in *.

Lemma Sound_weaken q c v : Sound q c v -> Sound false c v.
Proof.
  intros [Hb Hh (d & Hp & _) _ Hc Hr]. split; auto; try discriminate.
  exists d. split; [assumption | discriminate].
Qed.

Lemma Inv_weaken q s : Inv q s -> Inv false s.
Proof.
  unfold Inv. intros H. eapply List.Forall_impl; [|exact H].
  intros v. apply Sound_weaken.
Qed.

Lemma Inv_now q s : Inv q s -> Sound q (cfg s) (view s).
Proof. unfold Inv, observed. intros H. exact (Forall_inv H). Qed.

(** A step that reports nothing but, possibly, its final view. *)
Lemma Inv_next q s s' :
  cfg s' = cfg s ->
  (forall v, In v (reported s') -> v = view s' \/ In v (reported s)) ->
  Inv q s ->
  Sound q (cfg s) (view s') ->
  Inv q s'.
Proof.
  unfold Inv, observed. intros Hc Hr H Hs.
  rewrite Hc. constructor; [assumption|].
  apply List.Forall_forall. intros v Hv.
  destruct (Hr v Hv) as [->|Hv']; [assumption|].
  apply Forall_inv_tail in H. rewrite List.Forall_forall in H. auto.
Qed.

Lemma emitProgress_facts s :
  cfg (emitProgress s) = cfg s /\ view (emitProgress s) = view s
  /\ (forall v, In v (reported (emitProgress s)) ->
                v = view s \/ In v (reported s)).
Proof.
  unfold emitProgress. destruct (onProgress (cfg s)); simpl; auto.
  repeat split; auto. unfold reported. simpl. intros v [<-|H]; auto.
Qed.

Lemma Inv_emitProgress q s : Inv q s -> Inv q (emitProgress s).
Proof.
  intros H. destruct (emitProgress_facts s) as (Hc & Hv & Hr).
  apply (Inv_next q s); auto.
  - rewrite Hv. exact Hr.
  - rewrite Hv. apply Inv_now. assumption.
Qed.

(** A step that leaves the view, the configuration and the reports as
    they are. *)
Lemma Inv_same q s s' :
  cfg s' = cfg s -> view s' = view s -> reported s' = reported s ->
  Inv q s -> Inv q s'.
Proof.
  intros Hc Hv Hr H. apply (Inv_next q s); auto.
  - rewrite Hr. auto.
  - rewrite Hv. apply Inv_now. assumption.
Qed.

Lemma Inv_emitComplete q s : Inv q s -> Inv q (emitComplete s).
Proof.
  unfold emitComplete. destruct (onComplete (cfg s)); auto.
Qed.

Lemma Forall_alter_item (P : Item -> Prop) (f : Item -> Item) r (h : list Item) :
  Forall P h -> (forall i, h !! r = Some i -> P i -> P (f i)) -> Forall P (alter f r h).
Proof.
  intros H Hf. apply Forall_lookup. intros i x Hx.
  rewrite Forall_lookup in H.
  destruct (decide (r = i)) as [->|Hne].
  - rewrite list_lookup_alter_eq in Hx.
    destruct (h !! i) as [y|] eqn:E; simpl in Hx; [|discriminate].
    injection Hx as <-. apply Hf; eauto.
  - rewrite list_lookup_alter_ne in Hx by assumption. eauto.
Qed.

Lemma Inv_processItem_begin q item s :
  Inv q (update item (with_status Downloading)
           (set_tasks (tasks s ++ [mkTask item Starting]) s)) ->
  Inv q (processItem_begin item s).
Proof.
  unfold processItem_begin.
  set (s1 := update item (with_status Downloading)
               (set_tasks (tasks s ++ [mkTask item Starting]) s)).
  intros H1. pose proof (Inv_emitProgress _ _ H1) as H2.
  destruct (heap (emitProgress s1) !! item); [|assumption].
  destruct (onFileStart (cfg (emitProgress s1)));
    (eapply Inv_same; [| | | exact H2]; reflexivity).
Qed.

(** Moving the head of the queue into [active] and beginning
    [processItem] for it (lines 88-90 and 112-123). *)
Lemma Inv_pull q s item rest :
  queue s = item :: rest ->
  length (active s) < maxConcurrent (cfg s) ->
  Inv q s ->
  Inv q (processItem_begin item
           (set_active (active s ++ [item]) (set_queue rest s))).
Proof.
  intros Hq Hlt H.
  pose proof (Inv_now _ _ H) as [Hb Hh (d & Hp & Hd) Hi Hc Hr].
  simpl in *. rewrite Hq in Hp.
  assert (Hitem : item < length (heap s)).
  { apply List.in_seq with (start := 0). eapply Permutation_in; [exact Hp|].
    left. reflexivity. }
  apply Inv_processItem_begin.
  apply (Inv_next q s); try reflexivity; [auto | assumption |].
  unfold_setters. split; simpl.
  - rewrite length_app. simpl. lia.
  - apply Forall_alter_item; [assumption|]. intros i _ Pi. exact Pi.
  - exists d. split; [|assumption]. rewrite length_alter, in_flight_app.
    rewrite <- Hp. unfold in_flight at 2. simpl. solve_Permutation.
  - intros Hqt. rewrite !ids_of_alter by reflexivity.
    rewrite in_flight_app, !ids_of_app. rewrite (Hi Hqt). reflexivity.
  - rewrite length_alter. assumption.
  - rewrite length_alter. apply Forall_app. split; [assumption|].
    constructor; [assumption | constructor].
Qed.

Lemma Inv_fill_slots q (l : list ref) s :
  queue s = l -> Inv q s -> Inv q (fill_slots l s).
Proof.
  revert s. induction l as [|item rest IH]; intros s Hq H; simpl; [assumption|].
  destruct (length (active s) <? maxConcurrent (cfg s)) eqn:E; [|assumption].
  apply Nat.ltb_lt in E. apply IH.
  - unfold processItem_begin, emitProgress. unfold_setters. simpl.
    repeat (match goal with |- context [if ?b then _ else _] => destruct b end;
            simpl; try reflexivity);
    match goal with |- context [match ?b with _ => _ end] => destruct b end;
    simpl; try reflexivity;
    repeat (match goal with |- context [if ?b then _ else _] => destruct b end;
            simpl; try reflexivity).
  - apply Inv_pull; assumption.
Qed.
Lemma ids_of_In (h : list Item) (l : list ref) (o : option string) :
  In o (ids_of h l) -> exists r, In r l /\ (id <$> h !! r) = o.
Proof.
  unfold ids_of. intros H. apply List.in_map_iff in H as (r & Hr & Hin).
  exists r. auto.
Qed.

(** The splice of [finally] and the end of the invocation remove the same
    id from both sides. *)
Lemma finally_ids (h : list Item) (act : list ref) (ts : list Task)
    k item p p' :
  ts !! k = Some (mkTask item p) ->
  settled p = false -> settled p' = true ->
  is_Some (h !! item) ->
  Permutation (ids_of h act) (ids_of h (in_flight ts)) ->
  Permutation
    (ids_of h match findIndex h item act with
              | Some i => delete i act
              | None => act
              end)
    (ids_of h (in_flight (<[k := mkTask item p']> ts))).
Proof.
  intros Hk Hp Hp' Hitem Hperm.
  pose proof (in_flight_insert_settle ts k item p p' Hk Hp Hp') as Hfl.
  assert (Hperm' : Permutation (ids_of h act)
            ((id <$> h !! item)
             :: ids_of h (in_flight (<[k := mkTask item p']> ts)))).
  { rewrite Hperm. unfold ids_of.
    etransitivity; [apply Permutation_map, Hfl|]. reflexivity. }
  destruct (findIndex h item act) as [i|] eqn:E.
  - apply ids_of_delete in E. rewrite E in Hperm'.
    apply Permutation_cons_inv in Hperm'. exact Hperm'.
  - exfalso. apply findIndex_None in E.
    assert (Hin : In (id <$> h !! item) (ids_of h act)).
    { eapply Permutation_in; [symmetry; exact Hperm'|]. left. reflexivity. }
    apply ids_of_In in Hin as (r & Hr & Hid).
    rewrite List.Forall_forall in E. specialize (E r Hr).
    assert (Ht : same_id h r item = true).
    { apply same_id_spec. split; [assumption|].
      destruct Hitem as [x Hx]. rewrite Hx in Hid.
      destruct (h !! r); [eauto | discriminate]. }
    congruence.
Qed.

(** The [finally] block after a [try] or [catch] part that moved the item
    into one of the queue, the completed list and the failed list. *)
Lemma Inv_finally q s0 s k item p (f : Item -> Item) :
  Inv q s0 ->
  cfg s = cfg s0 -> reported s = reported s0 -> tasks s = tasks s0 ->
  active s = active s0 -> enqueued s = enqueued s0 -> now s = now s0 ->
  tasks s0 !! k = Some (mkTask item p) -> settled p = false ->
  heap s = alter f item (heap s0) ->
  (forall i, id (f i) = id i) ->
  (forall i, heap s0 !! item = Some i ->
             retries (f i) <= retryAttempts (cfg s0)
             /\ downloadId (f i) = downloadId i) ->
  Permutation (queue s ++ completed s ++ failed s)
    (item :: queue s0 ++ completed s0 ++ failed s0) ->
  Inv q (processItem_finally k item s).
Proof.
  intros H Hcfg Hrep Hts Hact Henq Hnow Hk Hp Hheap Hid Hf Hperm.
  pose proof (Inv_now _ _ H) as [Hb Hh (d & Hpt & Hd) Hi Hc Hr].
  simpl in *.
  assert (Hitem : item < length (heap s0)).
  { apply List.in_seq with (start := 0). eapply Permutation_in; [exact Hpt|].
    apply in_or_app. right. apply in_or_app. left.
    eapply Permutation_in;
      [symmetry; apply (in_flight_insert_settle _ k item p Finished Hk Hp eq_refl)|].
    left. reflexivity. }
  unfold processItem_finally. apply Inv_emitProgress.
  set (act' := match findIndex (heap s) item (active s) with
               | Some i => delete i (active s)
               | None => active s
               end).
  set (p' := Delaying (now s + downloadDelay (cfg s))).
  assert (Hv : view (set_tasks (<[k := mkTask item p']>
                 (tasks match findIndex (heap s) item (active s) with
                        | Some index => set_active (delete index (active s)) s
                        | None => s
                        end))
                 match findIndex (heap s) item (active s) with
                 | Some index => set_active (delete index (active s)) s
                 | None => s
                 end)
             = mkView (heap s) (queue s) act' (completed s) (failed s)
                 (<[k := mkTask item p']> (tasks s)) (enqueued s)).
  { subst act'. destruct (findIndex (heap s) item (active s)); reflexivity. }
  apply (Inv_next q s0).
  - destruct (findIndex (heap s) item (active s)); simpl; assumption.
  - intros v Hv'. right. revert Hv'.
    destruct (findIndex (heap s) item (active s)); simpl;
      unfold reported in *; simpl; rewrite Hrep; auto.
  - assumption.
  - rewrite Hv. subst act'. rewrite Hheap, Hact, Hts.
    rewrite findIndex_alter by assumption.
    split; simpl.
    + destruct (findIndex (heap s0) item (active s0));
        [pose proof (length_delete_le (active s0) n)|]; lia.
    + apply Forall_alter_item; [assumption|].
      intros i Hi' [P1 P2]. destruct (Hf i Hi') as [F1 F2].
      split; [assumption | congruence].
    + exists d. split; [|assumption]. rewrite length_alter. rewrite <- Hpt.
      rewrite (in_flight_insert_settle _ k item p p' Hk Hp eq_refl).
      transitivity ((queue s ++ completed s ++ failed s)
                    ++ in_flight (<[k := mkTask item p']> (tasks s0)) ++ d);
        [solve_Permutation|].
      rewrite Hperm. solve_Permutation.
    + intros Hq. rewrite !ids_of_alter by assumption.
      apply (finally_ids _ _ _ k item p p'); auto.
      apply lookup_lt_is_Some. assumption.
    + rewrite length_alter. congruence.
    + rewrite length_alter.
      destruct (findIndex (heap s0) item (active s0));
        [apply Forall_delete|]; assumption.
Qed.
Lemma in_flight_lookup (ts : list Task) k item p :
  ts !! k = Some (mkTask item p) -> settled p = false ->
  In item (in_flight ts).
Proof.
  intros Hk Hp. eapply Permutation_in;
    [symmetry; apply (in_flight_insert_settle _ k item p Finished Hk Hp eq_refl)|].
  left. reflexivity.
Qed.

Lemma in_flight_valid q s item :
  Inv q s -> In item (in_flight (tasks s)) -> item < length (heap s).
Proof.
  intros H Hin. pose proof (Inv_now _ _ H) as [_ _ (d & Hpt & _) _ _ _].
  simpl in *. apply List.in_seq with (start := 0).
  eapply Permutation_in; [exact Hpt|].
  apply in_or_app. right. apply in_or_app. left. assumption.
Qed.

(** Lines 129-131 and the [finally] block. *)
Lemma Inv_success q s k item p :
  tasks s !! k = Some (mkTask item p) -> settled p = false ->
  Inv q s -> Inv q (processItem_success k item s).
Proof.
  intros Hk Hp H. unfold processItem_success.
  apply (Inv_finally q s _ k item p (with_status Completed)); auto.
  - intros i Hi. pose proof (Inv_now _ _ H) as [_ Hh _ _ _ _]. simpl in Hh.
    rewrite Forall_lookup in Hh. destruct (Hh _ _ Hi). simpl. auto.
  - simpl. solve_Permutation.
Qed.

(** The [catch] and [finally] blocks. *)
Lemma Inv_failure q s k item p msg :
  tasks s !! k = Some (mkTask item p) -> settled p = false ->
  Inv q s -> Inv q (processItem_failure k item msg s).
Proof.
  intros Hk Hp H. unfold processItem_failure, processItem_catch.
  pose proof (in_flight_valid _ _ _ H (in_flight_lookup _ _ _ _ Hk Hp)) as Hv.
  apply lookup_lt_is_Some in Hv as [it Hit]. rewrite Hit.
  pose proof (Inv_now _ _ H) as [_ Hh _ _ _ _]. simpl in Hh.
  rewrite Forall_lookup in Hh. destruct (Hh _ _ Hit) as [Hret Hdl].
  destruct (retries it <? retryAttempts (cfg s)) eqn:E.
  - apply Nat.ltb_lt in E.
    apply (Inv_finally q s _ k item p
             (fun i => with_status Queued (with_retries (S (retries i)) i)));
      auto.
    intros i Hi. rewrite Hit in Hi. injection Hi as <-. simpl. split; [lia|auto].
  - assert (Hgoal : forall s1,
              cfg s1 = cfg s -> reported s1 = reported s ->
              tasks s1 = tasks s -> active s1 = active s ->
              enqueued s1 = enqueued s -> now s1 = now s ->
              heap s1 = alter (fun i => with_error msg (with_status Failed i))
                          item (heap s) ->
              queue s1 = queue s -> completed s1 = completed s ->
              failed s1 = failed s ++ [item] ->
              Inv q (processItem_finally k item s1)).
    { intros s1 ? ? ? ? ? ? ? Hq1 Hc1 Hf1.
      apply (Inv_finally q s _ k item p
               (fun i => with_error msg (with_status Failed i))); auto.
      - intros i Hi. rewrite Hit in Hi. injection Hi as <-. simpl. auto.
      - rewrite Hq1, Hc1, Hf1. solve_Permutation. }
    match goal with |- context [if ?b then _ else _] => destruct b end;
      apply Hgoal; reflexivity.
Qed.

Lemma abort_active_frame s :
  cfg (abort_active s) = cfg s /\ view (abort_active s) = view s
  /\ reported (abort_active s) = reported s
  /\ isPaused (abort_active s) = isPaused s
  /\ isCancelled (abort_active s) = isCancelled s
  /\ loop (abort_active s) = loop s /\ now (abort_active s) = now s.
Proof.
  unfold abort_active. generalize (active s) as l. intros l. revert s.
  induction l as [|a l IH]; intros s; simpl; [repeat split|].
  match goal with |- context [fold_left _ _ ?x] => destruct (IH x) as (A & B & C & D & E & F & G) end.
  rewrite A, B, C, D, E, F, G.
  destruct (heap s !! a) as [it|]; [|repeat split].
  destruct (downloadId it) as [[|n]|]; repeat split.
Qed.

(** [cancel] keeps the invariant of a run that is no longer quiet. *)
Lemma Inv_cancel q s : Inv q s -> Inv false (cancel s).
Proof.
  intros H. apply Inv_weaken in H.
  pose proof (Inv_now _ _ H) as [Hb Hh (d & Hpt & _) _ Hc Hr]. simpl in *.
  destruct (abort_active_frame (set_isPaused false (set_isCancelled true s)))
    as (A & B & C & _).
  unfold cancel. apply (Inv_next false s).
  - simpl. rewrite A. reflexivity.
  - intros v Hv. right. unfold reported in *. simpl in *. rewrite C in Hv.
    exact Hv.
  - assumption.
  - unfold view in *. simpl.
    injection B as B1 B2 B3 B4 B5 B6 B7. rewrite B1, B4, B5, B6, B7.
    split; simpl; auto; try discriminate.
    + lia.
    + exists (queue s ++ d). split; [|discriminate].
      rewrite <- Hpt. solve_Permutation.
Qed.

Lemma normalize_sound c clock index item :
  retries (normalize clock index item) <= retryAttempts c
  /\ downloadId (normalize clock index item) = None.
Proof. simpl. split; [lia | reflexivity]. Qed.

(** [addToQueue], lines 49-63. *)
Lemma Inv_addToQueue q s items : Inv q s -> Inv q (fst (addToQueue items s)).
Proof.
  intros H. unfold addToQueue. simpl. apply Inv_emitProgress.
  pose proof (Inv_now _ _ H) as [Hb Hh (d & Hpt & Hd) Hi Hc Hr]. simpl in *.
  assert (Hfl : Forall (fun r => r < length (heap s)) (in_flight (tasks s))).
  { apply List.Forall_forall. intros r Hin. eapply in_flight_valid; eauto. }
  apply (Inv_next q s); try reflexivity; [auto | assumption |].
  split; simpl.
  - assumption.
  - apply Forall_app. split; [assumption|].
    apply Forall_lookup. intros i x Hx. rewrite list_lookup_imap in Hx.
    destruct (items !! i); simpl in Hx; [|discriminate].
    injection Hx as <-. apply normalize_sound.
  - exists d. split; [|assumption].
    rewrite length_app, length_imap, seq_app. simpl.
    rewrite <- Hpt. solve_Permutation.
  - intros Hq. rewrite !ids_of_extend by assumption. auto.
  - rewrite length_app, length_imap. lia.
  - eapply List.Forall_impl; [|exact Hr]. simpl. intros r Hlt.
    rewrite length_app. lia.
Qed.

Lemma Inv_set_task q s k item p p' :
  tasks s !! k = Some (mkTask item p) -> settled p = settled p' ->
  Inv q s -> Inv q (set_tasks (<[k := mkTask item p']> (tasks s)) s).
Proof.
  intros Hk Hp H.
  pose proof (Inv_now _ _ H) as [Hb Hh (d & Hpt & Hd) Hi Hc Hr]. simpl in *.
  apply (Inv_next q s); try reflexivity; [auto | assumption |].
  split; simpl; auto.
  - exists d. rewrite (in_flight_insert_same _ _ _ _ _ Hk Hp). auto.
  - rewrite (in_flight_insert_same _ _ _ _ _ Hk Hp). auto.
Qed.

Lemma Inv_after_loop q s : Inv q s -> Inv q (after_loop s).
Proof.
  intros H. unfold after_loop.
  destruct (negb (is_nil (active s)) && negb (isCancelled s)).
  - eapply Inv_same; [| | | exact H]; reflexivity.
  - destruct (isCancelled s).
    + eapply Inv_same; [| | | exact H]; reflexivity.
    + eapply Inv_same; [| | | exact (Inv_emitComplete _ _ H)]; reflexivity.
Qed.

Lemma Inv_pause_gate q s : Inv q s -> Inv q (pause_gate s).
Proof.
  intros H. unfold pause_gate.
  destruct (isPaused s && negb (isCancelled s)).
  - eapply Inv_same; [| | | exact H]; reflexivity.
  - destruct (isCancelled s); [apply Inv_after_loop; assumption|].
    eapply Inv_same;
      [| | | exact (Inv_fill_slots q (queue s) s eq_refl H)]; reflexivity.
Qed.

Lemma Inv_loop_top q s : Inv q s -> Inv q (loop_top s).
Proof.
  intros H. unfold loop_top.
  destruct (negb (isCancelled s)
            && (negb (is_nil (queue s)) || negb (is_nil (active s))));
    [apply Inv_pause_gate | apply Inv_after_loop]; assumption.
Qed.

Lemma Inv_start q s : Inv q s -> Inv q (start s).
Proof.
  intros H. unfold start.
  destruct (is_nil (queue s) && is_nil (active s)).
  - apply Inv_emitComplete. assumption.
  - apply Inv_loop_top. eapply Inv_same; [| | | exact H]; reflexivity.
Qed.

(** Every step keeps the invariant; a call of [cancel] ends the quiet part
    of the run. *)
Lemma Inv_step q e s s' :
  step e s = Some s' -> Inv q s -> Inv (q && negb (is_cancel e)) s'.
Proof.
  intros Hstep H.
  destruct e; simpl in Hstep; rewrite ?andb_true_r;
    try (injection Hstep as <-).
  - apply Inv_addToQueue. assumption.
  - destruct (loop s); try discriminate. injection Hstep as <-.
    apply Inv_start. assumption.
  - eapply Inv_same; [| | | exact H]; reflexivity.
  - eapply Inv_same; [| | | exact H]; reflexivity.
  - rewrite andb_false_r. eapply Inv_cancel. exact H.
  - eapply Inv_same; [| | | exact H]; reflexivity.
  - destruct (loop s); try discriminate;
      match type of Hstep with (if ?b then _ else _) = _ => destruct b end;
      try discriminate; injection Hstep as <-.
    + apply Inv_pause_gate. assumption.
    + apply Inv_loop_top. assumption.
    + apply Inv_after_loop. assumption.
  - destruct (tasks s !! k) as [[item p]|] eqn:Hk; try discriminate.
    destruct p; try discriminate. injection Hstep as <-.
    unfold on_download_reply. destruct (downloadFile r) as [[|n]|msg].
    + eapply Inv_failure; eauto.
    + eapply Inv_set_task; eauto.
    + eapply Inv_failure; eauto.
  - destruct (tasks s !! k) as [[item p]|] eqn:Hk; try discriminate.
    destruct p; try discriminate. injection Hstep as <-.
    unfold on_search_reply. destruct (checkStatus r) as [[msg|]|].
    + eapply Inv_failure; eauto.
    + eapply Inv_success; eauto.
    + assumption.
  - destruct (tasks s !! k) as [[item p]|] eqn:Hk; try discriminate.
    destruct p; try discriminate.
    destruct (until <=? now s)%N; try discriminate. injection Hstep as <-.
    eapply Inv_set_task; eauto.
Qed.

Lemma Inv_run q es s s' :
  run es s = Some s' -> Inv q s -> Inv (q && quiet es) s'.
Proof.
  revert q s. induction es as [|e es IH]; intros q s Hrun H; simpl in *.
  - injection Hrun as <-. rewrite andb_true_r. assumption.
  - destruct (step e s) as [s1|] eqn:Hs; [|discriminate].
    rewrite andb_assoc. apply (IH _ s1 Hrun). eapply Inv_step; eauto.
Qed.

Lemma Inv_init options : Inv true (init options new_manager).
Proof.
  unfold Inv, observed. simpl. constructor; [|constructor].
  split; simpl; auto; try lia.
  exists []. split; [reflexivity | auto].
Qed.

(** The invariant holds in every reachable state. *)
Lemma Inv_reaches options es s :
  reaches options es s -> Inv (quiet es) s.
Proof.
  intros H. apply (Inv_run true es _ _ H). apply Inv_init.
Qed.
(** ** What every step extends *)

(** A change of the fields that [Extends] does not mention. *)
Lemma Extends_frame s s' :
  cfg s' = cfg s -> completed s' = completed s -> failed s' = failed s ->
  out s' = out s -> now s' = now s -> Extends s s'.
Proof.
  intros A B C D E. split; try assumption.
  - exists []. rewrite app_nil_r. assumption.
  - exists []. rewrite app_nil_r. assumption.
  - exists []. split; [assumption | constructor].
  - rewrite E. reflexivity.
Qed.

Lemma Extends_refl s : Extends s s.
Proof.
  apply Extends_frame; reflexivity.
Qed.

Lemma Extends_trans s1 s2 s3 : Extends s1 s2 -> Extends s2 s3 -> Extends s1 s3.
Proof.
  intros [A1 (c1 & B1) (f1 & C1) (o1 & D1 & E1) F1]
         [A2 (c2 & B2) (f2 & C2) (o2 & D2 & E2) F2].
  split.
  - congruence.
  - exists (c1 ++ c2). rewrite B2, B1, app_assoc. reflexivity.
  - exists (f1 ++ f2). rewrite C2, C1, app_assoc. reflexivity.
  - exists (o2 ++ o1). rewrite D2, D1, app_assoc. split; [reflexivity|].
    apply Forall_app. auto.
  - lia.
Qed.

Lemma ext_set_queue s0 s q : Extends s0 s -> Extends s0 (set_queue q s).
Proof. intros H. eapply Extends_trans; [exact H|]. apply Extends_frame; reflexivity. Qed.
Lemma ext_set_active s0 s a : Extends s0 s -> Extends s0 (set_active a s).
Proof. intros H. eapply Extends_trans; [exact H|]. apply Extends_frame; reflexivity. Qed.
Lemma ext_set_isPaused s0 s b : Extends s0 s -> Extends s0 (set_isPaused b s).
Proof. intros H. eapply Extends_trans; [exact H|]. apply Extends_frame; reflexivity. Qed.
Lemma ext_set_isCancelled s0 s b : Extends s0 s -> Extends s0 (set_isCancelled b s).
Proof. intros H. eapply Extends_trans; [exact H|]. apply Extends_frame; reflexivity. Qed.
Lemma ext_set_heap s0 s h : Extends s0 s -> Extends s0 (set_heap h s).
Proof. intros H. eapply Extends_trans; [exact H|]. apply Extends_frame; reflexivity. Qed.
Lemma ext_update s0 s r f : Extends s0 s -> Extends s0 (update r f s).
Proof. intros H. eapply Extends_trans; [exact H|]. apply Extends_frame; reflexivity. Qed.
Lemma ext_set_tasks s0 s t : Extends s0 s -> Extends s0 (set_tasks t s).
Proof. intros H. eapply Extends_trans; [exact H|]. apply Extends_frame; reflexivity. Qed.
Lemma ext_set_loop s0 s l : Extends s0 s -> Extends s0 (set_loop l s).
Proof. intros H. eapply Extends_trans; [exact H|]. apply Extends_frame; reflexivity. Qed.
Lemma ext_set_enqueued s0 s n : Extends s0 s -> Extends s0 (set_enqueued n s).
Proof. intros H. eapply Extends_trans; [exact H|]. apply Extends_frame; reflexivity. Qed.

Lemma ext_push_completed s0 s c :
  (exists l, c = completed s ++ l) ->
  Extends s0 s -> Extends s0 (set_completed c s).
Proof.
  intros [l ->] H. eapply Extends_trans; [exact H|].
  split; simpl; try reflexivity; eauto.
  - exists []. rewrite app_nil_r. reflexivity.
  - exists []. split; [reflexivity | constructor].
Qed.

Lemma ext_push_failed s0 s f :
  (exists l, f = failed s ++ l) ->
  Extends s0 s -> Extends s0 (set_failed f s).
Proof.
  intros [l ->] H. eapply Extends_trans; [exact H|].
  split; simpl; try reflexivity; eauto.
  - exists []. rewrite app_nil_r. reflexivity.
  - exists []. split; [reflexivity | constructor].
Qed.

Lemma ext_emit s0 s o : faithful o -> Extends s0 s -> Extends s0 (emit o s).
Proof.
  intros Ho H. eapply Extends_trans; [exact H|].
  split; simpl; try reflexivity.
  - exists []. rewrite app_nil_r. reflexivity.
  - exists []. rewrite app_nil_r. reflexivity.
  - exists [o]. split; [reflexivity | constructor; [assumption | constructor]].
Qed.

Lemma faithful_getProgress s : faithful (OutProgress (getProgress s) (view s)).
Proof. simpl. repeat split; reflexivity. Qed.

Lemma ext_emitProgress s0 s : Extends s0 s -> Extends s0 (emitProgress s).
Proof.
  intros H. unfold emitProgress. destruct (onProgress (cfg s)); [|assumption].
  apply ext_emit; [apply faithful_getProgress | assumption].
Qed.

Lemma ext_emitComplete s0 s : Extends s0 s -> Extends s0 (emitComplete s).
Proof.
  intros H. unfold emitComplete. destruct (onComplete (cfg s)); [|assumption].
  apply ext_emit; [exact I | assumption].
Qed.

Lemma ext_tick s0 s ms : Extends s0 s -> Extends s0 (set_now (now s + ms)%N s).
Proof.
  intros H. eapply Extends_trans; [exact H|].
  split; simpl; try reflexivity; try lia.
  - exists []. rewrite app_nil_r. reflexivity.
  - exists []. rewrite app_nil_r. reflexivity.
  - exists []. split; [reflexivity | constructor].
Qed.

Ltac ext_peel :=
  first
    [ assumption
    | apply Extends_refl
    | apply ext_set_queue | apply ext_set_active | apply ext_set_isPaused
    | apply ext_set_isCancelled | apply ext_update | apply ext_set_heap
    | apply ext_set_tasks | apply ext_set_loop | apply ext_set_enqueued
    | apply ext_push_completed; [eexists; reflexivity|]
    | apply ext_push_failed; [eexists; reflexivity|]
    | apply ext_emitProgress | apply ext_emitComplete | apply ext_tick
    | apply ext_emit; [exact I|]
    | match goal with
      | |- Extends _ (if ?b then _ else _) => destruct b
      | |- Extends _ (match ?x with _ => _ end) => destruct x
      end ].

Ltac ext_go := repeat ext_peel.

Lemma ext_processItem_begin s0 s item :
  Extends s0 s -> Extends s0 (processItem_begin item s).
Proof. intros H. unfold processItem_begin. ext_go. Qed.

Lemma ext_processItem_catch s0 s item msg :
  Extends s0 s -> Extends s0 (processItem_catch item msg s).
Proof. intros H. unfold processItem_catch. ext_go. Qed.

Lemma ext_processItem_finally s0 s k item :
  Extends s0 s -> Extends s0 (processItem_finally k item s).
Proof. intros H. unfold processItem_finally. ext_go. Qed.

Lemma ext_fill_slots s0 (l : list ref) s :
  Extends s0 s -> Extends s0 (fill_slots l s).
Proof.
  revert s. induction l as [|item rest IH]; intros s H; simpl; [assumption|].
  destruct (length (active s) <? maxConcurrent (cfg s)); [|assumption].
  apply IH, ext_processItem_begin. ext_go.
Qed.

Lemma ext_after_loop s0 s : Extends s0 s -> Extends s0 (after_loop s).
Proof. intros H. unfold after_loop. ext_go. Qed.

Lemma ext_pause_gate s0 s : Extends s0 s -> Extends s0 (pause_gate s).
Proof.
  intros H. unfold pause_gate. ext_go.
  - apply ext_after_loop. assumption.
  - apply ext_fill_slots. assumption.
Qed.

Lemma ext_loop_top s0 s : Extends s0 s -> Extends s0 (loop_top s).
Proof.
  intros H. unfold loop_top. ext_go;
    [apply ext_pause_gate | apply ext_after_loop]; assumption.
Qed.

Lemma ext_abort_active s0 s : Extends s0 s -> Extends s0 (abort_active s).
Proof.
  unfold abort_active. generalize (active s) as l. intros l. revert s.
  induction l as [|a l IH]; intros s H; simpl; [assumption|].
  apply IH. ext_go.
Qed.

Lemma ext_failure s0 s k item msg :
  Extends s0 s -> Extends s0 (processItem_failure k item msg s).
Proof.
  intros H. apply ext_processItem_finally, ext_processItem_catch. assumption.
Qed.

Lemma Extends_step e s s' : step e s = Some s' -> Extends s s'.
Proof.
  intros Hstep.
  destruct e; simpl in Hstep;
    repeat match type of Hstep with
           | match ?x with _ => _ end = Some _ =>
               destruct x; try discriminate
           end;
    injection Hstep as <-.
  - unfold addToQueue. simpl. ext_go.
  - unfold start. ext_go. apply ext_loop_top. ext_go.
  - unfold pause. ext_go.
  - unfold resume. ext_go.
  - unfold cancel. ext_go. apply ext_abort_active. ext_go.
  - ext_go.
  - apply ext_pause_gate, Extends_refl.
  - apply ext_loop_top, Extends_refl.
  - apply ext_after_loop, Extends_refl.
  - unfold on_download_reply.
    destruct (downloadFile r) as [[|n]|msg];
      [apply ext_failure | ext_go | apply ext_failure]; apply Extends_refl.
  - unfold on_search_reply.
    destruct (checkStatus r) as [[msg|]|];
      [apply ext_failure | apply ext_processItem_finally; ext_go | ];
      apply Extends_refl.
  - ext_go.
Qed.

Lemma Extends_run es s s' : run es s = Some s' -> Extends s s'.
Proof.
  revert s. induction es as [|e es IH]; intros s H; simpl in H.
  - injection H as <-. apply Extends_refl.
  - destruct (step e s) as [s1|] eqn:E; [|discriminate].
    eapply Extends_trans; [eapply Extends_step; exact E | auto].
Qed.

Lemma run_app es1 es2 s :
  run (es1 ++ es2) s =
  match run es1 s with Some s1 => run es2 s1 | None => None end.
Proof.
  revert s. induction es1 as [|e es1 IH]; intros s; simpl; [reflexivity|].
  destruct (step e s); [apply IH | reflexivity].
Qed.

Lemma quiet_app es1 es2 : quiet (es1 ++ es2) = quiet es1 && quiet es2.
Proof. unfold quiet. apply forallb_app. Qed.
(** ** The slot-filling loop *)

Lemma processItem_begin_frame item s :
  cfg (processItem_begin item s) = cfg s
  /\ queue (processItem_begin item s) = queue s
  /\ active (processItem_begin item s) = active s
  /\ completed (processItem_begin item s) = completed s
  /\ failed (processItem_begin item s) = failed s
  /\ isPaused (processItem_begin item s) = isPaused s
  /\ isCancelled (processItem_begin item s) = isCancelled s
  /\ tasks (processItem_begin item s) = tasks s ++ [mkTask item Starting]
  /\ heap (processItem_begin item s)
     = alter (with_status Downloading) item (heap s).
Proof.
  unfold processItem_begin, emitProgress. simpl.
  destruct (onProgress (cfg s)); simpl;
    destruct (alter (with_status Downloading) item (heap s) !! item); simpl;
    try destruct (onFileStart (cfg s)); simpl; repeat split.
Qed.

(** The loop moves the first [pulled s] items of the queue, in order, to
    the end of [active]. *)
Lemma fill_slots_spec (l : list ref) s :
  queue s = l ->
  cfg (fill_slots l s) = cfg s
  /\ queue (fill_slots l s) = skipn (pulled s) l
  /\ active (fill_slots l s) = active s ++ firstn (pulled s) l.
Proof.
  revert s. induction l as [|item rest IH]; intros s Hq; simpl.
  - unfold pulled. rewrite Hq. simpl. rewrite app_nil_r. auto.
  - destruct (length (active s) <? maxConcurrent (cfg s)) eqn:E.
    + apply Nat.ltb_lt in E.
      set (s1 := processItem_begin item
                   (set_active (active s ++ [item]) (set_queue rest s))).
      destruct (processItem_begin_frame item
                  (set_active (active s ++ [item]) (set_queue rest s)))
        as (A & B & C & _).
      fold s1 in A, B, C. simpl in A, B, C.
      destruct (IH s1 B) as (A1 & B1 & C1).
      assert (Hp : pulled s = S (pulled s1)).
      { unfold pulled. rewrite Hq, A, B, C, length_app. cbn [length]. lia. }
      rewrite Hp, A1, B1, C1, A, C. simpl. rewrite <- app_assoc. auto.
    + apply Nat.ltb_ge in E.
      assert (Hp : pulled s = 0) by (unfold pulled; lia).
      rewrite Hp. simpl. rewrite app_nil_r. auto.
Qed.

Lemma reported_In p v s : In (OutProgress p v) (out s) -> In v (reported s).
Proof.
  unfold reported. generalize (out s) as l.
  induction l as [|o l IH]; simpl; [auto|].
  intros [->|H]; [left; reflexivity|].
  destruct o; simpl; auto.
Qed.

Lemma cfg_init options s : cfg (init options s) =
  mkConfig (nat_or (opt_maxConcurrent options) 3)
    (N_or (opt_downloadDelay options) 200)
    (nat_or (opt_retryAttempts options) 3)
    (str_or (opt_basePath options) "Civitai")
    (opt_onProgress options) (opt_onComplete options)
    (opt_onError options) (opt_onFileStart options).
Proof. reflexivity. Qed.

Lemma reaches_cfg options es s :
  reaches options es s -> cfg s = cfg (init options new_manager).
Proof. intros H. apply Extends_run in H. apply H. Qed.

Lemma reaches_faithful options es s :
  reaches options es s -> Forall faithful (out s).
Proof.
  intros H. apply Extends_run in H. destruct H as [_ _ _ (l & Hl & Hf) _].
  simpl in Hl. rewrite app_nil_r in Hl. rewrite Hl. assumption.
Qed.

(** C6.  Bounded concurrency: in every state of every run, and at every
    progress report made so far, [active] holds at most [maxConcurrent]
    items, the limit being the one [init] configured; and the slot-filling
    loop moves the first [pulled s] queued items, the j-th of them at a
    moment when [active] holds fewer than [maxConcurrent] items. *)
Theorem bounded_concurrency options es s :
  reaches options es s ->
  (forall v, In v (observed s) ->
             length (v_active v) <= maxConcurrent (cfg s))
  /\ (forall p v, In (OutProgress p v) (out s) ->
                  p_downloading p <= maxConcurrent (cfg s))
  /\ maxConcurrent (cfg s) = nat_or (opt_maxConcurrent options) 3
  /\ queue (fill_slots (queue s) s) = skipn (pulled s) (queue s)
  /\ active (fill_slots (queue s) s)
     = active s ++ firstn (pulled s) (queue s)
  /\ (forall j, j < pulled s ->
                length (active s) + j < maxConcurrent (cfg s)).
Proof.
  intros H. pose proof (Inv_reaches _ _ _ H) as HI.
  assert (Hobs : forall v, In v (observed s) ->
                           length (v_active v) <= maxConcurrent (cfg s)).
  { intros v Hv. unfold Inv in HI. rewrite List.Forall_forall in HI.
    apply (sound_bound _ _ _ (HI v Hv)). }
  split; [exact Hobs|]. split.
  - intros p v Hin. pose proof (reaches_faithful _ _ _ H) as Hf.
    rewrite List.Forall_forall in Hf. destruct (Hf _ Hin) as (_ & -> & _).
    apply Hobs. right. eapply reported_In. exact Hin.
  - split; [rewrite (reaches_cfg _ _ _ H); reflexivity|].
    destruct (fill_slots_spec (queue s) s eq_refl) as (_ & A & B).
    repeat split; auto. unfold pulled. lia.
Qed.
(** ** Retries *)




Lemma Sound_NoDup q c v :
  Sound q c v ->
  NoDup (v_queue v ++ in_flight (v_tasks v) ++ v_completed v ++ v_failed v).
Proof.
  intros [_ _ (d & Hp & _) _ _ _].
  assert (H : List.NoDup (v_queue v ++ in_flight (v_tasks v) ++ v_completed v
                     ++ v_failed v ++ d)).
  { eapply Permutation_NoDup; [symmetry; exact Hp | apply List.seq_NoDup]. }
  apply NoDup_ListNoDup.
  rewrite !app_assoc in H. apply List.NoDup_app_remove_r in H.
  rewrite <- !app_assoc in H. exact H.
Qed.

(** ** Conservation *)





(** ** First in, first out, retries first *)

Lemma addToQueue_queue items s :
  queue (fst (addToQueue items s))
  = queue s ++ seq (length (heap s)) (length items)
  /\ heap (fst (addToQueue items s)) = heap s ++ imap (normalize (now s)) items
  /\ snd (addToQueue items s) = length items.
Proof.
  unfold addToQueue, emitProgress. simpl. rewrite length_imap.
  destruct (onProgress (cfg s)); simpl; auto.
Qed.

(** ** Worked runs *)

(** The scenario of the specification: with queued items A, B, C and one
    slot, A is pulled, fails and is put back in front of B and C; the next
    execution of the slot-filling loop pulls A. *)
Example retry_jumps_the_queue :
  match run_from one_slot retry_run with
  | Some s =>
      queue s = [0; 1; 2] /\ active s = []
      /\ (retries <$> heap s !! 0) = Some 1
      /\ match run [ETick 50; ELoopWake] s with
         | Some s' => active s' = [0] /\ queue s' = [1; 2]
         | None => False
         end
  | None => False
  end.
Proof. vm_compute. repeat split. Qed.



Lemma bounded_concurrency_witness :
  reaches default_options plain_run plain_state
  /\ length (active plain_state) <= 3.
Proof.
  assert (H : reaches default_options plain_run plain_state)
    by (vm_compute; reflexivity).
  split; [exact H|].
  destruct (bounded_concurrency default_options plain_run plain_state H)
    as [Hobs _].
  exact (Hobs (view plain_state) (or_introl eq_refl)).
Defined.



(** ** Cancellation *)

Lemma abort_active_silent s :
  Forall (fun it => downloadId it = None) (heap s) ->
  out (abort_active s) = out s.
Proof.
  unfold abort_active. generalize (active s) as l. intros l. revert s.
  induction l as [|a l IH]; intros s Hh; simpl; [reflexivity|].
  destruct (heap s !! a) as [it|] eqn:E; [|apply IH; assumption].
  rewrite Forall_lookup in Hh. rewrite (Hh _ _ E).
  apply IH. apply Forall_lookup. assumption.
Qed.

(** In every state of every run, [cancel] empties the queue and [active]
    and calls the platform's abort for no download: no item object ever
    carries a [downloadId]. *)
Lemma cancel_aborts_nothing options es s :
  reaches options es s ->
  queue (cancel s) = [] /\ active (cancel s) = []
  /\ isCancelled (cancel s) = true
  /\ out (cancel s) = out s.
Proof.
  intros H. pose proof (Inv_reaches _ _ _ H) as HI.
  pose proof (sound_heap _ _ _ (Inv_now _ _ HI)) as Hh. simpl in Hh.
  unfold cancel. simpl.
  destruct (abort_active_frame (set_isPaused false (set_isCancelled true s)))
    as (_ & _ & _ & _ & Hc & _).
  repeat split; [exact Hc|].
  rewrite abort_active_silent; [reflexivity|].
  simpl. eapply List.Forall_impl; [|exact Hh]. simpl. intros it [_ ?].
  assumption.
Qed.

(** C3.  The item is active and its platform download runs with handle 7
    when [cancel] is called: the queue and [active] are empty afterwards,
    but the platform's abort has not been called, with that handle or
    any other. *)
Theorem cancel_leaves_download_running :
  match run_from default_options started_run with
  | Some s =>
      active s = [0] /\ tasks s = [mkTask 0 (Waiting 7)]
      /\ queue (cancel s) = [] /\ active (cancel s) = []
      /\ out (cancel s) = out s
      /\ abort_calls (cancel s) = []
  | None => False
  end.
Proof. vm_compute. repeat split. Qed.

(** What a settlement does to the collections does not depend on the
    [isCancelled] flag: [processItem] never reads it. *)
Lemma settlement_ignores_cancellation k item b s :
  view (processItem_success k item (set_isCancelled b s))
  = view (processItem_success k item s)
  /\ forall msg,
       view (processItem_failure k item msg (set_isCancelled b s))
       = view (processItem_failure k item msg s).
Proof.
  split; [|intros msg];
    unfold processItem_success, processItem_failure, processItem_finally,
      processItem_catch, emitProgress; simpl.
  - destruct (findIndex (alter (with_status Completed) item (heap s)) item
                (active s)); simpl;
      destruct (onProgress (cfg s)); reflexivity.
  - destruct (heap s !! item) as [it|]; simpl.
    + destruct (retries it <? retryAttempts (cfg s)); simpl;
        try destruct (onError (cfg s)); simpl;
        match goal with
        | |- context [findIndex ?h ?i ?a] => destruct (findIndex h i a)
        end; simpl; destruct (onProgress (cfg s)); reflexivity.
    + destruct (findIndex (heap s) item (active s)); simpl;
        destruct (onProgress (cfg s)); reflexivity.
Qed.

(** C4.  Settlements after [cancel] are not ignored.  When the abandoned
    download completes, the item is appended to [completed]; when it is
    interrupted, the item is put back in the queue; and when it fails
    with the retries used up, the item is appended to [failed] and
    [onError] is called. *)
Theorem settlement_after_cancel_is_recorded :
  match run_from default_options (started_run ++ [ECancel]) with
  | Some s =>
      isCancelled s = true /\ queue s = [] /\ active s = []
      /\ completed s = []
      /\ match step (ESearchReply 0 StateComplete) s with
         | Some s' => completed s' = [0] /\ isCancelled s' = true
         | None => False
         end
      /\ match step (ESearchReply 0 (StateInterrupted None)) s with
         | Some s' => queue s' = [0] /\ isCancelled s' = true
         | None => False
         end
  | None => False
  end
  /\ match run_from one_retry last_try_run with
     | Some s =>
         isCancelled s = true /\ failed s = [] /\ error_calls s = []
         /\ match step (EDownloadReply 1 (failed_reply "aborted")) s with
            | Some s' =>
                failed s' = [0]
                /\ error_calls s' = [OutError 0 "aborted"]
            | None => False
            end
     | None => False
     end.
Proof. vm_compute. repeat split. Qed.

(** ** Spacing *)

(** The sleep that ends [processItem] changes no collection and no
    entry of the queue: when it is over, only the invocation's own state
    moves on. *)
Lemma delay_frees_nothing k s s' :
  step (EDelayOver k) s = Some s' ->
  queue s' = queue s /\ active s' = active s /\ completed s' = completed s
  /\ failed s' = failed s /\ pulled s' = pulled s.
Proof.
  simpl. destruct (tasks s !! k) as [[item [| |t|]]|]; try discriminate.
  destruct (t <=? now s)%N; [|discriminate].
  intros E. injection E as <-. repeat split.
Qed.

(** C8.  One slot and a delay of 200 ms: A completes at 10 ms and its
    invocation sleeps until 210 ms, yet at 50 ms the loop of [start]
    moves B into [active] and requests its download. *)
Theorem slot_is_reused_during_the_delay :
  match run_from one_slot spacing_run with
  | Some s =>
      maxConcurrent (cfg s) = 1 /\ downloadDelay (cfg s) = 200%N
      /\ now s = 50%N
      /\ tasks s = [mkTask 0 (Delaying 210); mkTask 1 Starting]
      /\ completed s = [0] /\ active s = [1] /\ queue s = []
      /\ hd_error (out s)
         = Some (OutDownload "https://cdn.example/b.jpg" "Civitai/b.jpg")
  | None => False
  end.
Proof. vm_compute. repeat split. Qed.

(** ** Configuration *)

(** C10.  [init] replaces a zero or missing [maxConcurrent],
    [downloadDelay] or [retryAttempts] by 3, 200 and 3, keeps any other
    value, so that none of the three is ever zero after [init]; and it
    empties the four collections and clears both flags. *)
Theorem init_coalesces_falsy :
  (forall d r b c1 c2 c3 c4 s,
      maxConcurrent (cfg (init (mkOptions (Some 0) d r b c1 c2 c3 c4) s)) = 3
      /\ maxConcurrent (cfg (init (mkOptions None d r b c1 c2 c3 c4) s)) = 3)
  /\ (forall m r b c1 c2 c3 c4 s,
      downloadDelay (cfg (init (mkOptions m (Some 0%N) r b c1 c2 c3 c4) s))
      = 200%N
      /\ downloadDelay (cfg (init (mkOptions m None r b c1 c2 c3 c4) s))
         = 200%N)
  /\ (forall m d b c1 c2 c3 c4 s,
      retryAttempts (cfg (init (mkOptions m d (Some 0) b c1 c2 c3 c4) s)) = 3
      /\ retryAttempts (cfg (init (mkOptions m d None b c1 c2 c3 c4) s)) = 3)
  /\ (forall n p m d r b c1 c2 c3 c4 s,
      maxConcurrent (cfg (init (mkOptions (Some (S n)) d r b c1 c2 c3 c4) s))
      = S n
      /\ downloadDelay
           (cfg (init (mkOptions m (Some (Npos p)) r b c1 c2 c3 c4) s))
         = Npos p
      /\ retryAttempts
           (cfg (init (mkOptions m d (Some (S n)) b c1 c2 c3 c4) s)) = S n)
  /\ (forall options s,
      1 <= maxConcurrent (cfg (init options s))
      /\ (1 <= downloadDelay (cfg (init options s)))%N
      /\ 1 <= retryAttempts (cfg (init options s))
      /\ queue (init options s) = [] /\ active (init options s) = []
      /\ completed (init options s) = [] /\ failed (init options s) = []
      /\ isPaused (init options s) = false
      /\ isCancelled (init options s) = false).
Proof.
  repeat split; simpl.
  - destruct (opt_maxConcurrent options) as [[|n]|]; simpl; lia.
  - destruct (opt_downloadDelay options) as [[|p]|]; simpl; lia.
  - destruct (opt_retryAttempts options) as [[|n]|]; simpl; lia.
Qed.
(** ** Identifiers *)

Lemma str_inj (a b : chars) : str a = str b -> a = b.
Proof.
  intros H. apply (f_equal list_ascii_of_string) in H.
  unfold str in H. rewrite !list_ascii_of_string_of_list_ascii in H. exact H.
Qed.

Lemma lit_inj (a b : string) : lit a = lit b -> a = b.
Proof.
  intros H. apply (f_equal string_of_list_ascii) in H.
  unfold lit in H. rewrite !string_of_list_ascii_of_string in H. exact H.
Qed.

Lemma dec_inj (m n : N) : dec m = dec n -> m = n.
Proof.
  intros H. apply lit_inj in H.
  apply (f_equal NilEmpty.uint_of_string) in H. rewrite !NilEmpty.usu in H.
  injection H as H. apply (f_equal N.of_uint) in H.
  rewrite !DecimalN.Unsigned.of_to in H. exact H.
Qed.

(** A decimal rendering holds digits only, hence no underscore. *)
Lemma dec_no_underscore (n : N) : ~ In "_"%char (dec n).
Proof.
  unfold dec. generalize (N.to_uint n) as d.
  induction d as [|d IH|d IH|d IH|d IH|d IH|d IH|d IH|d IH|d IH|d IH];
    simpl; [tauto|..]; intros [H|H]; try discriminate; auto.
Qed.

(** Two texts cut at their first underscore agree part by part. *)
Lemma cut_at_underscore (a a' b b' : chars) :
  ~ In "_"%char a -> ~ In "_"%char a' ->
  a ++ "_"%char :: b = a' ++ "_"%char :: b' -> a = a' /\ b = b'.
Proof.
  revert a'. induction a as [|c a IH]; intros [|c' a'] Ha Ha' E; simpl in *.
  - injection E as ->. auto.
  - injection E as <- _. exfalso. apply Ha'. left. reflexivity.
  - injection E as -> _. exfalso. apply Ha. left. reflexivity.
  - injection E as -> E. destruct (IH a') as [-> ->]; auto.
Qed.

(** The generated identifier determines the clock reading and the index. *)
Lemma generated_id_inj t i t' i' :
  generated_id t i = generated_id t' i' -> t = t' /\ i = i'.
Proof.
  unfold generated_id. intros H. apply str_inj in H.
  apply app_inv_head in H.
  apply cut_at_underscore in H as [Ht Hi]; try apply dec_no_underscore.
  apply dec_inj in Ht, Hi. apply Nat2N.inj in Hi. auto.
Qed.

Lemma normalize_id_generated clock index item :
  truthy (raw_id item) = None ->
  id (normalize clock index item) = generated_id clock index.
Proof. simpl. unfold str_or. intros ->. reflexivity. Qed.

Lemma normalize_id_supplied clock index item x :
  truthy (raw_id item) = Some x ->
  id (normalize clock index item) = x /\ raw_id item = Some x.
Proof.
  simpl. unfold str_or. intros H. rewrite H. split; [reflexivity|].
  unfold truthy in H. destruct (raw_id item) as [y|]; [|discriminate].
  destruct (String.eqb y EmptyString); [discriminate|]. exact H.
Qed.

(** C9, as the code has it.  A generated id determines the clock reading
    and the index it was built from, so the ids generated in one call of
    [addToQueue] are pairwise distinct, whatever the clock does during
    the call, and ids generated at different clock readings are distinct;
    an id that the caller supplies is kept as it is. *)
Theorem generated_ids_distinct :
  (forall t i t' i',
      generated_id t i = generated_id t' i' -> t = t' /\ i = i')
  /\ (forall (clock : nat -> N) (items : list RawItem),
         Forall (fun item => truthy (raw_id item) = None) items ->
         NoDup (map id (imap (fun i => normalize (clock i) i) items)))
  /\ (forall s (items : list RawItem),
         Forall (fun item => truthy (raw_id item) = None) items ->
         NoDup (map id (skipn (length (heap s))
                          (heap (fst (addToQueue items s))))))
  /\ (forall t i item x,
         truthy (raw_id item) = Some x ->
         id (normalize t i item) = x /\ raw_id item = Some x).
Proof.
  assert (Hcall : forall (clock : nat -> N) (items : list RawItem),
            Forall (fun item => truthy (raw_id item) = None) items ->
            NoDup (map id (imap (fun i => normalize (clock i) i) items))).
  { intros clock items Hno. apply NoDup_alt. intros i j x Hi Hj.
    change (map id ?l) with (id <$> l) in Hi, Hj.
    rewrite list_lookup_fmap, list_lookup_imap in Hi, Hj.
    destruct (items !! i) as [a|] eqn:Ea; [|discriminate].
    destruct (items !! j) as [b|] eqn:Eb; [|discriminate].
    simpl in Hi, Hj. rewrite Forall_lookup in Hno.
    injection Hi as Hi. injection Hj as Hj.
    pose proof (normalize_id_generated (clock i) i a (Hno _ _ Ea)) as Ha.
    pose proof (normalize_id_generated (clock j) j b (Hno _ _ Eb)) as Hb.
    simpl in Ha, Hb. rewrite Ha in Hi. rewrite Hb in Hj.
    apply (generated_id_inj (clock i) i (clock j) j). congruence. }
  split; [exact generated_id_inj|]. split; [exact Hcall|]. split.
  - intros s items Hno. destruct (addToQueue_queue items s) as (_ & -> & _).
    rewrite drop_app_length. apply (Hcall (fun _ => now s)). exact Hno.
  - intros t i item x. apply normalize_id_supplied.
Qed.

Lemma generated_ids_distinct_witness :
  Forall (fun item => truthy (raw_id item) = None) [item_A; item_B; item_C]
  /\ NoDup (map id (imap (fun i => normalize 0 i) [item_A; item_B; item_C])).
Proof.
  assert (H : Forall (fun item => truthy (raw_id item) = None)
                [item_A; item_B; item_C])
    by (repeat constructor).
  split; [exact H|].
  destruct generated_ids_distinct as (_ & Hcall & _).
  exact (Hcall (fun _ => 0%N) [item_A; item_B; item_C] H).
Defined.

(** Ids that collide: two items supplied with the same id keep it, and two
    calls of [addToQueue] at the same clock reading generate the same id
    for their first items. *)
Lemma ids_collide :
  match run_from default_options [EAddToQueue [twin_1; twin_2]] with
  | Some s =>
      map id (heap s) = ["a"; "a"]%string /\ ~ NoDup (map id (heap s))
  | None => False
  end
  /\ match run_from default_options
             [EAddToQueue [item_A]; EAddToQueue [item_B]] with
     | Some s =>
         map id (heap s) = ["item_0_0"; "item_0_0"]%string
         /\ ~ NoDup (map id (heap s))
         /\ map url (heap s)
            = ["https://cdn.example/a.jpg"; "https://cdn.example/b.jpg"]%string
     | None => False
     end.
Proof.
  vm_compute.
  repeat split; intros H; apply NoDup_cons in H as [H _]; apply H; left.
Qed.
(** ** File names *)

Lemma lower_dot (c : ascii) : lower c = "."%char -> c = "."%char.
Proof.
  destruct c as [b0 b1 b2 b3 b4 b5 b6 b7].
  destruct b0, b1, b2, b3, b4, b5, b6, b7; vm_compute; intros H;
    first [reflexivity | discriminate H].
Qed.

Lemma includes_In (c : ascii) (s : chars) : includes c s = true <-> In c s.
Proof.
  unfold includes. rewrite existsb_exists. split.
  - intros (x & Hx & E). apply Ascii.eqb_eq in E. subst x. exact Hx.
  - intros H. exists c. split; [exact H | apply Ascii.eqb_refl].
Qed.

Lemma chars_eqb_eq (a b : chars) : chars_eqb a b = true -> a = b.
Proof.
  unfold chars_eqb. destruct (List.list_eq_dec ascii_dec a b);
    [auto | discriminate].
Qed.

(** A name that ends with a dot and letters contains a dot. *)
Lemma ends_with_ci_dot (e s : chars) :
  ends_with_ci ("."%char :: e) s = true -> includes "." s = true.
Proof.
  unfold ends_with_ci. intros H. apply andb_true_iff in H as [_ H].
  apply chars_eqb_eq in H. apply includes_In.
  rewrite <- (firstn_skipn (length s - length ("."%char :: e)) s).
  apply in_or_app. right.
  destruct (skipn (length s - length ("."%char :: e)) s) as [|c rest];
    [discriminate|].
  simpl in H. injection H as H _. left. apply lower_dot. exact H.
Qed.

Lemma has_media_ext_dot (s : chars) :
  has_media_ext s = true -> includes "." s = true.
Proof.
  unfold has_media_ext. intros H. apply existsb_exists in H as (e & _ & H).
  eapply ends_with_ci_dot. exact H.
Qed.

(** Lines 253-259 add an extension exactly when the name has no dot. *)
Lemma with_extension_eq (url seg : chars) :
  with_extension url seg
  = if includes "." seg then seg else seg ++ default_ext url.
Proof.
  unfold with_extension. destruct (has_media_ext seg) eqn:E.
  - rewrite (has_media_ext_dot _ E). reflexivity.
  - reflexivity.
Qed.

Lemma sanitize_length (s : chars) : length (sanitize s) = length s.
Proof. unfold sanitize. apply length_map. Qed.

Lemma sanitize_lookup (s : chars) i c :
  s !! i = Some c ->
  sanitize s !! i = Some (if disallowed c then "_"%char else c).
Proof.
  unfold sanitize. revert i.
  induction s as [|a s IH]; intros [|i] H; simpl in *; try discriminate.
  - injection H as ->. reflexivity.
  - apply IH. exact H.
Qed.

Lemma sanitize_clean (s : chars) :
  Forall (fun c => disallowed c = false) (sanitize s).
Proof.
  unfold sanitize. induction s as [|c s IH]; simpl; constructor; auto.
  destruct (disallowed c) eqn:E; [reflexivity | exact E].
Qed.

(** The match of [/\.[^.]+$/] is a suffix that starts with a dot and goes
    on with at least one character and no further dot. *)
Lemma last_ext_spec (s e : chars) :
  last_ext s = Some e ->
  exists pre t, s = pre ++ e /\ e = "."%char :: t /\ t <> []
                /\ includes "." t = false.
Proof.
  revert e. induction s as [|c s IH]; intros e H; simpl in H; [discriminate|].
  destruct (last_ext s) as [e'|] eqn:E.
  - injection H as <-. destruct (IH e' eq_refl) as (pre & t & -> & Ht).
    exists (c :: pre), t. auto.
  - destruct (Ascii.eqb c "." && nonempty s && negb (includes "." s)) eqn:C;
      [|discriminate].
    injection H as <-.
    apply andb_true_iff in C as [C C3]. apply andb_true_iff in C as [C1 C2].
    apply Ascii.eqb_eq in C1. subst c. apply negb_true_iff in C3.
    exists [], s. repeat split; auto.
    destruct s; [discriminate | congruence].
Qed.

(** Conversely, such a suffix is what [last_ext] finds. *)
Lemma last_ext_complete (pre t : chars) :
  t <> [] -> includes "." t = false ->
  last_ext (pre ++ "."%char :: t) = Some ("."%char :: t).
Proof.
  intros Ht Hdot.
  assert (Hnone : forall u, includes "." u = false -> last_ext u = None).
  { induction u as [|c u IHu]; [reflexivity|]. intros H.
    change (includes "." (c :: u))
      with (Ascii.eqb "." c || includes "." u) in H.
    apply orb_false_iff in H as [Hc Hu].
    cbn [last_ext]. rewrite (IHu Hu), Ascii.eqb_sym, Hc. reflexivity. }
  induction pre as [|c pre IH].
  - cbn [app last_ext]. rewrite (Hnone t Hdot), Hdot.
    destruct t; [congruence | reflexivity].
  - cbn [app last_ext]. rewrite IH. reflexivity.
Qed.

Lemma default_ext_clean (url : chars) :
  Forall (fun c => disallowed c = false) (default_ext url)
  /\ length (default_ext url) = 4.
Proof.
  unfold default_ext. destruct (isVideo url);
    (split; [repeat constructor | reflexivity]).
Qed.

Lemma slice0_clean (P : ascii -> Prop) (s : chars) (z : Z) :
  Forall P s -> Forall P (slice0 s z).
Proof.
  intros H. unfold slice0. destruct (z <? 0)%Z; apply Forall_take; exact H.
Qed.

Lemma limit_length_clean (url name : chars) :
  Forall (fun c => disallowed c = false) name ->
  Forall (fun c => disallowed c = false) (limit_length url name).
Proof.
  intros H. unfold limit_length. destruct (200 <? length name); [|exact H].
  apply Forall_app. split; [apply slice0_clean; exact H|].
  destruct (last_ext name) as [e|] eqn:E.
  - apply last_ext_spec in E as (pre & t & Hs & _). rewrite Hs in H.
    apply Forall_app in H. tauto.
  - apply default_ext_clean.
Qed.

Lemma limit_length_short (url name : chars) :
  length name <= 200 -> limit_length url name = name.
Proof.
  intros H. unfold limit_length.
  destruct (200 <? length name) eqn:E; [|reflexivity].
  apply Nat.ltb_lt in E. lia.
Qed.

Lemma limit_length_long (url name ext : chars) :
  200 < length name ->
  ext = match last_ext name with Some e => e | None => default_ext url end ->
  length ext <= 200 ->
  limit_length url name = firstn (200 - length ext) name ++ ext
  /\ length (limit_length url name) = 200.
Proof.
  intros Hlong Hext Hle. unfold limit_length.
  apply Nat.ltb_lt in Hlong as Hb. rewrite Hb. rewrite <- Hext.
  unfold slice0.
  assert (Hz : (200 - Z.of_nat (length ext) <? 0)%Z = false)
    by (apply Z.ltb_ge; lia).
  rewrite Hz.
  replace (Z.to_nat (200 - Z.of_nat (length ext))) with (200 - length ext)
    by lia.
  split; [reflexivity|].
  rewrite length_app, length_take. lia.
Qed.

(** C7, as the code has it.  Without a parsed URL or without a non-empty
    path segment the name is [media_<clock>.jpg].  Otherwise the last
    path segment, extended by [.mp4] or [.jpg] when it holds no dot, has
    each disallowed character replaced by an underscore; the result holds
    no disallowed character; it is that name when at most 200 characters
    long, and otherwise its first characters followed by its extension,
    200 characters in all when the extension has at most 200. *)
Theorem filename_derivation :
  (forall now url, extractFilename_from None now url = fallback_name now)
  /\ (forall p now url,
         last_segment p = None ->
         extractFilename_from (Some p) now url = fallback_name now)
  /\ (forall p now url seg,
         last_segment p = Some seg ->
         let named := if includes "." seg then seg
                      else seg ++ (if isVideo url then lit ".mp4"
                                   else lit ".jpg") in
         let clean := sanitize named in
         let r := extractFilename_from (Some p) now url in
         length clean = length named
         /\ (forall i c, named !! i = Some c ->
               clean !! i = Some (if disallowed c then "_"%char else c))
         /\ Forall (fun c => disallowed c = false) r
         /\ (length clean <= 200 -> r = clean)
         /\ (200 < length clean ->
             forall e, last_ext clean = Some e -> length e <= 200 ->
                       r = firstn (200 - length e) clean ++ e
                       /\ length r = 200)
         /\ (200 < length clean -> last_ext clean = None ->
             r = firstn 196 clean
                 ++ (if isVideo url then lit ".mp4" else lit ".jpg")
             /\ length r = 200))
  /\ extractFilename 0 "https://cdn.example/abc.jpg?w=200" = "abc.jpg"%string
  /\ extractFilename 0 "https://cdn.example/v/clip.webm" = "clip.webm"%string
  /\ extractFilename 0 "https://cdn.example/media/12345" = "12345.jpg"%string
  /\ extractFilename 0 "https://cdn.example/media/12345?f=x.mp4"
     = "12345.mp4"%string.
Proof.
  split; [reflexivity|]. split.
  { intros p now url H. unfold extractFilename_from. rewrite H. reflexivity. }
  split; [|vm_compute; repeat split].
  intros p now url seg Hseg named clean r.
  assert (Hr : r = limit_length url clean).
  { subst r clean named. unfold extractFilename_from. rewrite Hseg.
    rewrite with_extension_eq. reflexivity. }
  split; [apply sanitize_length|].
  split; [intros i c; apply sanitize_lookup|].
  split; [rewrite Hr; apply limit_length_clean, sanitize_clean|].
  split; [intros H; rewrite Hr; apply limit_length_short; exact H|].
  split.
  - intros Hlong e He Hle. rewrite Hr.
    apply limit_length_long; [exact Hlong | rewrite He; reflexivity | exact Hle].
  - intros Hlong Hnone. rewrite Hr.
    destruct (limit_length_long url clean (default_ext url) Hlong)
      as [A B].
    + rewrite Hnone. reflexivity.
    + destruct (default_ext_clean url) as [_ ->]. lia.
    + destruct (default_ext_clean url) as [_ Hlen]. rewrite Hlen in A.
      split; [exact A | exact B].
Qed.

Lemma filename_derivation_witness :
  last_segment (lit "/media/12345") = Some (lit "12345")
  /\ extractFilename_from (Some (lit "/media/12345")) 0
       (lit "https://cdn.example/media/12345") = lit "12345.jpg".
Proof.
  assert (H : last_segment (lit "/media/12345") = Some (lit "12345"))
    by reflexivity.
  split; [exact H|].
  destruct filename_derivation as (_ & _ & Hd & _).
  destruct (Hd (lit "/media/12345") 0%N
              (lit "https://cdn.example/media/12345") (lit "12345") H)
    as (_ & _ & _ & Hshort & _).
  apply Hshort. vm_compute. repeat constructor.
Defined.

(** A colon in the last path segment is replaced by an underscore, not
    removed, and a URL without a path segment gets the fallback name. *)
Lemma colon_is_replaced_not_removed :
  Url.pathname "https://cdn.example/a:b.jpg" = Some (lit "/a:b.jpg")
  /\ last_segment (lit "/a:b.jpg") = Some (lit "a:b.jpg")
  /\ extractFilename 0 "https://cdn.example/a:b.jpg" = "a_b.jpg"%string
  /\ str (claimed_filename (lit "https://cdn.example/a:b.jpg") (lit "a:b.jpg"))
     = "ab.jpg"%string
  /\ extractFilename 0 "https://cdn.example/a:b.jpg"
     <> str (claimed_filename (lit "https://cdn.example/a:b.jpg")
               (lit "a:b.jpg"))
  /\ extractFilename 5 "https://cdn.example/" = "media_5.jpg"%string.
Proof. vm_compute. repeat split. discriminate. Qed.

(** An extension of more than 200 characters escapes the length limit:
    the end of the slice turns negative and counts from the end. *)
Example long_extension_escapes_the_limit :
  let name := "."%char :: repeat "a"%char 250 in
  last_ext name = Some name
  /\ length (limit_length [] name) = 451.
Proof. vm_compute. split; reflexivity. Qed.
(** ** Every step is a row of moves *)

Lemma view_processItem_begin item s :
  view (processItem_begin item s)
  = mkView (alter (with_status Downloading) item (heap s)) (queue s)
      (active s) (completed s) (failed s)
      (tasks s ++ [mkTask item Starting]) (enqueued s).
Proof.
  unfold processItem_begin, emitProgress. simpl.
  destruct (onProgress (cfg s)); simpl;
    destruct (alter (with_status Downloading) item (heap s) !! item); simpl;
    try destruct (onFileStart (cfg s)); reflexivity.
Qed.

Lemma view_processItem_finally k item s :
  view (processItem_finally k item s)
  = mkView (heap s) (queue s) (splice_active (heap s) item (active s))
      (completed s) (failed s)
      (<[k := mkTask item (Delaying (now s + downloadDelay (cfg s)))]>
         (tasks s))
      (enqueued s).
Proof.
  unfold processItem_finally, emitProgress, splice_active.
  destruct (findIndex (heap s) item (active s)); simpl;
    destruct (onProgress (cfg s)); reflexivity.
Qed.

Lemma splice_active_alter (h : list Item) (f : Item -> Item) (r item : ref)
    (a : list ref) :
  (forall i, id (f i) = id i) ->
  splice_active (alter f r h) item a = splice_active h item a.
Proof.
  intros Hf. unfold splice_active. rewrite findIndex_alter by assumption.
  reflexivity.
Qed.

Lemma Moves_one c v v' : Sound false c v -> Move c v v' -> Moves c v v'.
Proof. intros Hs Hm. eapply Moves_step; [exact Hs | exact Hm | apply Moves_refl]. Qed.

Lemma Moves_trans c v1 v2 v3 : Moves c v1 v2 -> Moves c v2 v3 -> Moves c v1 v3.
Proof.
  induction 1 as [|a b d Hs Hm _ IH]; [auto|].
  intros H. eapply Moves_step; eauto.
Qed.

Lemma Sound_now q s : Inv q s -> Sound false (cfg s) (view s).
Proof. intros H. eapply Sound_weaken, Inv_now. exact H. Qed.

Lemma cfg_processItem_begin item s : cfg (processItem_begin item s) = cfg s.
Proof. apply processItem_begin_frame. Qed.

Lemma Moves_fill_slots q (l : list ref) s :
  queue s = l -> Inv q s ->
  Moves (cfg s) (view s) (view (fill_slots l s)).
Proof.
  revert s. induction l as [|item rest IH]; intros s Hq H; simpl;
    [apply Moves_refl|].
  destruct (length (active s) <? maxConcurrent (cfg s)) eqn:E;
    [|apply Moves_refl].
  apply Nat.ltb_lt in E.
  set (s1 := processItem_begin item
               (set_active (active s ++ [item]) (set_queue rest s))).
  assert (H1 : Inv q s1) by (apply Inv_pull; assumption).
  assert (Hc : cfg s1 = cfg s)
    by apply (cfg_processItem_begin item
                (set_active (active s ++ [item]) (set_queue rest s))).
  assert (Hq1 : queue s1 = rest)
    by apply (processItem_begin_frame item
                (set_active (active s ++ [item]) (set_queue rest s))).
  eapply Moves_step; [eapply Sound_now; exact H | | ].
  - apply (MovePull (cfg s) (view s) item rest); assumption.
  - rewrite <- Hc.
    replace (mkView _ _ _ _ _ _ _) with (view s1)
      by (subst s1; rewrite view_processItem_begin; reflexivity).
    apply IH; assumption.
Qed.

Lemma Moves_after_loop s : view (after_loop s) = view s.
Proof.
  unfold after_loop, emitComplete.
  destruct (negb (is_nil (active s)) && negb (isCancelled s)); [reflexivity|].
  destruct (isCancelled s); [reflexivity|].
  destruct (onComplete (cfg s)); reflexivity.
Qed.

Lemma Moves_pause_gate q s :
  Inv q s -> Moves (cfg s) (view s) (view (pause_gate s)).
Proof.
  intros H. unfold pause_gate.
  destruct (isPaused s && negb (isCancelled s)); [apply Moves_refl|].
  destruct (isCancelled s).
  - rewrite Moves_after_loop. apply Moves_refl.
  - apply (Moves_fill_slots q (queue s) s eq_refl H).
Qed.

Lemma Moves_loop_top q s :
  Inv q s -> Moves (cfg s) (view s) (view (loop_top s)).
Proof.
  intros H. unfold loop_top.
  destruct (negb (isCancelled s)
            && (negb (is_nil (queue s)) || negb (is_nil (active s)))).
  - eapply Moves_pause_gate. exact H.
  - rewrite Moves_after_loop. apply Moves_refl.
Qed.

Lemma Moves_failure q s k item p msg :
  tasks s !! k = Some (mkTask item p) -> settled p = false ->
  Inv q s ->
  Moves (cfg s) (view s) (view (processItem_failure k item msg s)).
Proof.
  intros Hk Hp H. apply Moves_one; [eapply Sound_now; exact H|].
  pose proof (in_flight_valid _ _ _ H (in_flight_lookup _ _ _ _ Hk Hp)) as Hv.
  apply lookup_lt_is_Some in Hv as [it Hit].
  unfold processItem_failure. rewrite view_processItem_finally.
  unfold processItem_catch. rewrite Hit.
  destruct (retries it <? retryAttempts (cfg s)) eqn:E.
  - apply Nat.ltb_lt in E. simpl.
    rewrite splice_active_alter by reflexivity.
    apply (MoveRetry (cfg s) (view s) k item p _ it); auto.
  - apply Nat.ltb_ge in E.
    simpl. destruct (onError (cfg s)); simpl;
      rewrite splice_active_alter by reflexivity;
      apply (MoveFail (cfg s) (view s) k item p _ it msg); auto.
Qed.

Lemma Moves_success q s k item p :
  tasks s !! k = Some (mkTask item p) -> settled p = false ->
  Inv q s ->
  Moves (cfg s) (view s) (view (processItem_success k item s)).
Proof.
  intros Hk Hp H. apply Moves_one; [eapply Sound_now; exact H|].
  unfold processItem_success. rewrite view_processItem_finally. simpl.
  rewrite splice_active_alter by reflexivity.
  apply (MoveSuccess (cfg s) (view s) k item p); auto.
Qed.

(** A step changes the objects and the collections by moves only. *)
Lemma step_moves q e s s' :
  Inv q s -> step e s = Some s' ->
  Moves (cfg s) (view s) (view s').
Proof.
  intros H Hstep. pose proof (Sound_now _ _ H) as Hs.
  destruct e; simpl in Hstep; try (injection Hstep as <-).
  - apply Moves_one; [exact Hs|].
    unfold addToQueue. simpl.
    destruct (emitProgress_facts
                (set_enqueued (enqueued s + length items)
                   (set_queue (queue s ++ seq (length (heap s))
                                 (length (imap (normalize (now s)) items)))
                      (set_heap (heap s ++ imap (normalize (now s)) items) s))))
      as (_ & -> & _).
    unfold view. simpl. rewrite length_imap.
    apply (MoveAdd (cfg s) (view s) (now s) items).
  - destruct (loop s); try discriminate. injection Hstep as <-.
    unfold start. destruct (is_nil (queue s) && is_nil (active s)).
    + unfold emitComplete. destruct (onComplete (cfg s)); apply Moves_refl.
    + apply (Moves_loop_top q (set_isPaused false (set_isCancelled false s))).
      eapply Inv_same; [| | | exact H]; reflexivity.
  - apply Moves_refl.
  - apply Moves_refl.
  - apply Moves_one; [exact Hs|].
    unfold cancel.
    destruct (abort_active_frame (set_isPaused false (set_isCancelled true s)))
      as (_ & B & _).
    unfold view in B |- *. simpl in *.
    injection B as B1 B2 B3 B4 B5 B6 B7. rewrite B1, B4, B5, B6, B7.
    apply (MoveCancel (cfg s) (view s)).
  - apply Moves_refl.
  - destruct (loop s); try discriminate;
      match type of Hstep with (if ?b then _ else _) = _ => destruct b end;
      try discriminate; injection Hstep as <-.
    + eapply Moves_pause_gate. exact H.
    + eapply Moves_loop_top. exact H.
    + rewrite Moves_after_loop. apply Moves_refl.
  - destruct (tasks s !! k) as [[item p]|] eqn:Hk; try discriminate.
    destruct p; try discriminate. injection Hstep as <-.
    unfold on_download_reply. destruct (downloadFile r) as [[|n]|msg].
    + eapply Moves_failure; eauto.
    + apply Moves_one; [exact Hs|].
      apply (MovePhase (cfg s) (view s) k item Starting (Waiting (S n)));
        auto.
    + eapply Moves_failure; eauto.
  - destruct (tasks s !! k) as [[item p]|] eqn:Hk; try discriminate.
    destruct p; try discriminate. injection Hstep as <-.
    unfold on_search_reply. destruct (checkStatus r) as [[msg|]|].
    + eapply Moves_failure; eauto.
    + eapply Moves_success; eauto.
    + apply Moves_refl.
  - destruct (tasks s !! k) as [[item p]|] eqn:Hk; try discriminate.
    destruct p; try discriminate.
    destruct (until <=? now s)%N; try discriminate. injection Hstep as <-.
    apply Moves_one; [exact Hs|].
    apply (MovePhase (cfg s) (view s) k item (Delaying until) Finished); auto.
Qed.

(** ** Status and collection *)

Abbreviation cnt := (count_occ Nat.eq_dec).

Lemma Sound_counts q c v r :
  Sound q c v ->
  cnt (v_queue v) r + cnt (in_flight (v_tasks v)) r + cnt (v_completed v) r
  + cnt (v_failed v) r <= 1
  /\ (0 < cnt (v_queue v) r + cnt (in_flight (v_tasks v)) r
          + cnt (v_completed v) r + cnt (v_failed v) r ->
      r < length (v_heap v)).
Proof.
  intros H. pose proof (Sound_NoDup _ _ _ H) as Hnd.
  apply NoDup_ListNoDup in Hnd.
  rewrite (List.NoDup_count_occ Nat.eq_dec) in Hnd. specialize (Hnd r).
  rewrite !count_occ_app in Hnd. split; [lia|].
  intros Hpos. destruct H as [_ _ (d & Hp & _) _ _ _].
  apply List.in_seq with (start := 0). eapply Permutation_in; [exact Hp|].
  apply (count_occ_In Nat.eq_dec). rewrite !count_occ_app. lia.
Qed.

Lemma cnt_settle (ts : list Task) k item p p' r :
  ts !! k = Some (mkTask item p) ->
  settled p = false -> settled p' = true ->
  cnt (in_flight ts) r
  = (if Nat.eq_dec item r then 1 else 0)
    + cnt (in_flight (<[k := mkTask item p']> ts)) r.
Proof.
  intros Hk Hp Hp'.
  pose proof (in_flight_insert_settle ts k item p p' Hk Hp Hp') as H.
  rewrite (Permutation_count_occ Nat.eq_dec) in H. rewrite (H r). simpl.
  destruct (Nat.eq_dec item r); reflexivity.
Qed.

Lemma In_cnt (l : list ref) r : In r l <-> 0 < cnt l r.
Proof. apply (count_occ_In Nat.eq_dec). Qed.

Lemma cnt_self (l : list ref) r : cnt (r :: l) r = S (cnt l r).
Proof. apply count_occ_cons_eq. reflexivity. Qed.

(** Every move keeps status and collection in agreement. *)
Lemma Coherent_move c v v' :
  Sound false c v -> Coherent v -> Move c v v' -> Coherent v'.
Proof.
  intros Hs Hc Hm. unfold Coherent in *.
  assert (Hcnt := fun r => Sound_counts false c v r Hs).
  destruct Hm as [clock items | item rest Hq Hlt | k item p p' Hk Hp
                 | k item p p' Hk Hp Hp' | k item p p' it0 Hk Hp Hp' Hit Hlt
                 | k item p p' it0 msg Hk Hp Hp' Hit Hge | ];
    simpl; intros r it Hr.
  - (* addToQueue *)
    destruct (Hcnt r) as [Hle Hval]. rewrite !In_cnt, count_occ_app.
    destruct (lt_dec r (length (v_heap v))) as [Hlt|Hge].
    + rewrite lookup_app_l in Hr by assumption.
      destruct (Hc r it Hr) as (A & B & C & D). rewrite !In_cnt in A, B, C, D.
      assert (Hz : cnt (seq (length (v_heap v)) (length items)) r = 0).
      { apply count_occ_not_In. rewrite List.in_seq. lia. }
      rewrite Hz, Nat.add_0_r. auto.
    + rewrite lookup_app_r in Hr by lia. rewrite list_lookup_imap in Hr.
      destruct (items !! (r - length (v_heap v))); [|discriminate].
      injection Hr as <-. simpl.
      repeat split; try reflexivity; intros; exfalso; lia.
  - (* one turn of the slot-filling loop *)
    rewrite in_flight_app, !In_cnt, count_occ_app.
    specialize (Hcnt r). rewrite Hq in Hcnt. destruct Hcnt as [Hle _].
    destruct (Nat.eq_dec item r) as [->|Hne].
    + rewrite list_lookup_alter_eq in Hr.
      destruct (v_heap v !! r) as [it0|]; [|discriminate].
      injection Hr as <-. rewrite cnt_self in Hle. simpl.
      repeat split; try reflexivity; intros; exfalso; lia.
    + rewrite list_lookup_alter_ne in Hr by assumption.
      destruct (Hc r it Hr) as (A & B & C & D).
      rewrite !In_cnt in A, B, C, D. rewrite Hq in A.
      rewrite count_occ_cons_neq in A by assumption.
      unfold in_flight at 2. simpl.
      destruct (Nat.eq_dec item r); [contradiction|].
      rewrite Nat.add_0_r. auto.
  - (* an invocation goes on *)
    rewrite (in_flight_insert_same _ _ _ _ _ Hk Hp). apply Hc. exact Hr.
  - (* success *)
    rewrite !In_cnt, count_occ_app. destruct (Hcnt r) as [Hle _].
    rewrite (cnt_settle _ k item p p' r Hk Hp Hp') in Hle.
    destruct (Nat.eq_dec item r) as [->|Hne].
    + rewrite list_lookup_alter_eq in Hr.
      destruct (v_heap v !! r) as [it1|]; [|discriminate].
      injection Hr as <-. simpl.
      repeat split; try reflexivity; intros; exfalso; lia.
    + rewrite list_lookup_alter_ne in Hr by assumption.
      destruct (Hc r it Hr) as (A & B & C & D).
      rewrite !In_cnt in A, B, C, D.
      rewrite (cnt_settle _ k item p p' r Hk Hp Hp') in B.
      destruct (Nat.eq_dec item r); [contradiction|]. simpl in *.
      destruct (Nat.eq_dec item r); [contradiction|].
      rewrite Nat.add_0_r. auto.
  - (* retry *)
    rewrite !In_cnt. destruct (Hcnt r) as [Hle _].
    rewrite (cnt_settle _ k item p p' r Hk Hp Hp') in Hle.
    destruct (Nat.eq_dec item r) as [->|Hne].
    + rewrite list_lookup_alter_eq in Hr.
      destruct (v_heap v !! r) as [it1|]; [|discriminate].
      injection Hr as <-. simpl.
      repeat split; try reflexivity; intros; exfalso; lia.
    + rewrite list_lookup_alter_ne in Hr by assumption.
      destruct (Hc r it Hr) as (A & B & C & D).
      rewrite !In_cnt in A, B, C, D.
      rewrite (cnt_settle _ k item p p' r Hk Hp Hp') in B.
      destruct (Nat.eq_dec item r); [contradiction|]. simpl in B.
      intuition.
  - (* last failure *)
    rewrite !In_cnt, count_occ_app. destruct (Hcnt r) as [Hle _].
    rewrite (cnt_settle _ k item p p' r Hk Hp Hp') in Hle.
    destruct (Nat.eq_dec item r) as [->|Hne].
    + rewrite list_lookup_alter_eq in Hr.
      destruct (v_heap v !! r) as [it1|]; [|discriminate].
      injection Hr as <-. simpl.
      repeat split; try reflexivity; eauto; intros; exfalso; lia.
    + rewrite list_lookup_alter_ne in Hr by assumption.
      destruct (Hc r it Hr) as (A & B & C & D).
      rewrite !In_cnt in A, B, C, D.
      rewrite (cnt_settle _ k item p p' r Hk Hp Hp') in B.
      destruct (Nat.eq_dec item r); [contradiction|]. simpl in *.
      destruct (Nat.eq_dec item r); [contradiction|].
      rewrite Nat.add_0_r. auto.
  - (* cancel *)
    destruct (Hc r it Hr) as (A & B & C & D). intuition.
Qed.

(** A move leaves the object of an item in a terminal collection as it
    is. *)
Lemma terminal_move c v v' r it :
  Sound false c v -> Move c v v' ->
  In r (v_completed v ++ v_failed v) -> v_heap v !! r = Some it ->
  v_heap v' !! r = Some it /\ In r (v_completed v' ++ v_failed v').
Proof.
  intros Hs Hm Hin Hr.
  destruct (Sound_counts false c v r Hs) as [Hle Hval].
  apply in_app_or in Hin as Hin'. rewrite !In_cnt in Hin'.
  destruct Hm as [clock items | item rest Hq Hlt | k item p p' Hk Hp
                 | k item p p' Hk Hp Hp' | k item p p' it0 Hk Hp Hp' Hit Hlt
                 | k item p p' it0 msg Hk Hp Hp' Hit Hge | ]; simpl;
    try (split; [exact Hr | exact Hin]).
  - split; [|exact Hin]. rewrite lookup_app_l; [exact Hr|]. apply Hval. lia.
  - split; [|exact Hin]. rewrite Hq in Hle.
    destruct (Nat.eq_dec item r) as [->|Hne].
    + rewrite cnt_self in Hle. exfalso. lia.
    + rewrite list_lookup_alter_ne by assumption. exact Hr.
  - rewrite (cnt_settle _ k item p p' r Hk Hp Hp') in Hle.
    destruct (Nat.eq_dec item r) as [->|Hne]; [exfalso; lia|].
    rewrite list_lookup_alter_ne by assumption. split; [exact Hr|].
    apply in_app_or in Hin as [?|?]; apply in_or_app; [left|right]; auto.
    apply in_or_app. auto.
  - rewrite (cnt_settle _ k item p p' r Hk Hp Hp') in Hle.
    destruct (Nat.eq_dec item r) as [->|Hne]; [exfalso; lia|].
    rewrite list_lookup_alter_ne by assumption. auto.
  - rewrite (cnt_settle _ k item p p' r Hk Hp Hp') in Hle.
    destruct (Nat.eq_dec item r) as [->|Hne]; [exfalso; lia|].
    rewrite list_lookup_alter_ne by assumption. split; [exact Hr|].
    apply in_app_or in Hin as [?|?]; apply in_or_app; [left|right]; auto.
    apply in_or_app. auto.
Qed.

(** A property of views that every move from a sound view keeps is kept
    by every run. *)
Lemma run_invariant (P : Config -> View -> Prop) q es s s' :
  (forall c v v', Sound false c v -> P c v -> Move c v v' -> P c v') ->
  Inv q s -> P (cfg s) (view s) -> run es s = Some s' ->
  P (cfg s') (view s').
Proof.
  intros Hmove. revert q s.
  induction es as [|e es IH]; intros q s HI HP Hrun; simpl in Hrun.
  - injection Hrun as <-. exact HP.
  - destruct (step e s) as [s1|] eqn:E; [|discriminate].
    pose proof (Inv_step q e s s1 E HI) as HI1.
    pose proof (step_moves q e s s1 HI E) as Hm.
    pose proof (ext_cfg _ _ (Extends_step e s s1 E)) as Hc.
    apply (IH _ s1 HI1); [|exact Hrun].
    rewrite Hc. clear - Hm HP Hmove.
    induction Hm as [|v1 v2 v3 Hs Hmv _ IHm]; [exact HP|].
    apply IHm. eapply Hmove; eauto.
Qed.

(** X1: an item's [status] always names the collection that holds it:
    [queued] in the queue, [downloading] while its [processItem]
    invocation has not settled, [completed] in the completed list and
    [failed], with the error message set, in the failed list. *)
Theorem status_agrees_with_collection options es s :
  reaches options es s ->
  forall r it,
    heap s !! r = Some it ->
    (In r (queue s) -> status it = Queued)
    /\ (In r (in_flight (tasks s)) -> status it = Downloading)
    /\ (In r (completed s) -> status it = Completed)
    /\ (In r (failed s) -> status it = Failed /\ is_Some (error it)).
Proof.
  intros H.
  apply (run_invariant (fun _ v => Coherent v) true es
           (init options new_manager) s).
  - intros c v v'. apply Coherent_move.
  - apply Inv_init.
  - intros r it Hr. simpl in Hr. discriminate.
  - exact H.
Qed.

Lemma status_agrees_with_collection_witness :
  reaches default_options plain_run plain_state
  /\ (status <$> heap plain_state !! 0) = Some Completed.
Proof.
  assert (H : reaches default_options plain_run plain_state)
    by (vm_compute; reflexivity).
  split; [exact H|].
  destruct (heap plain_state !! 0) as [it|] eqn:E; [|discriminate E].
  destruct (status_agrees_with_collection default_options plain_run
              plain_state H 0 it E) as (_ & _ & Hc & _).
  simpl. f_equal. apply Hc. vm_compute. left. reflexivity.
Defined.

(** X2: a terminal state is final.  Once an item is in the completed or
    the failed list, its object is never written again and it stays in
    that list; it is never queued or processed again. *)
Theorem terminal_state_is_final options es s es' s' r it :
  reaches options es s -> run es' s = Some s' ->
  In r (completed s ++ failed s) -> heap s !! r = Some it ->
  heap s' !! r = Some it
  /\ In r (completed s' ++ failed s')
  /\ ~ In r (queue s') /\ ~ In r (in_flight (tasks s')).
Proof.
  intros H Hrun Hin Hr.
  pose proof (Inv_reaches _ _ _ H) as HI.
  destruct (run_invariant
              (fun _ v => v_heap v !! r = Some it
                          /\ In r (v_completed v ++ v_failed v))
              (quiet es) es' s s') as [Hr' Hin']; auto.
  { intros c v v' Hs [A B] Hm. eapply terminal_move; eauto. }
  split; [exact Hr'|]. split; [exact Hin'|].
  assert (H' : reaches options (es ++ es') s').
  { unfold reaches, run_from in *. rewrite run_app, H. exact Hrun. }
  pose proof (Inv_now _ _ (Inv_reaches _ _ _ H')) as Hs'.
  destruct (Sound_counts _ _ _ r Hs') as [Hle _]. simpl in Hle, Hin'.
  apply in_app_or in Hin'. rewrite !In_cnt in Hin'. rewrite !In_cnt.
  split; lia.
Qed.

Lemma terminal_state_is_final_witness :
  reaches default_options plain_run plain_state
  /\ In 0 (completed plain_state ++ failed plain_state)
  /\ ~ In 0 (queue (cancel plain_state)).
Proof.
  assert (H : reaches default_options plain_run plain_state)
    by (vm_compute; reflexivity).
  assert (Hin : In 0 (completed plain_state ++ failed plain_state))
    by (vm_compute; left; reflexivity).
  split; [exact H|]. split; [exact Hin|].
  destruct (heap plain_state !! 0) as [it|] eqn:E; [|discriminate E].
  destruct (terminal_state_is_final default_options plain_run plain_state
              [ECancel] (cancel plain_state) 0 it H eq_refl Hin E)
    as (_ & _ & Hq & _).
  exact Hq.
Defined.
(** ** Attempts *)

Lemma attempts_app (ts us : list Task) r :
  attempts (ts ++ us) r = attempts ts r + attempts us r.
Proof. unfold attempts. rewrite List.filter_app, length_app. reflexivity. Qed.

Lemma attempts_insert (ts : list Task) k item p p' r :
  ts !! k = Some (mkTask item p) ->
  attempts (<[k := mkTask item p']> ts) r = attempts ts r.
Proof.
  unfold attempts. revert k.
  induction ts as [|t ts IH]; intros [|k] Hk; simpl in *; try discriminate.
  - injection Hk as ->. simpl. destruct (Nat.eqb item r); reflexivity.
  - destruct (Nat.eqb (t_item t) r); simpl; rewrite (IH k Hk); reflexivity.
Qed.

Lemma queued_cnt (l : list ref) r :
  (if existsb (Nat.eqb r) l then 1 else 0) <= cnt l r
  /\ (cnt l r = 0 -> existsb (Nat.eqb r) l = false).
Proof.
  induction l as [|a l [IH1 IH2]]; simpl; [auto|].
  destruct (Nat.eqb_spec r a) as [->|Hne]; simpl.
  - destruct (Nat.eq_dec a a); [|contradiction]. split; [lia | discriminate].
  - destruct (Nat.eq_dec a r); [congruence|]. auto.
Qed.

Lemma queued_not (l : list ref) r :
  ~ In r l -> existsb (Nat.eqb r) l = false.
Proof.
  intros H. apply queued_cnt. apply count_occ_not_In. exact H.
Qed.

(** Every move keeps the attempts of an item within its retries. *)
Lemma Rationed_move c v v' :
  Sound false c v -> Rationed v -> Move c v v' -> Rationed v'.
Proof.
  intros Hs Hr Hm. unfold Rationed in *.
  assert (Hcnt := fun r => Sound_counts false c v r Hs).
  destruct Hm as [clock items | item rest Hq Hlt | k item p p' Hk Hp
                 | k item p p' Hk Hp Hp' | k item p p' it0 Hk Hp Hp' Hit Hlt
                 | k item p p' it0 msg Hk Hp Hp' Hit Hge | ];
    simpl; intros r; specialize (Hr r); destruct (Hcnt r) as [Hle Hval].
  - (* addToQueue *)
    rewrite existsb_app.
    destruct (lt_dec r (length (v_heap v))) as [Hlt|Hge].
    + rewrite lookup_app_l by assumption.
      rewrite (queued_not (seq _ _) r), orb_false_r; [exact Hr|].
      rewrite List.in_seq. lia.
    + rewrite (lookup_ge_None_2 (v_heap v) r) in Hr by lia.
      assert (Hq0 : existsb (Nat.eqb r) (v_queue v) = false).
      { destruct (existsb (Nat.eqb r) (v_queue v)); [lia | reflexivity]. }
      rewrite Hq0. simpl.
      destruct (existsb (Nat.eqb r) (seq (length (v_heap v)) (length items)))
        eqn:E.
      * apply existsb_exists in E as (x & Hx & Ex).
        apply Nat.eqb_eq in Ex. subst x. apply List.in_seq in Hx.
        rewrite lookup_app_r by lia. rewrite list_lookup_imap.
        destruct (items !! (r - length (v_heap v))) eqn:Ei; simpl; [lia|].
        apply lookup_ge_None in Ei. lia.
      * destruct ((v_heap v ++ imap (normalize clock) items) !! r); lia.
  - (* one turn of the slot-filling loop *)
    rewrite attempts_app. unfold attempts at 2. simpl.
    rewrite Hq in Hr, Hle. simpl in Hr.
    destruct (Nat.eqb_spec item r) as [->|Hne].
    + rewrite Nat.eqb_refl in Hr. simpl in Hr.
      rewrite cnt_self in Hle.
      rewrite (queued_not rest r) by (rewrite In_cnt; lia).
      rewrite list_lookup_alter_eq.
      destruct (v_heap v !! r); simpl in *; lia.
    + rewrite list_lookup_alter_ne by assumption.
      destruct (Nat.eqb_spec r item); [congruence|]. simpl in *. lia.
  - rewrite (attempts_insert _ _ _ _ _ _ Hk). exact Hr.
  - rewrite (attempts_insert _ _ _ _ _ _ Hk).
    destruct (Nat.eq_dec item r) as [->|Hne].
    + rewrite list_lookup_alter_eq. destruct (v_heap v !! r); simpl; exact Hr.
    + rewrite list_lookup_alter_ne by assumption. exact Hr.
  - rewrite (attempts_insert _ _ _ _ _ _ Hk).
    destruct (Nat.eqb_spec r item) as [->|Hne]; simpl.
    + rewrite list_lookup_alter_eq, Hit. rewrite Hit in Hr. simpl.
      destruct (existsb (Nat.eqb item) (v_queue v)); lia.
    + rewrite list_lookup_alter_ne by congruence. exact Hr.
  - rewrite (attempts_insert _ _ _ _ _ _ Hk).
    destruct (Nat.eq_dec item r) as [->|Hne].
    + rewrite list_lookup_alter_eq. destruct (v_heap v !! r); simpl; exact Hr.
    + rewrite list_lookup_alter_ne by assumption. exact Hr.
  - destruct (existsb (Nat.eqb r) (v_queue v)); lia.
Qed.

(** X3: [processItem] is invoked for an item at most once more than the
    item has retries, hence at most [retryAttempts + 1] times; an item
    that waits in the queue has been tried at most as often as it has
    retries. *)
Theorem attempts_are_rationed options es s :
  reaches options es s ->
  forall r it,
    heap s !! r = Some it ->
    attempts (tasks s) r <= retries it + 1
    /\ attempts (tasks s) r <= retryAttempts (cfg s) + 1
    /\ (In r (queue s) -> attempts (tasks s) r <= retries it).
Proof.
  intros H r it Hr.
  assert (HR : Rationed (view s)).
  { apply (run_invariant (fun _ v => Rationed v) true es
             (init options new_manager) s).
    - intros c v v'. apply Rationed_move.
    - apply Inv_init.
    - intros x. simpl. lia.
    - exact H. }
  specialize (HR r). simpl in HR. rewrite Hr in HR.
  pose proof (sound_heap _ _ _ (Inv_now _ _ (Inv_reaches _ _ _ H))) as Hh.
  simpl in Hh. rewrite Forall_lookup in Hh. destruct (Hh _ _ Hr) as [Hret _].
  repeat split; try lia.
  intros Hin. rewrite In_cnt in Hin.
  destruct (existsb (Nat.eqb r) (queue s)) eqn:E; [lia|].
  exfalso. assert (Hex : existsb (Nat.eqb r) (queue s) = true).
  { apply existsb_exists. exists r. split; [apply In_cnt; exact Hin|].
    apply Nat.eqb_refl. }
  congruence.
Qed.

Lemma attempts_are_rationed_witness :
  reaches default_options plain_run plain_state
  /\ attempts (tasks plain_state) 0 <= 3 + 1.
Proof.
  assert (H : reaches default_options plain_run plain_state)
    by (vm_compute; reflexivity).
  split; [exact H|].
  destruct (heap plain_state !! 0) as [it|] eqn:E; [|discriminate E].
  destruct (attempts_are_rationed default_options plain_run plain_state H
              0 it E) as (_ & Hb & _).
  exact Hb.
Defined.
(** ** Pause, cancellation and completion *)

Lemma flags_emitProgress s :
  isPaused (emitProgress s) = isPaused s
  /\ isCancelled (emitProgress s) = isCancelled s
  /\ loop (emitProgress s) = loop s.
Proof. unfold emitProgress. destruct (onProgress (cfg s)); auto. Qed.

Lemma flags_emitComplete s :
  isPaused (emitComplete s) = isPaused s
  /\ isCancelled (emitComplete s) = isCancelled s
  /\ loop (emitComplete s) = loop s
  /\ queue (emitComplete s) = queue s /\ active (emitComplete s) = active s.
Proof. unfold emitComplete. destruct (onComplete (cfg s)); repeat split. Qed.

Lemma flags_processItem_begin item s :
  isPaused (processItem_begin item s) = isPaused s
  /\ isCancelled (processItem_begin item s) = isCancelled s
  /\ loop (processItem_begin item s) = loop s.
Proof.
  unfold processItem_begin, emitProgress. simpl.
  destruct (onProgress (cfg s)); simpl;
    destruct (alter (with_status Downloading) item (heap s) !! item); simpl;
    try destruct (onFileStart (cfg s)); repeat split.
Qed.

Lemma flags_fill_slots (l : list ref) s :
  isPaused (fill_slots l s) = isPaused s
  /\ isCancelled (fill_slots l s) = isCancelled s
  /\ loop (fill_slots l s) = loop s.
Proof.
  revert s. induction l as [|item rest IH]; intros s; simpl; [auto|].
  destruct (length (active s) <? maxConcurrent (cfg s)); [|auto].
  destruct (IH (processItem_begin item
                  (set_active (active s ++ [item]) (set_queue rest s))))
    as (-> & -> & ->).
  apply (flags_processItem_begin item
           (set_active (active s ++ [item]) (set_queue rest s))).
Qed.

Lemma flags_processItem_catch item msg s :
  isPaused (processItem_catch item msg s) = isPaused s
  /\ isCancelled (processItem_catch item msg s) = isCancelled s
  /\ loop (processItem_catch item msg s) = loop s
  /\ tasks (processItem_catch item msg s) = tasks s
  /\ active (processItem_catch item msg s) = active s.
Proof.
  unfold processItem_catch.
  destruct (heap s !! item) as [it|]; [|repeat split].
  destruct (retries it <? retryAttempts (cfg s)); simpl; [repeat split|].
  destruct (onError (cfg s)); repeat split.
Qed.

Lemma flags_processItem_finally k item s :
  isPaused (processItem_finally k item s) = isPaused s
  /\ isCancelled (processItem_finally k item s) = isCancelled s
  /\ loop (processItem_finally k item s) = loop s
  /\ length (tasks (processItem_finally k item s)) = length (tasks s)
  /\ (forall r, In r (active (processItem_finally k item s)) ->
                In r (active s)).
Proof.
  unfold processItem_finally, emitProgress.
  destruct (findIndex (heap s) item (active s)) as [i|]; simpl;
    destruct (onProgress (cfg s)); simpl; rewrite length_insert;
    repeat split; auto;
    intros r Hr; apply list_elem_of_In;
    eapply list_elem_of_delete_inv; apply list_elem_of_In; exact Hr.
Qed.

Lemma flags_failure k item msg s :
  isPaused (processItem_failure k item msg s) = isPaused s
  /\ isCancelled (processItem_failure k item msg s) = isCancelled s
  /\ loop (processItem_failure k item msg s) = loop s
  /\ length (tasks (processItem_failure k item msg s)) = length (tasks s)
  /\ (forall r, In r (active (processItem_failure k item msg s)) ->
                In r (active s)).
Proof.
  unfold processItem_failure.
  destruct (flags_processItem_finally k item (processItem_catch item msg s))
    as (-> & -> & -> & -> & Ha).
  destruct (flags_processItem_catch item msg s) as (-> & -> & -> & -> & Hb).
  repeat split. intros r Hr. rewrite <- Hb. auto.
Qed.

Lemma flags_success k item s :
  isPaused (processItem_success k item s) = isPaused s
  /\ isCancelled (processItem_success k item s) = isCancelled s
  /\ loop (processItem_success k item s) = loop s
  /\ length (tasks (processItem_success k item s)) = length (tasks s)
  /\ (forall r, In r (active (processItem_success k item s)) ->
                In r (active s)).
Proof.
  unfold processItem_success.
  destruct (flags_processItem_finally k item
              (set_completed (completed s ++ [item])
                 (update item (with_status Completed) s)))
    as (-> & -> & -> & -> & Ha).
  repeat split. exact Ha.
Qed.

Lemma flags_after_loop s :
  isPaused (after_loop s) = isPaused s
  /\ isCancelled (after_loop s) = isCancelled s
  /\ tasks (after_loop s) = tasks s /\ active (after_loop s) = active s.
Proof.
  unfold after_loop, emitComplete.
  destruct (isCancelled s) eqn:E;
    destruct (negb (is_nil (active s))); simpl; rewrite ?E;
    try destruct (onComplete (cfg s)); simpl; rewrite ?E; repeat split.
Qed.

Lemma flags_pause_gate s :
  isPaused (pause_gate s) = isPaused s
  /\ isCancelled (pause_gate s) = isCancelled s
  /\ (isPaused s = true ->
      tasks (pause_gate s) = tasks s /\ active (pause_gate s) = active s).
Proof.
  unfold pause_gate. destruct (isPaused s) eqn:Ep, (isCancelled s) eqn:Ec;
    simpl; try rewrite Ec;
    try (destruct (flags_after_loop s) as (A & B & C & D);
         rewrite A, B, C, D, ?Ep, ?Ec; auto);
    try (repeat split; auto; discriminate).
  destruct (flags_fill_slots (queue s) s) as (A & B & _).
  rewrite A, B, Ep, Ec. repeat split; discriminate.
Qed.

Lemma flags_loop_top s :
  isPaused (loop_top s) = isPaused s
  /\ isCancelled (loop_top s) = isCancelled s
  /\ (isPaused s = true ->
      tasks (loop_top s) = tasks s /\ active (loop_top s) = active s).
Proof.
  unfold loop_top.
  destruct (negb (isCancelled s)
            && (negb (is_nil (queue s)) || negb (is_nil (active s))));
    [apply flags_pause_gate|].
  destruct (flags_after_loop s) as (A & B & C & D). auto.
Qed.

Lemma flags_addToQueue items s :
  isPaused (fst (addToQueue items s)) = isPaused s
  /\ isCancelled (fst (addToQueue items s)) = isCancelled s
  /\ loop (fst (addToQueue items s)) = loop s
  /\ tasks (fst (addToQueue items s)) = tasks s
  /\ active (fst (addToQueue items s)) = active s.
Proof.
  unfold addToQueue, emitProgress. simpl.
  destruct (onProgress (cfg s)); repeat split.
Qed.

(** X4: pause holds the queue.  While [isPaused] is set, no step other
    than a call of [start] (which clears the flag) begins a [processItem]
    invocation or adds an item to [active]; downloads in flight may still
    settle. *)
Theorem pause_holds_the_queue e s s' :
  step e s = Some s' -> isPaused s = true -> e <> EStart ->
  length (tasks s') = length (tasks s)
  /\ forall r, In r (active s') -> In r (active s).
Proof.
  intros Hstep Hp Hne.
  destruct e; simpl in Hstep; try (injection Hstep as <-);
    try (split; [reflexivity | auto]).
  - destruct (flags_addToQueue items s) as (_ & _ & _ & Ht & Ha).
    simpl in Ht, Ha. rewrite Ht, Ha. auto.
  - contradiction.
  - unfold cancel. simpl. split; [|intros r []].
    destruct (abort_active_frame (set_isPaused false (set_isCancelled true s)))
      as (_ & B & _).
    apply (f_equal v_tasks) in B. simpl in B. rewrite B. reflexivity.
  - destruct (loop s); try discriminate;
      match type of Hstep with (if ?b then _ else _) = _ => destruct b end;
      try discriminate; injection Hstep as <-.
    + destruct (flags_pause_gate s) as (_ & _ & H).
      destruct (H Hp) as [-> ->]. auto.
    + destruct (flags_loop_top s) as (_ & _ & H).
      destruct (H Hp) as [-> ->]. auto.
    + destruct (flags_after_loop s) as (_ & _ & -> & ->). auto.
  - destruct (tasks s !! k) as [[item p]|] eqn:Hk; try discriminate.
    destruct p; try discriminate. injection Hstep as <-.
    unfold on_download_reply. destruct (downloadFile r) as [[|n]|msg].
    + apply flags_failure.
    + simpl. rewrite length_insert. auto.
    + apply flags_failure.
  - destruct (tasks s !! k) as [[item p]|] eqn:Hk; try discriminate.
    destruct p; try discriminate. injection Hstep as <-.
    unfold on_search_reply. destruct (checkStatus r) as [[msg|]|].
    + apply flags_failure.
    + apply flags_success.
    + auto.
  - destruct (tasks s !! k) as [[item p]|] eqn:Hk; try discriminate.
    destruct p; try discriminate.
    destruct (until <=? now s)%N; try discriminate. injection Hstep as <-.
    simpl. rewrite length_insert. auto.
Qed.

(** X5: cancellation is sticky.  Once [isCancelled] is set, every step
    leaves it set and [getStatus] answers [cancelled], whatever else
    happens (pause, resume, enqueue, settlements, timers); only a call of
    [start] with something queued or active clears it. *)
Theorem cancelled_is_sticky e s s' :
  step e s = Some s' -> isCancelled s = true ->
  (e = EStart -> queue s = [] /\ active s = []) ->
  isCancelled s' = true /\ getStatus s' = StCancelled.
Proof.
  intros Hstep Hc Hstart.
  assert (H : isCancelled s' = true);
    [|split; [exact H | unfold getStatus; rewrite H; reflexivity]].
  destruct e; simpl in Hstep; try (injection Hstep as <-); try exact Hc.
  - destruct (flags_addToQueue items s) as (_ & Hf & _).
    simpl in Hf. rewrite Hf. exact Hc.
  - destruct (loop s); try discriminate. injection Hstep as <-.
    destruct (Hstart eq_refl) as [Hq Ha]. unfold start. rewrite Hq, Ha. simpl.
    destruct (flags_emitComplete s) as (_ & -> & _). exact Hc.
  - unfold cancel. simpl.
    destruct (abort_active_frame (set_isPaused false (set_isCancelled true s)))
      as (_ & _ & _ & _ & -> & _). reflexivity.
  - destruct (loop s); try discriminate;
      match type of Hstep with (if ?b then _ else _) = _ => destruct b end;
      try discriminate; injection Hstep as <-.
    + destruct (flags_pause_gate s) as (_ & -> & _). exact Hc.
    + destruct (flags_loop_top s) as (_ & -> & _). exact Hc.
    + destruct (flags_after_loop s) as (_ & -> & _). exact Hc.
  - destruct (tasks s !! k) as [[item p]|] eqn:Hk; try discriminate.
    destruct p; try discriminate. injection Hstep as <-.
    unfold on_download_reply. destruct (downloadFile r) as [[|n]|msg].
    + destruct (flags_failure k item "Failed to initiate download" s)
        as (_ & -> & _). exact Hc.
    + exact Hc.
    + destruct (flags_failure k item msg s) as (_ & -> & _). exact Hc.
  - destruct (tasks s !! k) as [[item p]|] eqn:Hk; try discriminate.
    destruct p; try discriminate. injection Hstep as <-.
    unfold on_search_reply. destruct (checkStatus r) as [[msg|]|].
    + destruct (flags_failure k item msg s) as (_ & -> & _). exact Hc.
    + destruct (flags_success k item s) as (_ & -> & _). exact Hc.
    + exact Hc.
  - destruct (tasks s !! k) as [[item p]|] eqn:Hk; try discriminate.
    destruct p; try discriminate.
    destruct (until <=? now s)%N; try discriminate. injection Hstep as <-.
    exact Hc.
Qed.
Lemma tidy_frame s s' :
  loop s' = loop s -> out s' = out s -> Tidy s -> Tidy s'.
Proof. unfold Tidy. intros -> ->. auto. Qed.

Lemma tidy_emit o s : drained o -> Tidy s -> Tidy (emit o s).
Proof.
  unfold Tidy. intros Ho [Hl Hout]. simpl. split; [exact Hl|].
  constructor; assumption.
Qed.

Lemma tidy_emitProgress s : Tidy s -> Tidy (emitProgress s).
Proof.
  intros H. unfold emitProgress. destruct (onProgress (cfg s)); [|exact H].
  apply tidy_emit; [exact I | exact H].
Qed.

Lemma tidy_emitComplete s :
  queue s = [] -> active s = [] -> Tidy s -> Tidy (emitComplete s).
Proof.
  intros Hq Ha H. unfold emitComplete.
  destruct (onComplete (cfg s)); [|exact H].
  apply tidy_emit; [|exact H]. simpl. rewrite Hq, Ha. auto.
Qed.

Ltac tidy_peel :=
  first
    [ assumption
    | apply tidy_emitProgress
    | apply tidy_emit; [exact I|]
    | match goal with
      | |- Tidy (if ?b then _ else _) => destruct b
      | |- Tidy (match ?x with _ => _ end) => destruct x
      | |- Tidy (set_queue _ ?s) => apply (tidy_frame s); [reflexivity..|]
      | |- Tidy (set_active _ ?s) => apply (tidy_frame s); [reflexivity..|]
      | |- Tidy (set_completed _ ?s) => apply (tidy_frame s); [reflexivity..|]
      | |- Tidy (set_failed _ ?s) => apply (tidy_frame s); [reflexivity..|]
      | |- Tidy (set_isPaused _ ?s) => apply (tidy_frame s); [reflexivity..|]
      | |- Tidy (set_isCancelled _ ?s) =>
          apply (tidy_frame s); [reflexivity..|]
      | |- Tidy (set_heap _ ?s) => apply (tidy_frame s); [reflexivity..|]
      | |- Tidy (update _ _ ?s) => apply (tidy_frame s); [reflexivity..|]
      | |- Tidy (set_tasks _ ?s) => apply (tidy_frame s); [reflexivity..|]
      | |- Tidy (set_enqueued _ ?s) => apply (tidy_frame s); [reflexivity..|]
      | |- Tidy (set_now _ ?s) => apply (tidy_frame s); [reflexivity..|]
      end ].

Ltac tidy_go := repeat tidy_peel.

Lemma tidy_processItem_begin item s : Tidy s -> Tidy (processItem_begin item s).
Proof. intros H. unfold processItem_begin. tidy_go. Qed.

Lemma tidy_processItem_catch item msg s :
  Tidy s -> Tidy (processItem_catch item msg s).
Proof. intros H. unfold processItem_catch. tidy_go. Qed.

Lemma tidy_processItem_finally k item s :
  Tidy s -> Tidy (processItem_finally k item s).
Proof. intros H. unfold processItem_finally. tidy_go. Qed.

Lemma tidy_fill_slots (l : list ref) s : Tidy s -> Tidy (fill_slots l s).
Proof.
  revert s. induction l as [|item rest IH]; intros s H; simpl; [exact H|].
  destruct (length (active s) <? maxConcurrent (cfg s)); [|exact H].
  apply IH, tidy_processItem_begin. tidy_go.
Qed.

Lemma tidy_abort_active s : Tidy s -> Tidy (abort_active s).
Proof.
  unfold abort_active. generalize (active s) as l. intros l. revert s.
  induction l as [|a l IH]; intros s H; simpl; [exact H|].
  apply IH. tidy_go.
Qed.

Lemma is_nil_true {A} (l : list A) : is_nil l = true -> l = [].
Proof. destruct l; [reflexivity | discriminate]. Qed.

Lemma tidy_after_loop s :
  isCancelled s = true \/ (queue s = [] /\ active s = []) ->
  Tidy s -> Tidy (after_loop s).
Proof.
  intros Hpre H. unfold after_loop.
  destruct (isCancelled s) eqn:Ec.
  - rewrite andb_false_r.
    destruct H as [Hl Ho]. split; [exact I | exact Ho].
  - destruct Hpre as [Hx | [Hq Ha]]; [discriminate|].
    rewrite Ha. simpl.
    pose proof (tidy_emitComplete s Hq Ha H) as [_ Ho].
    split; [exact I | exact Ho].
Qed.

Lemma tidy_pause_gate s : Tidy s -> Tidy (pause_gate s).
Proof.
  intros H. unfold pause_gate.
  destruct (isPaused s && negb (isCancelled s)).
  - destruct H as [_ Ho]. split; [exact I | exact Ho].
  - destruct (isCancelled s) eqn:Ec.
    + apply tidy_after_loop; auto.
    + pose proof (tidy_fill_slots (queue s) s H) as [_ Ho].
      split; [exact I | exact Ho].
Qed.

Lemma tidy_loop_top s : Tidy s -> Tidy (loop_top s).
Proof.
  intros H. unfold loop_top.
  destruct (isCancelled s) eqn:Ec; simpl.
  - apply tidy_after_loop; auto.
  - destruct (is_nil (queue s)) eqn:Eq; simpl;
      [|apply tidy_pause_gate; exact H].
    destruct (is_nil (active s)) eqn:Ea; simpl;
      [|apply tidy_pause_gate; exact H].
    apply tidy_after_loop; [|exact H].
    right. split; apply is_nil_true; assumption.
Qed.

Lemma tidy_step e s s' : step e s = Some s' -> Tidy s -> Tidy s'.
Proof.
  intros Hstep H.
  destruct e; simpl in Hstep; try (injection Hstep as <-).
  - unfold emitProgress at 1. tidy_go.
  - destruct (loop s); try discriminate. injection Hstep as <-.
    unfold start.
    destruct (is_nil (queue s)) eqn:Eq; simpl.
    + destruct (is_nil (active s)) eqn:Ea; simpl.
      * apply tidy_emitComplete; auto using is_nil_true.
      * apply tidy_loop_top. tidy_go.
    + apply tidy_loop_top. tidy_go.
  - unfold pause. tidy_go.
  - unfold resume. tidy_go.
  - unfold cancel. tidy_go. apply tidy_abort_active. tidy_go.
  - tidy_go.
  - destruct (loop s) eqn:El; try discriminate;
      match type of Hstep with (if ?b then _ else _) = _ => destruct b end;
      try discriminate; injection Hstep as <-.
    + apply tidy_pause_gate. exact H.
    + apply tidy_loop_top. exact H.
    + destruct H as [Hl _]. rewrite El in Hl. contradiction.
  - destruct (tasks s !! k) as [[item p]|] eqn:Hk; try discriminate.
    destruct p; try discriminate. injection Hstep as <-.
    unfold on_download_reply, processItem_failure.
    destruct (downloadFile r) as [[|n]|msg];
      [apply tidy_processItem_finally, tidy_processItem_catch; exact H
      | tidy_go
      | apply tidy_processItem_finally, tidy_processItem_catch; exact H].
  - destruct (tasks s !! k) as [[item p]|] eqn:Hk; try discriminate.
    destruct p; try discriminate. injection Hstep as <-.
    unfold on_search_reply, processItem_failure, processItem_success.
    destruct (checkStatus r) as [[msg|]|];
      [apply tidy_processItem_finally, tidy_processItem_catch; exact H
      | apply tidy_processItem_finally; tidy_go
      | exact H].
  - destruct (tasks s !! k) as [[item p]|] eqn:Hk; try discriminate.
    destruct p; try discriminate.
    destruct (until <=? now s)%N; try discriminate. injection Hstep as <-.
    tidy_go.
Qed.

(** X6: completion means drained.  Every snapshot handed to [onComplete]
    has nothing queued and nothing downloading, so its total is the
    completed plus the failed items; and [start] never sleeps in its
    final wait for active downloads (lines 98-100): when the main loop
    ends without cancellation, [active] is already empty. *)
Theorem completion_means_drained options es s :
  reaches options es s ->
  (forall p, In (OutComplete p) (out s) ->
             p_queued p = 0 /\ p_downloading p = 0
             /\ p_total p = p_completed p + p_failed p)
  /\ (forall t, loop s <> Drain t).
Proof.
  intros H.
  assert (HT : Tidy s).
  { unfold reaches, run_from in H.
    assert (H0 : Tidy (init options new_manager))
      by (split; [exact I | constructor]).
    revert H0 H. generalize (init options new_manager) as s0.
    induction es as [|e es IH]; intros s0 H0 Hrun; simpl in Hrun.
    - injection Hrun as <-. exact H0.
    - destruct (step e s0) as [s1|] eqn:E; [|discriminate].
      apply (IH s1); [eapply tidy_step; eauto | exact Hrun]. }
  destruct HT as [Hl Ho]. split.
  - intros p Hin. rewrite List.Forall_forall in Ho. apply (Ho _ Hin).
  - intros t Ht. rewrite Ht in Hl. exact Hl.
Qed.

Lemma completion_means_drained_witness :
  reaches default_options plain_run plain_state
  /\ loop plain_state <> Drain 0.
Proof.
  assert (H : reaches default_options plain_run plain_state)
    by (vm_compute; reflexivity).
  split; [exact H|].
  destruct (completion_means_drained default_options plain_run plain_state H)
    as [_ Hl].
  exact (Hl 0%N).
Defined.

Lemma pause_holds_the_queue_witness :
  step ELoopWake (pause (set_now 50 retry_state))
  = Some (pause_gate (pause (set_now 50 retry_state)))
  /\ isPaused (pause (set_now 50 retry_state)) = true
  /\ length (tasks (pause_gate (pause (set_now 50 retry_state))))
     = length (tasks (pause (set_now 50 retry_state))).
Proof.
  assert (H : step ELoopWake (pause (set_now 50 retry_state))
              = Some (pause_gate (pause (set_now 50 retry_state))))
    by (vm_compute; reflexivity).
  assert (Hp : isPaused (pause (set_now 50 retry_state)) = true)
    by reflexivity.
  split; [exact H|]. split; [exact Hp|].
  refine (proj1 (pause_holds_the_queue ELoopWake _ _ H Hp _)).
  discriminate.
Defined.

Lemma cancelled_is_sticky_witness :
  step EPause (cancel plain_state) = Some (pause (cancel plain_state))
  /\ isCancelled (cancel plain_state) = true
  /\ getStatus (pause (cancel plain_state)) = StCancelled.
Proof.
  assert (H : step EPause (cancel plain_state)
              = Some (pause (cancel plain_state))) by reflexivity.
  assert (Hc : isCancelled (cancel plain_state) = true) by reflexivity.
  split; [exact H|]. split; [exact Hc|].
  refine (proj2 (cancelled_is_sticky EPause _ _ H Hc _)).
  discriminate.
Defined.
(** ** The names that the background worker generates *)

Abbreviation allowed := (fun c : ascii => disallowed c = false).

Lemma dec_clean (n : N) : Forall allowed (dec n).
Proof.
  unfold dec. generalize (N.to_uint n) as d.
  induction d as [|d IH|d IH|d IH|d IH|d IH|d IH|d IH|d IH|d IH|d IH];
    simpl; constructor; auto.
Qed.

Lemma sanitize_fixed (s : chars) : Forall allowed s -> sanitize s = s.
Proof.
  unfold sanitize. induction 1 as [|c s Hc _ IH]; simpl; [reflexivity|].
  rewrite Hc, IH. reflexivity.
Qed.

Lemma sanitize_app (a b : chars) :
  sanitize (a ++ b) = sanitize a ++ sanitize b.
Proof. unfold sanitize. apply map_app. Qed.

Lemma chars_eqb_refl (a : chars) : chars_eqb a a = true.
Proof.
  unfold chars_eqb. destruct (List.list_eq_dec ascii_dec a a);
    [reflexivity | contradiction].
Qed.

Lemma ends_with_ci_app (p s : chars) : ends_with_ci p (s ++ p) = true.
Proof.
  unfold ends_with_ci. rewrite length_app.
  replace (length s + length p - length p) with (length s) by lia.
  rewrite drop_app_length, chars_eqb_refl.
  apply andb_true_iff. split; [apply Nat.leb_le; lia | reflexivity].
Qed.

Lemma ends_with_ci_suffix (p a b : chars) :
  length p <= length b ->
  ends_with_ci p (a ++ b) = ends_with_ci p b.
Proof.
  intros H. unfold ends_with_ci. rewrite length_app.
  replace (length a + length b - length p)
    with (length a + (length b - length p)) by lia.
  rewrite drop_app_add'; [|reflexivity].
  f_equal. transitivity true; [|symmetry]; apply Nat.leb_le; lia.
Qed.

Lemma disallowed_lower (c : ascii) : disallowed c = true -> lower c = c.
Proof.
  destruct c as [b0 b1 b2 b3 b4 b5 b6 b7].
  destruct b0, b1, b2, b3, b4, b5, b6, b7; vm_compute; intros H;
    first [reflexivity | discriminate H].
Qed.

(** A text that reads like [p] up to case, [p] made of letters, digits
    and dots, holds no disallowed character. *)
Lemma reads_like_clean (t p : chars) :
  Forall (fun x => disallowed (lower x) = false) p ->
  map lower t = map lower p -> Forall allowed t.
Proof.
  intros Hp. revert t. induction Hp as [|x p Hx _ IH]; intros [|c t] E;
    simpl in E; try discriminate; constructor.
  - injection E as Ec _. destruct (disallowed c) eqn:D; [|reflexivity].
    rewrite (disallowed_lower c D) in Ec. congruence.
  - injection E as _ E. apply IH. exact E.
Qed.

Lemma ends_with_ci_sanitize (p s : chars) :
  Forall (fun x => disallowed (lower x) = false) p ->
  ends_with_ci p s = true -> ends_with_ci p (sanitize s) = true.
Proof.
  intros Hp H. unfold ends_with_ci in *. rewrite sanitize_length.
  apply andb_true_iff in H as [Hl He]. rewrite Hl. simpl.
  apply chars_eqb_eq in He.
  assert (Hs : drop (length s - length p) (sanitize s)
               = drop (length s - length p) s).
  { unfold sanitize. change (map ?f s) with (f <$> s).
    rewrite <- fmap_drop. apply sanitize_fixed.
    eapply reads_like_clean; eauto. }
  rewrite Hs, He. apply chars_eqb_refl.
Qed.

Lemma media_exts_safe (e : chars) :
  In e media_exts ->
  Forall (fun x => disallowed (lower x) = false) ("."%char :: e).
Proof.
  intros H. repeat (destruct H as [<-|H]; [repeat constructor|]).
  destruct H.
Qed.

Lemma has_media_ext_sanitize (s : chars) :
  has_media_ext s = true -> has_media_ext (sanitize s) = true.
Proof.
  unfold has_media_ext. intros H. apply existsb_exists in H as (e & He & H).
  apply existsb_exists. exists e. split; [exact He|].
  apply ends_with_ci_sanitize; [apply media_exts_safe; exact He | exact H].
Qed.

Lemma has_media_ext_default (url s : chars) :
  has_media_ext (s ++ default_ext url) = true.
Proof.
  unfold has_media_ext, default_ext. apply existsb_exists.
  destruct (isVideo url).
  - exists (lit "mp4"). split; [vm_compute; tauto|].
    apply (ends_with_ci_app (lit ".mp4")).
  - exists (lit "jpg"). split; [vm_compute; tauto|].
    apply (ends_with_ci_app (lit ".jpg")).
Qed.

(** Lines 443-454 of the worker: the name gets a media extension and
    loses its disallowed characters. *)
Lemma finish_typed (url filename : chars) :
  let r := sanitize (if has_media_ext filename then filename
                     else filename ++ default_ext url) in
  has_media_ext r = true /\ Forall allowed r.
Proof.
  simpl. split; [|apply sanitize_clean].
  apply has_media_ext_sanitize.
  destruct (has_media_ext filename) eqn:E; [exact E|].
  apply has_media_ext_default.
Qed.

Lemma caught_typed (x : chars) :
  has_media_ext (lit "media_" ++ x ++ lit ".jpg") = true.
Proof.
  unfold has_media_ext. apply existsb_exists. exists (lit "jpg").
  split; [vm_compute; tauto|].
  rewrite app_assoc. apply (ends_with_ci_app (lit ".jpg")).
Qed.

Lemma has_media_ext_nonempty (s : chars) : has_media_ext s = true -> s <> [].
Proof.
  intros H. apply has_media_ext_dot in H. intros ->. discriminate.
Qed.

Lemma generateFilename_from_typed pathname now url id :
  has_media_ext (generateFilename_from pathname now url id) = true.
Proof.
  unfold generateFilename_from.
  destruct pathname as [path|]; [|apply caught_typed].
  destruct id as [t|], (last_segment path) as [seg|];
    first [apply finish_typed | apply caught_typed].
Qed.

(** X7: whatever the URL and the id, [generateFilename] answers a
    non-empty name that ends with one of the media extensions; the name
    holds no disallowed character whenever the URL parses, and also when
    it does not unless the id is a string. *)
Theorem generateFilename_is_a_media_name :
  (forall pathname now url id,
      has_media_ext (generateFilename_from pathname now url id) = true
      /\ generateFilename_from pathname now url id <> [])
  /\ (forall path now url id,
         Forall (fun c => disallowed c = false)
           (generateFilename_from (Some path) now url id))
  /\ (forall now url n,
         Forall (fun c => disallowed c = false)
           (generateFilename_from None now url (Some (TagNum n)))
         /\ Forall (fun c => disallowed c = false)
              (generateFilename_from None now url None)).
Proof.
  assert (Hnum : forall id now,
            match id with Some (TagStr _) => False | _ => True end ->
            Forall allowed (lit "media_" ++ tag_or_now id now ++ lit ".jpg")).
  { intros id now Hid. apply Forall_app. split; [repeat constructor|].
    apply Forall_app. split; [|repeat constructor].
    destruct id as [[[|p]|s]|]; simpl; try contradiction; apply dec_clean. }
  split; [|split].
  - intros pathname now url id.
    pose proof (generateFilename_from_typed pathname now url id) as H.
    split; [exact H | apply has_media_ext_nonempty; exact H].
  - intros path now url id. unfold generateFilename_from.
    destruct id as [t|], (last_segment path) as [seg|];
      first [apply sanitize_clean | apply (Hnum None now); exact I].
  - intros now url n. split.
    + apply (Hnum (Some (TagNum n)) now). exact I.
    + apply (Hnum None now). exact I.
Qed.

Lemma generateFilename_numbered (path : chars) now url (n : N) :
  exists rest,
    generateFilename_from (Some path) now url (Some (TagNum n))
    = dec n ++ "_"%char :: rest.
Proof.
  unfold generateFilename_from. simpl.
  assert (H : forall f, exists rest,
            sanitize (if has_media_ext (dec n ++ "_"%char :: f)
                      then dec n ++ "_"%char :: f
                      else (dec n ++ "_"%char :: f) ++ default_ext url)
            = dec n ++ "_"%char :: rest).
  { intros f. destruct (has_media_ext (dec n ++ "_"%char :: f)).
    - rewrite sanitize_app, (sanitize_fixed (dec n)) by apply dec_clean.
      simpl. eauto.
    - rewrite <- app_assoc, sanitize_app,
        (sanitize_fixed (dec n)) by apply dec_clean.
      simpl. eauto. }
  destruct (last_segment path); apply H.
Qed.

(** X8: the index in front keeps generated names apart: for URLs that
    parse, two names generated with different numbers differ. *)
Theorem generateFilename_prefix_tells_apart path now url path' now' url' i j :
  generateFilename_from (Some path) now url (Some (TagNum i))
  = generateFilename_from (Some path') now' url' (Some (TagNum j)) ->
  i = j.
Proof.
  intros E.
  destruct (generateFilename_numbered path now url i) as [r Hr].
  destruct (generateFilename_numbered path' now' url' j) as [r' Hr'].
  rewrite Hr, Hr' in E.
  apply cut_at_underscore in E as [E _]; try apply dec_no_underscore.
  apply dec_inj. exact E.
Qed.

Lemma generateFilename_prefix_tells_apart_witness :
  generateFilename_from (Some (lit "/a.jpg")) 0 (lit "https://x/a.jpg")
    (Some (TagNum 4))
  = generateFilename_from (Some (lit "/a.jpg")) 9 (lit "https://x/a.jpg")
      (Some (TagNum 4))
  /\ 4%N = 4%N.
Proof.
  assert (H : generateFilename_from (Some (lit "/a.jpg")) 0
                (lit "https://x/a.jpg") (Some (TagNum 4))
              = generateFilename_from (Some (lit "/a.jpg")) 9
                  (lit "https://x/a.jpg") (Some (TagNum 4)))
    by reflexivity.
  split; [exact H|].
  exact (generateFilename_prefix_tells_apart _ _ _ _ _ _ _ _ H).
Defined.

Lemma has_media_ext_suffix (a b : chars) :
  5 <= length b -> has_media_ext (a ++ b) = has_media_ext b.
Proof.
  intros H. unfold has_media_ext, media_exts. simpl.
  rewrite !ends_with_ci_suffix by (simpl; lia). reflexivity.
Qed.

(** X9: a URL without a path segment, given an id, is named after the
    word [undefined]: the missing segment is rendered into the template.
    For instance [generateFilename("https://cdn.example/", 3)] is
    [3_undefined.jpg]. *)
Theorem generateFilename_undefined_segment path now url t :
  last_segment path = None ->
  generateFilename_from (Some path) now url (Some t)
  = sanitize (render t) ++ lit "_undefined" ++ default_ext url.
Proof.
  intros H. unfold generateFilename_from. rewrite H.
  rewrite (has_media_ext_suffix (render t) (lit "_" ++ lit "undefined"))
    by (simpl; lia).
  change (has_media_ext (lit "_" ++ lit "undefined")) with false.
  cbv iota. rewrite <- !app_assoc, !sanitize_app.
  rewrite (sanitize_fixed (default_ext url)) by apply default_ext_clean.
  reflexivity.
Qed.

Lemma generateFilename_undefined_segment_witness :
  last_segment (lit "/") = None
  /\ generateFilename 0 "https://cdn.example/" (Some (TagNum 3))
     = "3_undefined.jpg"%string.
Proof.
  assert (H : last_segment (lit "/") = None) by reflexivity.
  split; [exact H|].
  unfold generateFilename.
  change (Url.pathname "https://cdn.example/") with (Some (lit "/")).
  rewrite (generateFilename_undefined_segment (lit "/") 0
             (lit "https://cdn.example/") (TagNum 3) H).
  reflexivity.
Defined.
(** ** The duplicates that [collectImageUrls] removes *)

Lemma map_has_In {V} (key : string) (m : list (string * V)) :
  map_has key m = true <-> In key (map fst m).
Proof.
  unfold map_has. rewrite existsb_exists, List.in_map_iff. split.
  - intros (kv & Hin & E). apply String.eqb_eq in E. eauto.
  - intros (kv & E & Hin). exists kv. split; [exact Hin|].
    apply String.eqb_eq. exact E.
Qed.

Lemma map_set_new {V} (key : string) (value : V) (m : list (string * V)) :
  ~ In key (map fst m) -> map_set key value m = m ++ [(key, value)].
Proof.
  induction m as [|[k v] m IH]; simpl; intros H; [reflexivity|].
  destruct (String.eqb k key) eqn:E.
  - apply String.eqb_eq in E. tauto.
  - rewrite IH by tauto. reflexivity.
Qed.

Lemma set_has_In (u : chars) (l : list chars) :
  set_has u l = true <-> In u l.
Proof.
  unfold set_has. rewrite existsb_exists. split.
  - intros (x & Hin & E). apply chars_eqb_eq in E. subst. exact Hin.
  - intros H. exists u. split; [exact H | apply chars_eqb_refl].
Qed.

Lemma Deduped_empty : Deduped [] (mkSeen [] []).
Proof.
  constructor; simpl; try constructor; contradiction.
Qed.

(** An entry that changes nothing, its url being empty or known. *)
Lemma Deduped_skip done acc img :
  Deduped done acc ->
  (forall u, truthy (found_url img) = Some u ->
     In u (map fst (uniqueUrls acc))
     \/ exists uuid, getMediaUuid (lit u) = Some uuid
                     /\ In uuid (seenUuids acc)) ->
  Deduped (done ++ [img]) acc.
Proof.
  intros [Hsub Hkey Hseen Hkeys Huu Hcov] Himg. constructor; auto.
  - apply sublist_inserts_r. exact Hsub.
  - intros img' u Hin Hu. apply in_app_or in Hin as [Hin|[<-|[]]]; eauto.
Qed.

(** An entry that is kept: it goes to the end of the map. *)
Lemma Deduped_keep done acc img u seen :
  Deduped done acc ->
  truthy (found_url img) = Some u ->
  ~ In u (map fst (uniqueUrls acc)) ->
  match getMediaUuid (lit u) with
  | Some uuid => ~ In uuid (seenUuids acc) /\ seen = seenUuids acc ++ [uuid]
  | None => seen = seenUuids acc
  end ->
  Deduped (done ++ [img]) (mkSeen (map_set u img (uniqueUrls acc)) seen).
Proof.
  intros [Hsub Hkey Hseen Hkeys Huu Hcov] Hu Hnew Hid.
  rewrite (map_set_new u img _ Hnew).
  assert (Hcases :
    seen = seenUuids acc
           ++ omap (fun kv : string * Found => getMediaUuid (lit (fst kv)))
                [(u, img)]
    /\ NoDup seen).
  { simpl. destruct (getMediaUuid (lit u)) as [uuid|].
    - destruct Hid as [Hfresh ->]. split; [reflexivity|].
      apply NoDup_app. split; [exact Huu|]. split; [|apply NoDup_singleton].
      intros x Hx Hx'. apply list_elem_of_singleton in Hx'. subst x.
      apply Hfresh, list_elem_of_In, Hx.
    - subst seen. rewrite app_nil_r. split; [reflexivity | exact Huu]. }
  destruct Hcases as [Eseen Hnd].
  constructor; simpl.
  - rewrite map_app. apply sublist_app; [exact Hsub | reflexivity].
  - apply Forall_app. split; [exact Hkey|]. repeat constructor. exact Hu.
  - rewrite omap_app, <- Hseen. exact Eseen.
  - rewrite map_app. apply NoDup_app. split; [exact Hkeys|].
    split; [|apply NoDup_singleton].
    intros x Hx Hx'. apply list_elem_of_singleton in Hx'. subst x.
    apply Hnew, list_elem_of_In, Hx.
  - exact Hnd.
  - intros img' u' Hin Hu'. rewrite map_app.
    apply in_app_or in Hin as [Hin|[<-|[]]].
    + destruct (Hcov img' u' Hin Hu') as [H|(uuid & H1 & H2)].
      * left. apply in_or_app. left. exact H.
      * right. exists uuid. split; [exact H1|].
        rewrite Eseen. apply in_or_app. left. exact H2.
    + left. apply in_or_app. right. left. simpl. congruence.
Qed.

Lemma Deduped_step done acc img :
  Deduped done acc -> Deduped (done ++ [img]) (dedupe_step acc img).
Proof.
  intros H. unfold dedupe_step.
  destruct (truthy (found_url img)) as [u|] eqn:Hu.
  2:{ apply Deduped_skip; [exact H|]. intros u Hu'. congruence. }
  destruct (getMediaUuid (lit u)) as [uuid|] eqn:Hid.
  - destruct (set_has uuid (seenUuids acc)) eqn:Hs.
    + apply Deduped_skip; [exact H|]. intros u' Hu'.
      assert (u' = u) by congruence. subst u'.
      right. exists uuid. split; [exact Hid|]. apply set_has_In. exact Hs.
    + assert (Hfresh : ~ In uuid (seenUuids acc)).
      { intros Hin. apply set_has_In in Hin. congruence. }
      apply (Deduped_keep done acc img u); auto.
      * intros Hin. apply Hfresh. rewrite (dd_seen _ _ H).
        apply List.in_map_iff in Hin as (kv & E & Hin).
        apply list_elem_of_In, list_elem_of_omap. exists kv.
        split; [apply list_elem_of_In; exact Hin|]. rewrite E. exact Hid.
      * rewrite Hid. auto.
  - destruct (map_has u (uniqueUrls acc)) eqn:Hm.
    + apply Deduped_skip; [exact H|]. intros u' Hu'.
      assert (u' = u) by congruence. subst u'.
      left. apply map_has_In. exact Hm.
    + apply (Deduped_keep done acc img u); auto.
      * intros Hin. apply map_has_In in Hin. congruence.
      * rewrite Hid. reflexivity.
Qed.

Lemma Deduped_fold images : forall done acc,
  Deduped done acc ->
  Deduped (done ++ images) (fold_left dedupe_step images acc).
Proof.
  induction images as [|img images IH]; intros done acc H; simpl.
  - rewrite app_nil_r. exact H.
  - replace (done ++ img :: images) with ((done ++ [img]) ++ images)
      by (rewrite <- app_assoc; reflexivity).
    apply IH, Deduped_step, H.
Qed.

Lemma Deduped_all images :
  Deduped images (fold_left dedupe_step images (mkSeen [] [])).
Proof. apply (Deduped_fold images [] _ Deduped_empty). Qed.


Lemma dedupe_urls images :
  Forall (fun e => truthy (found_url e) <> None) (dedupe images)
  /\ NoDup (map found_url (dedupe images)).
Proof.
  pose proof (Deduped_all images) as [_ Hkey _ Hkeys _ _].
  unfold dedupe.
  set (m := uniqueUrls (fold_left dedupe_step images (mkSeen [] []))) in *.
  split.
  - apply List.Forall_forall. intros e Hin.
    apply List.in_map_iff in Hin as (kv & <- & Hin).
    rewrite List.Forall_forall in Hkey. rewrite (Hkey kv Hin). discriminate.
  - apply (NoDup_fmap_1 truthy).
    assert (E : truthy <$> map found_url (map snd m) = Some <$> map fst m).
    { clear Hkeys. induction Hkey as [|kv m' Hkv _ IH]; [reflexivity|].
      simpl. rewrite Hkv. f_equal. exact IH. }
    rewrite E. apply NoDup_fmap_2; [|exact Hkeys].
    intros x y. congruence.
Qed.

(** ** What never changes in an item *)

Lemma identity_alter (f : Item -> Item) (h : list Item) (item r : ref) it :
  (forall i, id (f i) = id i /\ url (f i) = url i
             /\ filename (f i) = filename i /\ subfolder (f i) = subfolder i
             /\ retries i <= retries (f i)) ->
  h !! r = Some it ->
  exists it', alter f item h !! r = Some it'
    /\ id it' = id it /\ url it' = url it /\ filename it' = filename it
    /\ subfolder it' = subfolder it /\ retries it <= retries it'.
Proof.
  intros Hf Hr. destruct (Nat.eq_dec item r) as [->|Hne].
  - exists (f it). rewrite list_lookup_alter_eq, Hr. split; [reflexivity|].
    apply Hf.
  - exists it. rewrite list_lookup_alter_ne by assumption.
    repeat split; auto.
Qed.

Lemma identity_kept q es s s' :
  Inv q s -> run es s = Some s' ->
  forall r it,
    heap s !! r = Some it ->
    exists it', heap s' !! r = Some it'
      /\ id it' = id it /\ url it' = url it /\ filename it' = filename it
      /\ subfolder it' = subfolder it /\ retries it <= retries it'.
Proof.
  intros HI Hrun.
  apply (run_invariant
           (fun _ v => forall r it,
              heap s !! r = Some it ->
              exists it', v_heap v !! r = Some it'
                /\ id it' = id it /\ url it' = url it
                /\ filename it' = filename it
                /\ subfolder it' = subfolder it
                /\ retries it <= retries it') q es s s'); [|exact HI| |exact Hrun].
  - intros c v v' _ HP Hm r it Hr.
    destruct (HP r it Hr) as (it1 & H1 & Ei & Eu & Ef & Es & Hle).
    assert (Hstep : forall f item,
              (forall i, id (f i) = id i /\ url (f i) = url i
                 /\ filename (f i) = filename i
                 /\ subfolder (f i) = subfolder i
                 /\ retries i <= retries (f i)) ->
              exists it', alter f item (v_heap v) !! r = Some it'
                /\ id it' = id it /\ url it' = url it
                /\ filename it' = filename it
                /\ subfolder it' = subfolder it
                /\ retries it <= retries it').
    { intros f item Hf.
      destruct (identity_alter f (v_heap v) item r it1 Hf H1)
        as (it2 & H2 & A & B & C & D & E).
      exists it2. repeat split; try congruence. lia. }
    destruct Hm; simpl;
      try (exists it1; repeat split; assumption);
      try (apply Hstep; intros i; simpl; repeat split; lia).
    exists it1. rewrite lookup_app_l by (eapply lookup_lt_Some; eauto).
    repeat split; assumption.
  - intros r it Hr. exists it. repeat split; auto.
Qed.

(** X11: a run writes an item's [status], [retries] and [error] and
    nothing else: its [id], [url], [filename] and [subfolder] stay what
    [addToQueue] made them, the item stays at its place in the store,
    and its retry count never goes down. *)
Theorem items_keep_their_identity options es s es' s' r it :
  reaches options es s -> run es' s = Some s' ->
  heap s !! r = Some it ->
  exists it', heap s' !! r = Some it'
    /\ id it' = id it /\ url it' = url it /\ filename it' = filename it
    /\ subfolder it' = subfolder it /\ retries it <= retries it'.
Proof.
  intros H Hrun Hr.
  exact (identity_kept _ es' s s' (Inv_reaches _ _ _ H) Hrun r it Hr).
Qed.

Lemma items_keep_their_identity_witness :
  exists it', heap plain_state !! 0 = Some it'
    /\ filename it' = "a.jpg"%string.
Proof.
  pose (s0 := fst (addToQueue [item_A; item_B; item_C]
                     (init default_options new_manager))).
  assert (H : reaches default_options [EAddToQueue [item_A; item_B; item_C]]
                s0) by reflexivity.
  assert (Hrun : run [EStart; EDownloadReply 0 (ok_reply 7);
                      ESearchReply 0 StateComplete] s0 = Some plain_state)
    by (vm_compute; reflexivity).
  assert (Hr : heap s0 !! 0
               = Some (normalize 0 0 item_A)) by (vm_compute; reflexivity).
  destruct (items_keep_their_identity _ _ _ _ _ _ _ H Hrun Hr)
    as (it' & H' & _ & _ & Ef & _).
  exists it'. split; [exact H'|]. rewrite Ef. vm_compute. reflexivity.
Defined.

(** ** The batch of the background worker *)

Lemma truthy_nonempty o s : truthy o = Some s -> s <> EmptyString.
Proof.
  unfold truthy. destruct o as [x|]; [|discriminate].
  destruct (String.eqb x EmptyString) eqn:E; [discriminate|].
  intros [= <-]. apply String.eqb_neq. exact E.
Qed.

Lemma str_or_keep s d : s <> EmptyString -> str_or (Some s) d = s.
Proof.
  intros H. unfold str_or, truthy. apply String.eqb_neq in H.
  rewrite H. reflexivity.
Qed.

Lemma str_or_nonempty o d : d <> EmptyString -> str_or o d <> EmptyString.
Proof.
  intros H. unfold str_or. destruct (truthy o) as [s|] eqn:E; [|exact H].
  eapply truthy_nonempty; eauto.
Qed.

Lemma str_nonempty (l : chars) : l <> [] -> str l <> EmptyString.
Proof. destruct l; [congruence | discriminate]. Qed.

Lemma generateFilename_nonempty now url id :
  generateFilename now url id <> EmptyString.
Proof.
  apply str_nonempty, has_media_ext_nonempty, generateFilename_from_typed.
Qed.


Lemma prepare_normalize now clock i e :
  truthy (found_url e) <> None ->
  let it := normalize clock i (prepare now i e) in
  id it = str (lit "img_" ++ dec (N.of_nat i))
  /\ Some (url it) = truthy (found_url e)
  /\ filename it
     = str_or (found_filename e)
         (generateFilename now (url it) (Some (TagNum (N.of_nat i))))
  /\ filename it <> EmptyString
  /\ subfolder it = str_or (found_subfolder e) EmptyString.
Proof.
  intros Hu. simpl.
  assert (Hname : forall u,
            str_or (found_filename e)
              (generateFilename now u (Some (TagNum (N.of_nat i))))
            <> EmptyString)
    by (intros u; apply str_or_nonempty, generateFilename_nonempty).
  split; [apply str_or_keep; discriminate|].
  split; [unfold str_or; destruct (truthy (found_url e)); congruence|].
  rewrite str_or_keep by apply Hname.
  split; [reflexivity|]. split; [apply Hname|].
  unfold str_or at 1. unfold truthy at 1.
  destruct (String.eqb _ EmptyString) eqn:E; [|reflexivity].
  apply String.eqb_eq in E. symmetry. exact E.
Qed.

(** X12: the objects that [startDownload] builds reach the store as they
    are.  For the entry at index [i] of the list without duplicates, the
    manager keeps the id [img_<i>] and generates none, takes the entry's
    url, and takes as filename the entry's own or else the generated
    one, which is never empty: [extractFilename] is not consulted. *)
Theorem worker_items_are_taken_as_built now clock images i e :
  dedupe images !! i = Some e ->
  exists raw,
    downloadItems now images !! i = Some raw
    /\ id (normalize clock i raw) = str (lit "img_" ++ dec (N.of_nat i))
    /\ Some (url (normalize clock i raw)) = truthy (found_url e)
    /\ filename (normalize clock i raw)
       = str_or (found_filename e)
           (generateFilename now (url (normalize clock i raw))
              (Some (TagNum (N.of_nat i))))
    /\ filename (normalize clock i raw) <> EmptyString.
Proof.
  intros He. exists (prepare now i e). split.
  - unfold downloadItems. rewrite list_lookup_imap, He. reflexivity.
  - destruct (dedupe_urls images) as [Hu _].
    rewrite Forall_lookup in Hu.
    destruct (prepare_normalize now clock i e (Hu i e He))
      as (A & B & C & D & _).
    auto.
Qed.

Lemma worker_items_are_taken_as_built_witness :
  dedupe worker_images !! 1 = Some (shot "https://cdn.example/b.png")
  /\ exists raw,
       downloadItems 0 worker_images !! 1 = Some raw
       /\ filename (normalize 5 1 raw) = "1_b.png"%string.
Proof.
  assert (H : dedupe worker_images !! 1
              = Some (shot "https://cdn.example/b.png"))
    by (vm_compute; reflexivity).
  split; [exact H|].
  destruct (worker_items_are_taken_as_built 0 5 worker_images 1 _ H)
    as (raw & Hraw & _ & Hu & Hf & _).
  exists raw. split; [exact Hraw|]. rewrite Hf.
  assert (E : url (normalize 5 1 raw) = "https://cdn.example/b.png"%string)
    by (injection Hu as Hu; exact Hu).
  rewrite E. vm_compute. reflexivity.
Defined.



(** ** The outbound calls of a run *)

Section LoggedOf.
Variable c : Config.

Lemma logged_queue h q q' ts f os :
  Forall (fun r => r < length h) q' ->
  LoggedOf c h q ts f os -> LoggedOf c h q' ts f os.
Proof. intros Hq [_ A B C]. constructor; assumption. Qed.

Lemma request_for_alter (g : Item -> Item) base (h : list Item) item t :
  (forall i, url (g i) = url i /\ filename (g i) = filename i
             /\ subfolder (g i) = subfolder i) ->
  request_for base (alter g item h) t = request_for base h t
  /\ name_for (alter g item h) t = name_for h t.
Proof.
  intros Hg. unfold request_for, name_for.
  destruct (Nat.eq_dec item (t_item t)) as [->|Hne].
  - rewrite list_lookup_alter_eq. destruct (h !! t_item t) as [it|];
      [|split; reflexivity]. simpl.
    destruct (Hg it) as (A & B & C). unfold buildFilePath.
    rewrite A, B, C. split; reflexivity.
  - rewrite list_lookup_alter_ne by assumption. split; reflexivity.
Qed.

Lemma logged_alter (g : Item -> Item) h item q ts f os :
  (forall i, url (g i) = url i /\ filename (g i) = filename i
             /\ subfolder (g i) = subfolder i) ->
  LoggedOf c h q ts f os -> LoggedOf c (alter g item h) q ts f os.
Proof.
  intros Hg [Q A B C].
  assert (E1 : map (request_for (basePath c) (alter g item h)) ts
               = map (request_for (basePath c) h) ts).
  { apply map_ext. intros t. apply request_for_alter, Hg. }
  assert (E2 : map (name_for (alter g item h)) ts = map (name_for h) ts).
  { apply map_ext. intros t.
    apply (request_for_alter g (basePath c) h item t Hg). }
  constructor.
  - rewrite length_alter. exact Q.
  - rewrite E1. exact A.
  - destruct (onFileStart c); [rewrite E2|]; exact B.
  - exact C.
Qed.

Lemma request_for_valid base (h : list Item) ts l :
  map Some l = map (request_for base h) ts ->
  Forall (fun t => t_item t < length h) ts.
Proof.
  revert l. induction ts as [|t ts IH]; intros [|x l] E; simpl in E;
    try discriminate; constructor.
  - injection E as E _. unfold request_for in E.
    destruct (h !! t_item t) eqn:L; [|discriminate].
    eapply lookup_lt_Some; eauto.
  - injection E as _ E. eapply IH; eauto.
Qed.

Lemma logged_grow h h' q ts f os :
  LoggedOf c h q ts f os ->
  LoggedOf c (h ++ h') (q ++ seq (length h) (length h')) ts f os.
Proof.
  intros [Q A B C].
  pose proof (request_for_valid _ _ _ _ A) as Hv.
  assert (E : forall t, In t ts -> (h ++ h') !! t_item t = h !! t_item t).
  { intros t Hin. rewrite List.Forall_forall in Hv.
    apply lookup_app_l, Hv, Hin. }
  assert (E1 : map (request_for (basePath c) (h ++ h')) ts
               = map (request_for (basePath c) h) ts).
  { apply map_ext_in. intros t Hin. unfold request_for.
    rewrite (E t Hin). reflexivity. }
  assert (E2 : map (name_for (h ++ h')) ts = map (name_for h) ts).
  { apply map_ext_in. intros t Hin. unfold name_for.
    rewrite (E t Hin). reflexivity. }
  constructor.
  - rewrite length_app. apply Forall_app. split.
    + eapply List.Forall_impl; [|exact Q]. simpl. intros; lia.
    + apply List.Forall_forall. intros r Hr. apply List.in_seq in Hr. lia.
  - rewrite E1. exact A.
  - destruct (onFileStart c); [rewrite E2|]; exact B.
  - exact C.
Qed.

Lemma logged_silent o h q ts f os :
  match o with
  | OutDownload _ _ | OutFileStart _ | OutError _ _ => False
  | _ => True
  end ->
  LoggedOf c h q ts f os -> LoggedOf c h q ts f (o :: os).
Proof.
  intros Ho [Q A B C].
  destruct o; try contradiction; constructor; assumption.
Qed.

Lemma logged_phase h q (ts : list Task) f os k item p p' :
  ts !! k = Some (mkTask item p) ->
  LoggedOf c h q ts f os ->
  LoggedOf c h q (<[k := mkTask item p']> ts) f os.
Proof.
  intros Hk [Q A B C].
  assert (E : forall g : Task -> option (string * string),
            (forall t t', t_item t = t_item t' -> g t = g t') ->
            map g (<[k := mkTask item p']> ts) = map g ts).
  { intros g Hg. apply list_eq. intros i.
    change (map g ?l) with (g <$> l). rewrite !list_lookup_fmap.
    destruct (Nat.eq_dec i k) as [->|Hne].
    - rewrite list_lookup_insert_eq by (eapply lookup_lt_Some; eauto).
      rewrite Hk. simpl. f_equal. apply Hg. reflexivity.
    - rewrite list_lookup_insert_ne by auto. reflexivity. }
  assert (E' : forall g : Task -> option string,
            (forall t t', t_item t = t_item t' -> g t = g t') ->
            map g (<[k := mkTask item p']> ts) = map g ts).
  { intros g Hg. apply list_eq. intros i.
    change (map g ?l) with (g <$> l). rewrite !list_lookup_fmap.
    destruct (Nat.eq_dec i k) as [->|Hne].
    - rewrite list_lookup_insert_eq by (eapply lookup_lt_Some; eauto).
      rewrite Hk. simpl. f_equal. apply Hg. reflexivity.
    - rewrite list_lookup_insert_ne by auto. reflexivity. }
  constructor.
  - exact Q.
  - rewrite E; [exact A|]. intros t t' Ht. unfold request_for.
    rewrite Ht. reflexivity.
  - destruct (onFileStart c); [|exact B].
    rewrite E'; [exact B|]. intros t t' Ht. unfold name_for.
    rewrite Ht. reflexivity.
  - exact C.
Qed.

(** Lines 114-122: the name is announced and the download requested. *)
Lemma logged_begin (h : list Item) q ts f os item it :
  h !! item = Some it ->
  LoggedOf c h q ts f os ->
  LoggedOf c h q (ts ++ [mkTask item Starting]) f
    (OutDownload (url it) (buildFilePath (basePath c) it)
     :: (if onFileStart c then OutFileStart (filename it) :: os else os)).
Proof.
  intros Hit [Q A B C]. constructor.
  - exact Q.
  - rewrite map_app. simpl. unfold request_for at 2. simpl. rewrite Hit.
    simpl. unfold requests. simpl. rewrite map_app. simpl. f_equal.
    destruct (onFileStart c); exact A.
  - destruct (onFileStart c).
    + rewrite map_app. simpl. unfold name_for at 2. simpl. rewrite Hit.
      simpl. unfold file_starts. simpl. rewrite map_app. simpl. f_equal.
      exact B.
    + exact B.
  - destruct (onFileStart c); exact C.
Qed.

Lemma logged_begin_as (h : list Item) q ts f os os' item it :
  h !! item = Some it ->
  LoggedOf c h q ts f os ->
  os' = OutDownload (url it) (buildFilePath (basePath c) it)
        :: (if onFileStart c then OutFileStart (filename it) :: os else os) ->
  LoggedOf c h q (ts ++ [mkTask item Starting]) f os'.
Proof. intros Hit H ->. apply logged_begin; assumption. Qed.

(** Lines 145-151: the item is pushed on the failed list and reported. *)
Lemma logged_fail h q ts f os item msg :
  LoggedOf c h q ts f os ->
  LoggedOf c h q ts (f ++ [item])
    (if onError c then OutError item msg :: os else os).
Proof.
  intros [Q A B C]. constructor.
  - exact Q.
  - destruct (onError c); exact A.
  - destruct (onError c); exact B.
  - destruct (onError c) eqn:E.
    + unfold errors. simpl. rewrite map_app. simpl. f_equal. exact C.
    + exact C.
Qed.

End LoggedOf.

Lemma logged_frame s s' :
  cfg s' = cfg s -> heap s' = heap s -> queue s' = queue s ->
  tasks s' = tasks s -> failed s' = failed s -> out s' = out s ->
  Logged s -> Logged s'.
Proof. unfold Logged. intros -> -> -> -> -> ->. auto. Qed.

Lemma logged_emitProgress s : Logged s -> Logged (emitProgress s).
Proof.
  intros H. unfold emitProgress. destruct (onProgress (cfg s)); [|exact H].
  apply logged_silent; [exact I | exact H].
Qed.

Lemma logged_emitComplete s : Logged s -> Logged (emitComplete s).
Proof.
  intros H. unfold emitComplete. destruct (onComplete (cfg s)); [|exact H].
  apply logged_silent; [exact I | exact H].
Qed.

Ltac logged_peel :=
  first
    [ assumption
    | apply logged_emitProgress
    | apply logged_emitComplete
    | match goal with
      | |- Logged (if ?b then _ else _) => destruct b
      | |- Logged (set_active _ ?s) => apply (logged_frame s); [reflexivity..|]
      | |- Logged (set_completed _ ?s) =>
          apply (logged_frame s); [reflexivity..|]
      | |- Logged (set_isPaused _ ?s) =>
          apply (logged_frame s); [reflexivity..|]
      | |- Logged (set_isCancelled _ ?s) =>
          apply (logged_frame s); [reflexivity..|]
      | |- Logged (set_loop _ ?s) => apply (logged_frame s); [reflexivity..|]
      | |- Logged (set_now _ ?s) => apply (logged_frame s); [reflexivity..|]
      | |- Logged (set_enqueued _ ?s) =>
          apply (logged_frame s); [reflexivity..|]
      end ].

Ltac logged_go := repeat logged_peel.

Lemma logged_update item (g : Item -> Item) s :
  (forall i, url (g i) = url i /\ filename (g i) = filename i
             /\ subfolder (g i) = subfolder i) ->
  Logged s -> Logged (update item g s).
Proof. intros Hg H. apply (logged_alter (cfg s)); assumption. Qed.

Lemma logged_processItem_begin item s :
  item < length (heap s) -> Logged s -> Logged (processItem_begin item s).
Proof.
  intros Hlt H.
  assert (H0 : Logged (update item (with_status Downloading) s)).
  { apply logged_update; [|exact H]. intros i. repeat split. }
  destruct (lookup_lt_is_Some_2 (alter (with_status Downloading) item
                                   (heap s)) item) as [it Hit].
  { rewrite length_alter. exact Hlt. }
  unfold processItem_begin, emitProgress. simpl.
  destruct (onProgress (cfg s)) eqn:Ep; simpl; rewrite Hit;
    destruct (onFileStart (cfg s)) eqn:Ef; unfold Logged; simpl;
    (eapply logged_begin_as; [exact Hit | | rewrite Ef; reflexivity]);
    first [exact H0 | apply logged_silent; [exact I | exact H0]].
Qed.

Lemma logged_processItem_catch item msg s :
  Logged s -> Logged (processItem_catch item msg s).
Proof.
  intros H. unfold processItem_catch.
  destruct (heap s !! item) as [it|] eqn:Hit; [|exact H].
  destruct (retries it <? retryAttempts (cfg s)).
  - assert (H1 : Logged (update item
                 (fun i => with_status Queued (with_retries (S (retries i)) i))
                 s)).
    { apply logged_update; [|exact H]. intros i. repeat split. }
    revert H1. unfold Logged. simpl. apply logged_queue.
    constructor.
    + rewrite length_alter. eapply lookup_lt_Some; eauto.
    + rewrite length_alter. apply (lg_queue _ _ _ _ _ _ H).
  - assert (H1 : Logged (update item
                 (fun i => with_error msg (with_status Failed i)) s)).
    { apply logged_update; [|exact H]. intros i. repeat split. }
    pose proof (logged_fail _ _ _ _ _ _ item msg H1) as L.
    revert L. unfold Logged. simpl. destruct (onError (cfg s)); simpl; auto.
Qed.

Lemma logged_processItem_finally k item p s :
  tasks s !! k = Some (mkTask item p) ->
  Logged s -> Logged (processItem_finally k item s).
Proof.
  intros Hk H. unfold processItem_finally. apply logged_emitProgress.
  assert (H1 : Logged match findIndex (heap s) item (active s) with
                      | Some index => set_active (delete index (active s)) s
                      | None => s
                      end)
    by (destruct (findIndex (heap s) item (active s)); logged_go).
  assert (E : tasks match findIndex (heap s) item (active s) with
                    | Some index => set_active (delete index (active s)) s
                    | None => s
                    end = tasks s)
    by (destruct (findIndex (heap s) item (active s)); reflexivity).
  revert H1.
  generalize dependent (match findIndex (heap s) item (active s) with
                        | Some index => set_active (delete index (active s)) s
                        | None => s
                        end).
  intros s1 E H1. unfold Logged in *. simpl.
  eapply logged_phase; [|exact H1]. rewrite E. exact Hk.
Qed.

Lemma logged_fill_slots (l : list ref) s :
  Forall (fun r => r < length (heap s)) l ->
  Logged s -> Logged (fill_slots l s).
Proof.
  revert s. induction l as [|item rest IH]; intros s Hl H; simpl; [exact H|].
  destruct (length (active s) <? maxConcurrent (cfg s)); [|exact H].
  inversion Hl as [|? ? Hitem Hrest]; subst.
  apply IH.
  - destruct (processItem_begin_frame item
                (set_active (active s ++ [item]) (set_queue rest s)))
      as (_ & _ & _ & _ & _ & _ & _ & _ & ->).
    simpl. rewrite length_alter. exact Hrest.
  - apply logged_processItem_begin; [exact Hitem|]. logged_go.
    revert H. unfold Logged. simpl. apply logged_queue. exact Hrest.
Qed.

Lemma logged_abort_active s : Logged s -> Logged (abort_active s).
Proof.
  unfold abort_active. generalize (active s) as l. intros l. revert s.
  induction l as [|a l IH]; intros s H; simpl; [exact H|].
  apply IH. destruct (heap s !! a) as [it|]; [|exact H].
  destruct (downloadId it) as [[|n]|]; try exact H.
  apply logged_silent; [exact I | exact H].
Qed.

Lemma logged_after_loop s : Logged s -> Logged (after_loop s).
Proof. intros H. unfold after_loop. logged_go. Qed.

Lemma logged_pause_gate s : Logged s -> Logged (pause_gate s).
Proof.
  intros H. unfold pause_gate.
  destruct (isPaused s && negb (isCancelled s)); [logged_go|].
  destruct (isCancelled s); [apply logged_after_loop; exact H|].
  logged_go. apply logged_fill_slots; [|exact H].
  apply (lg_queue _ _ _ _ _ _ H).
Qed.

Lemma logged_loop_top s : Logged s -> Logged (loop_top s).
Proof.
  intros H. unfold loop_top.
  destruct (negb (isCancelled s)
            && (negb (is_nil (queue s)) || negb (is_nil (active s))));
    [apply logged_pause_gate | apply logged_after_loop]; exact H.
Qed.

Lemma logged_step e s s' : step e s = Some s' -> Logged s -> Logged s'.
Proof.
  intros Hstep H.
  destruct e; simpl in Hstep; try (injection Hstep as <-).
  - unfold addToQueue. simpl. apply logged_emitProgress.
    revert H. unfold Logged. simpl. apply logged_grow.
  - destruct (loop s); try discriminate. injection Hstep as <-.
    unfold start. destruct (is_nil (queue s) && is_nil (active s)).
    + apply logged_emitComplete. exact H.
    + apply logged_loop_top. logged_go.
  - unfold pause. logged_go.
  - unfold resume. logged_go.
  - unfold cancel. logged_go.
    assert (H1 : Logged (abort_active
                           (set_isPaused false (set_isCancelled true s))))
      by (apply logged_abort_active; logged_go).
    revert H1. unfold Logged. simpl. apply logged_queue. constructor.
  - logged_go.
  - destruct (loop s) eqn:El; try discriminate;
      match type of Hstep with (if ?b then _ else _) = _ => destruct b end;
      try discriminate; injection Hstep as <-.
    + apply logged_pause_gate. exact H.
    + apply logged_loop_top. exact H.
    + apply logged_after_loop. exact H.
  - destruct (tasks s !! k) as [[item p]|] eqn:Hk; try discriminate.
    destruct p; try discriminate. injection Hstep as <-.
    assert (Hf : forall msg, Logged (processItem_failure k item msg s)).
    { intros msg. unfold processItem_failure.
      apply (logged_processItem_finally k item Starting).
      - unfold processItem_catch. destruct (heap s !! item); [|exact Hk].
        destruct (retries i <? retryAttempts (cfg s)); simpl; [exact Hk|].
        destruct (onError (cfg s)); exact Hk.
      - apply logged_processItem_catch. exact H. }
    unfold on_download_reply.
    destruct (downloadFile r) as [[|n]|msg]; try apply Hf.
    revert H. unfold Logged. simpl. apply logged_phase with (p := Starting).
    exact Hk.
  - destruct (tasks s !! k) as [[item p]|] eqn:Hk; try discriminate.
    destruct p; try discriminate. injection Hstep as <-.
    unfold on_search_reply.
    destruct (checkStatus r) as [[msg|]|]; [| |exact H].
    + unfold processItem_failure.
      apply (logged_processItem_finally k item (Waiting handle)).
      * unfold processItem_catch. destruct (heap s !! item); [|exact Hk].
        destruct (retries i <? retryAttempts (cfg s)); simpl; [exact Hk|].
        destruct (onError (cfg s)); exact Hk.
      * apply logged_processItem_catch. exact H.
    + unfold processItem_success.
      apply (logged_processItem_finally k item (Waiting handle));
        [exact Hk|].
      logged_go. apply logged_update; [|exact H]. intros i. repeat split.
  - destruct (tasks s !! k) as [[item p]|] eqn:Hk; try discriminate.
    destruct p; try discriminate.
    destruct (until <=? now s)%N; try discriminate. injection Hstep as <-.
    revert H. unfold Logged. simpl.
    apply logged_phase with (p := Delaying until). exact Hk.
Qed.

Lemma logged_init options : Logged (init options new_manager).
Proof.
  unfold Logged. simpl. constructor; simpl; try constructor.
  - destruct (opt_onFileStart options); reflexivity.
  - destruct (opt_onError options); reflexivity.
Qed.

Lemma logged_run es : forall s s',
  run es s = Some s' -> Logged s -> Logged s'.
Proof.
  induction es as [|e es IH]; intros s s' Hrun H; simpl in Hrun.
  - injection Hrun as <-. exact H.
  - destruct (step e s) as [s1|] eqn:E; [|discriminate].
    apply (IH s1 s' Hrun). eapply logged_step; eauto.
Qed.

(** X14: the outbound calls of a run, in order.  One download is requested
    for each [processItem] invocation, for the url of the invocation's
    item and at the path [basePath/subfolder/filename], the subfolder
    left out when empty; [onFileStart], when supplied, has been called
    with the filenames of the same items in the same order; [onError],
    when supplied, has been called once for each item of the failed
    list, in the order of the list, and for no other item. *)
Theorem calls_follow_the_attempts options es s :
  reaches options es s ->
  map Some (requests (out s))
  = map (request_for (basePath (cfg s)) (heap s)) (tasks s)
  /\ (if onFileStart (cfg s)
      then map Some (file_starts (out s)) = map (name_for (heap s)) (tasks s)
      else file_starts (out s) = [])
  /\ (if onError (cfg s)
      then map fst (errors (out s)) = failed s
      else errors (out s) = []).
Proof.
  intros H.
  destruct (logged_run es _ s H (logged_init options)) as [_ A B C].
  auto.
Qed.

Lemma calls_follow_the_attempts_witness :
  reaches default_options plain_run plain_state
  /\ requests (out plain_state)
     = [("https://cdn.example/a.jpg", "Civitai/a.jpg");
        ("https://cdn.example/b.jpg", "Civitai/b.jpg");
        ("https://cdn.example/c.jpg", "Civitai/c.jpg")]%string.
Proof.
  assert (H : reaches default_options plain_run plain_state)
    by (vm_compute; reflexivity).
  split; [exact H|].
  destruct (calls_follow_the_attempts default_options plain_run plain_state H)
    as [A _].
  assert (Hinj : forall l l' : list (string * string),
            map Some l = map Some l' -> l = l').
  { induction l as [|x l IH]; intros [|y l'] E; simpl in E;
      try discriminate; [reflexivity|].
    injection E as -> E. f_equal. apply IH. exact E. }
  apply Hinj. rewrite A. vm_compute. reflexivity.
Defined.
(** ** The UUID that [getMediaUuid] finds *)

Lemma hexes_spec n (s t : chars) :
  hexes n s = Some t
  <-> exists g, s = g ++ t /\ length g = n
                /\ Forall (fun x => is_hex x = true) g.
Proof.
  revert s. induction n as [|n IH]; intros s; simpl.
  - split.
    + intros [= ->]. exists []. repeat split. constructor.
    + intros (g & -> & Hl & _). destruct g; [reflexivity | discriminate].
  - destruct s as [|x s].
    + split; [discriminate|]. intros ([|y g] & E & Hl & _); discriminate.
    + destruct (is_hex x) eqn:Hx.
      * rewrite IH. split.
        -- intros (g & -> & Hl & Hg). exists (x :: g). simpl.
           repeat split; auto.
        -- intros ([|y g] & E & Hl & Hg); [discriminate|].
           injection E as Ex Es. injection Hl as Hl.
           inversion Hg as [|? ? Hy Hg']; subst. eauto.
      * split; [discriminate|].
        intros ([|y g] & E & Hl & Hg); [discriminate|].
        injection E as Ex Es. inversion Hg as [|? ? Hy Hg']; subst.
        rewrite Hy in Hx. discriminate.
Qed.

Lemma dash_spec (s t : chars) : dash s = Some t <-> s = "-"%char :: t.
Proof.
  unfold dash. destruct s as [|x s]; [split; discriminate|].
  destruct (Ascii.eqb x "-") eqn:E.
  - apply Ascii.eqb_eq in E. subst.
    split; intros H; injection H as ->; reflexivity.
  - apply Ascii.eqb_neq in E. split; [discriminate|].
    intros H. injection H as Hx _. contradiction.
Qed.

Lemma slash_spec (s t : chars) : slash s = Some t <-> s = "/"%char :: t.
Proof.
  unfold slash. destruct s as [|x s]; [split; discriminate|].
  destruct (Ascii.eqb x "/") eqn:E.
  - apply Ascii.eqb_eq in E. subst.
    split; intros H; injection H as ->; reflexivity.
  - apply Ascii.eqb_neq in E. split; [discriminate|].
    intros H. injection H as Hx _. contradiction.
Qed.

Lemma and_then_Some {A B} (o : option A) (f : A -> option B) (b : B) :
  and_then o f = Some b <-> exists a, o = Some a /\ f a = Some b.
Proof.
  destruct o as [a|]; simpl.
  - split; [eauto|]. intros (a' & [= <-] & H). exact H.
  - split; [discriminate|]. intros (a' & E & _). discriminate.
Qed.

Lemma uuid_shaped_length u : uuid_shaped u -> length u = 36.
Proof.
  intros (a & b & c & d & e & -> & Ha & Hb & Hc & Hd & He & _).
  repeat (rewrite length_app; cbn [length]). lia.
Qed.

Lemma uuid_here_spec (s u : chars) :
  uuid_here s = Some u
  <-> uuid_shaped u /\ exists rest, s = "/"%char :: u ++ "/"%char :: rest.
Proof.
  unfold uuid_here. split.
  - intros H.
    apply and_then_Some in H as (s1 & H1 & H). apply slash_spec in H1.
    apply and_then_Some in H as (s2 & H2 & H).
    apply hexes_spec in H2 as (a & E2 & La & Ha).
    apply and_then_Some in H as (s3 & H3 & H). apply dash_spec in H3.
    apply and_then_Some in H as (s4 & H4 & H).
    apply hexes_spec in H4 as (b & E4 & Lb & Hb).
    apply and_then_Some in H as (s5 & H5 & H). apply dash_spec in H5.
    apply and_then_Some in H as (s6 & H6 & H).
    apply hexes_spec in H6 as (c & E6 & Lc & Hc).
    apply and_then_Some in H as (s7 & H7 & H). apply dash_spec in H7.
    apply and_then_Some in H as (s8 & H8 & H).
    apply hexes_spec in H8 as (d & E8 & Ld & Hd).
    apply and_then_Some in H as (s9 & H9 & H). apply dash_spec in H9.
    apply and_then_Some in H as (s10 & H10 & H).
    apply hexes_spec in H10 as (e & E10 & Le & He).
    apply and_then_Some in H as (rest & H11 & H). apply slash_spec in H11.
    injection H as <-. subst.
    assert (E : a ++ "-"%char :: b ++ "-"%char :: c ++ "-"%char :: d
                  ++ "-"%char :: e ++ "/"%char :: rest
                = (a ++ "-"%char :: b ++ "-"%char :: c ++ "-"%char :: d
                     ++ "-"%char :: e) ++ "/"%char :: rest).
    { repeat (rewrite <- app_assoc; cbn [app]). reflexivity. }
    assert (Hs : uuid_shaped (a ++ "-"%char :: b ++ "-"%char :: c
                                ++ "-"%char :: d ++ "-"%char :: e)).
    { exists a, b, c, d, e. repeat split; auto.
      repeat (apply Forall_app; split); assumption. }
    rewrite E, take_app_length'
      by (symmetry; apply uuid_shaped_length; exact Hs).
    split; [exact Hs | eauto].
  - intros [Hs (rest & ->)]. pose proof (uuid_shaped_length u Hs) as Hlen.
    destruct Hs as (a & b & c & d & e & -> & La & Lb & Lc & Ld & Le & Hh).
    apply Forall_app in Hh as [Ha Hh]. apply Forall_app in Hh as [Hb Hh].
    apply Forall_app in Hh as [Hc Hh]. apply Forall_app in Hh as [Hd He].
    assert (E : (a ++ "-"%char :: b ++ "-"%char :: c ++ "-"%char :: d
                   ++ "-"%char :: e) ++ "/"%char :: rest
                = a ++ "-"%char :: b ++ "-"%char :: c ++ "-"%char :: d
                    ++ "-"%char :: e ++ "/"%char :: rest).
    { repeat (rewrite <- app_assoc; cbn [app]). reflexivity. }
    revert E Hlen.
    generalize (a ++ "-"%char :: b ++ "-"%char :: c ++ "-"%char :: d
                  ++ "-"%char :: e) as U.
    intros U E Hlen.
    apply and_then_Some. eexists. split; [apply slash_spec; reflexivity|].
    apply and_then_Some. eexists.
    split; [apply hexes_spec; exists a; split; [exact E | split; assumption]|].
    apply and_then_Some. eexists. split; [apply dash_spec; reflexivity|].
    apply and_then_Some. eexists.
    split; [apply hexes_spec; exists b;
            split; [reflexivity | split; assumption]|].
    apply and_then_Some. eexists. split; [apply dash_spec; reflexivity|].
    apply and_then_Some. eexists.
    split; [apply hexes_spec; exists c;
            split; [reflexivity | split; assumption]|].
    apply and_then_Some. eexists. split; [apply dash_spec; reflexivity|].
    apply and_then_Some. eexists.
    split; [apply hexes_spec; exists d;
            split; [reflexivity | split; assumption]|].
    apply and_then_Some. eexists. split; [apply dash_spec; reflexivity|].
    apply and_then_Some. eexists.
    split; [apply hexes_spec; exists e;
            split; [reflexivity | split; assumption]|].
    apply and_then_Some. eexists. split; [apply slash_spec; reflexivity|].
    f_equal. apply take_app_length'. symmetry. exact Hlen.
Qed.

(** X15: [getMediaUuid] answers exactly when the url holds, between two
    slashes, five groups of 8, 4, 4, 4 and 12 hexadecimal digits joined
    by dashes, in either case; its answer is such a text, taken from the
    url with a slash on either side, and it answers nothing only when
    the url holds no such text. *)
Theorem getMediaUuid_matches url :
  (forall u, getMediaUuid url = Some u ->
     uuid_shaped u
     /\ exists pre post, url = pre ++ "/"%char :: u ++ "/"%char :: post)
  /\ (getMediaUuid url = None ->
      forall pre u post,
        url = pre ++ "/"%char :: u ++ "/"%char :: post -> ~ uuid_shaped u).
Proof.
  induction url as [|x url [IHs IHn]]; simpl.
  - split; [discriminate|]. intros _ [|y pre] u post E; discriminate.
  - destruct (uuid_here (x :: url)) as [u0|] eqn:E.
    + split; [|discriminate]. intros u [= <-].
      apply uuid_here_spec in E as [Hs (rest & E)].
      split; [exact Hs|]. exists [], rest. exact E.
    + split.
      * intros u H. destruct (IHs u H) as [Hs (pre & post & ->)].
        split; [exact Hs|]. exists (x :: pre), post. reflexivity.
      * intros H [|y pre] u post Eu Hs.
        -- simpl in Eu.
           assert (Hh : uuid_here (x :: url) = Some u)
             by (apply uuid_here_spec; split; [exact Hs|]; eauto).
           congruence.
        -- injection Eu as _ Eu. exact (IHn H pre u post Eu Hs).
Qed.

Lemma getMediaUuid_matches_witness :
  getMediaUuid
    (lit "https://i.example/k/0123abcd-0123-4567-89ab-0123456789AB/w/a.jpeg")
  = Some (lit "0123abcd-0123-4567-89ab-0123456789AB")
  /\ uuid_shaped (lit "0123abcd-0123-4567-89ab-0123456789AB").
Proof.
  assert (H : getMediaUuid
                (lit "https://i.example/k/0123abcd-0123-4567-89ab-0123456789AB/w/a.jpeg")
              = Some (lit "0123abcd-0123-4567-89ab-0123456789AB"))
    by (vm_compute; reflexivity).
  split; [exact H|].
  destruct (getMediaUuid_matches
              (lit "https://i.example/k/0123abcd-0123-4567-89ab-0123456789AB/w/a.jpeg"))
    as [Hs _].
  exact (proj1 (Hs _ H)).
Defined.

(** ** The snapshot of [getProgress] *)


